(** * idb-store: a promise-based store layer over IndexedDB

    Shallow embedding of the TypeScript sources of the repository.  The
    library itself is small: [promisify], the class [IDBStore] and the class
    [IDBDatabase].  Everything it does is done by calling the browser's
    Indexed Database engine, so the development has two layers:

    - the engine, modelled after the Indexed Database API (object stores
      with records ordered by key, indexes, transactions with a request
      queue, the success/error/complete/abort events);
    - the library, translated function by function.

    JavaScript closures are defunctionalised: every arrow function of the
    source is a constructor of [closure] and [invoke] gives its body. *)

From Stdlib Require Import Strings.Ascii.
From stdpp Require Import gmap strings list sorting lexico.

Set Warnings "-register-all".

Open Scope Z_scope.
Open Scope string_scope.
Open Scope list_scope.

(** ** Keys and values *)

(** [IDBValidKey]: numbers, strings and arrays of keys.  (Dates and
    binary keys are no values of this model, see [jsval].) *)
Inductive key :=
| KNum (n : Z)
| KStr (s : string)
| KArr (ks : list key).

#[global] Instance key_eq_dec : EqDecision key.
Proof.
  refine (fix go (a b : key) : Decision (a = b) :=
            match a, b with
            | KNum m, KNum n => cast_if (decide (m = n))
            | KStr s, KStr t => cast_if (decide (s = t))
            | KArr xs, KArr ys => cast_if (@list_eq_dec _ go xs ys)
            | _, _ => right _
            end); congruence.
Defined.

(** Code units of a string, for the lexicographic comparison of string
    keys. *)
Fixpoint code_units (s : string) : list N :=
  match s with
  | EmptyString => []
  | String a s' => Ascii.N_of_ascii a :: code_units s'
  end.

(** Lists compared item by item; a list is above its proper prefixes. *)
Section list_lt.
Context {A : Type} (R : A → A → Prop).

Fixpoint list_lt (xs ys : list A) : Prop :=
  match xs, ys with
  | [], _ :: _ => True
  | x :: xs', y :: ys' => R x y ∨ (x = y ∧ list_lt xs' ys')
  | _, [] => False
  end.

Context `{!EqDecision A} (dec : ∀ x y, Decision (R x y)).

Definition list_lt_dec : ∀ xs ys : list A, Decision (list_lt xs ys).
Proof.
  refine (fix go (xs ys : list A) : Decision (list_lt xs ys) :=
            match xs, ys with
            | [], _ :: _ => left I
            | x :: xs', y :: ys' =>
                or_dec (dec x y) (and_dec (decide (x = y)) (go xs' ys'))
            | _, [] => right _
            end); intros [].
Defined.
End list_lt.

(** The engine orders keys: every number is below every string and every
    string below every array; numbers compare numerically, strings by
    code units, arrays item by item. *)
Fixpoint key_lt (a b : key) : Prop :=
  match a, b with
  | KNum m, KNum n => (m < n)%Z
  | KNum _, (KStr _ | KArr _) => True
  | KStr s, KStr t => lexico (code_units s) (code_units t)
  | KStr _, KArr _ => True
  | KArr xs, KArr ys => list_lt key_lt xs ys
  | _, _ => False
  end.

(** JavaScript values that travel through the library: [undefined],
    [null], integers, strings, plain objects and arrays.  [VRef] is a
    reference to a mutable array of the heap, [VCursor] a reference to a
    cursor object of the engine.  There are no fractional numbers, dates
    or binary data. *)
Inductive jsval :=
| VUndefined
| VNull
| VNum (n : Z)
| VStr (s : string)
| VObj (fields : list (string * jsval))
| VArr (elems : list jsval)
| VRef (loc : nat)
| VCursor (c : nat).

(** [!v] of JavaScript. *)
Definition falsy (v : jsval) : bool :=
  match v with
  | VUndefined | VNull => true
  | VNum n => bool_decide (n = 0)
  | VStr s => bool_decide (s = "")
  | _ => false
  end.

(** Property read [v[p]] on a plain object. *)
Fixpoint assoc (p : string) (fields : list (string * jsval)) : jsval :=
  match fields with
  | [] => VUndefined
  | (q, v) :: rest => if decide (p = q) then v else assoc p rest
  end.

(** The key a value is, when it is a valid key: a number, a string, or
    an array of valid keys. *)
Fixpoint to_key (v : jsval) : option key :=
  match v with
  | VNum n => Some (KNum n)
  | VStr s => Some (KStr s)
  | VArr elems => KArr <$> mapM to_key elems
  | _ => None
  end.

(** The identifiers of a key path: the path split at its periods. *)
Fixpoint identifiers (path : string) : list string :=
  match path with
  | EmptyString => [""]
  | String c rest =>
      if decide (c = "."%char) then "" :: identifiers rest
      else match identifiers rest with
           | id :: ids => String c id :: ids
           | [] => [String c ""]
           end
  end.

(** One step of a key path: [length] of a string or of an array, an own
    property of an object that is not [undefined]; anything else fails. *)
Definition step_into (identifier : string) (v : jsval) : option jsval :=
  match v with
  | VStr s =>
      if decide (identifier = "length") then Some (VNum (Z.of_nat (String.length s)))
      else None
  | VArr elems =>
      if decide (identifier = "length") then Some (VNum (Z.of_nat (length elems)))
      else None
  | VObj fields =>
      match assoc identifier fields with
      | VUndefined => None
      | x => Some x
      end
  | _ => None
  end.

Fixpoint follow (ids : list string) (v : jsval) : option jsval :=
  match ids with
  | [] => Some v
  | id :: rest => step_into id v ≫= follow rest
  end.

(** Evaluation of a key path on a value: the empty path is the value
    itself, any other path is followed identifier by identifier.  The
    result is a key only when the path leads to a valid key. *)
Definition key_at (path : string) (v : jsval) : option key :=
  (if decide (path = "") then Some v else follow (identifiers path) v) ≫= to_key.

(** Exceptions: the library's own [Error] and the engine's
    [DOMException]s, told apart by name. *)
Inductive exn :=
| Error (message : string)
| DOMException (name : string).

(** What a promise can be rejected with: an exception, [null] (the [error]
    attribute of a handle that has none) or the event object itself. *)
Inductive reason :=
| RExn (e : exn)
| RNull
| REvent.

(** ** A state and exception monad

    [js S A] is a JavaScript computation over a mutable state [S]: it
    returns or throws, and in both cases the state changes made so far
    stay. *)

Inductive completion (A : Type) :=
| Return (a : A)
| Throw (e : exn).
Arguments Return {A} a.
Arguments Throw {A} e.

Definition js (S A : Type) : Type := S → completion A * S.

#[global] Instance js_ret {S} : MRet (js S) := λ A a s, (Return a, s).
#[global] Instance js_bind {S} : MBind (js S) := λ A B f m s,
  match m s with
  | (Return a, s') => f a s'
  | (Throw e, s') => (Throw e, s')
  end.

Definition throw {S A} (e : exn) : js S A := λ s, (Throw e, s).
Definition get_state {S} : js S S := λ s, (Return s, s).
Definition put_state {S} (s : S) : js S unit := λ _, (Return tt, s).
Definition modify {S} (f : S → S) : js S unit := λ s, (Return tt, f s).

(** [xs.forEach(f)] and [for] loops over an array. *)
Fixpoint for_each {S A} (f : A → js S unit) (xs : list A) : js S unit :=
  match xs with
  | [] => mret tt
  | x :: rest => f x ≫= λ _, for_each f rest
  end.

(** [xs.map(f)] with an effectful [f]. *)
Fixpoint map_js {S A B} (f : A → js S B) (xs : list A) : js S (list B) :=
  match xs with
  | [] => mret []
  | x :: rest => y ← f x; ys ← map_js f rest; mret (y :: ys)
  end.

(** ** The engine: stores, indexes and records *)

#[global] Instance key_lt_dec : RelDecision key_lt.
Proof.
  refine (fix go (a b : key) : Decision (key_lt a b) :=
            match a, b with
            | KNum m, KNum n => decide (m < n)%Z
            | KNum _, KStr _ | KNum _, KArr _ | KStr _, KArr _ => left I
            | KStr s, KStr t => decide (lexico (code_units s) (code_units t))
            | KArr xs, KArr ys => list_lt_dec key_lt go xs ys
            | _, _ => right (λ H, H)
            end).
Defined.

Fixpoint of_key (k : key) : jsval :=
  match k with
  | KNum n => VNum n
  | KStr s => VStr s
  | KArr ks => VArr (of_key <$> ks)
  end.

(** An index of an object store, as [createIndex(name, keyPath, options)]
    declares it. *)
Record index := {
  ix_keyPath : string;
  ix_unique : bool;
}.

(** An object store: its key path ([None] for out-of-line keys), its
    indexes by name and its records in ascending key order.  Key
    generators are not modelled. *)
Record objectStore := {
  os_keyPath : option string;
  os_indexes : gmap string index;
  os_records : list (key * jsval);
}.

Definition with_records (rs : list (key * jsval)) (os : objectStore) : objectStore :=
  {| os_keyPath := os_keyPath os; os_indexes := os_indexes os; os_records := rs |}.

Definition with_index (n : string) (ix : index) (os : objectStore) : objectStore :=
  {| os_keyPath := os_keyPath os;
     os_indexes := <[n := ix]> (os_indexes os);
     os_records := os_records os |}.

(** A database is its object stores by name. *)
Abbreviation database := (gmap string objectStore).

(** Lookup, upsert and removal in the records of a store.  [records_put]
    keeps the list in ascending key order. *)
Fixpoint records_get (k : key) (rs : list (key * jsval)) : option jsval :=
  match rs with
  | [] => None
  | (k', v) :: rest => if decide (k = k') then Some v else records_get k rest
  end.

Fixpoint records_put (k : key) (v : jsval) (rs : list (key * jsval))
  : list (key * jsval) :=
  match rs with
  | [] => [(k, v)]
  | (k', v') :: rest =>
      if decide (k = k') then (k, v) :: rest
      else if decide (key_lt k k') then (k, v) :: (k', v') :: rest
      else (k', v') :: records_put k v rest
  end.

Definition records_delete (k : key) (rs : list (key * jsval)) : list (key * jsval) :=
  filter (λ r, r.1 ≠ k) rs.

(** What a cursor shows of a record: [cursor.key], [cursor.primaryKey] and
    [cursor.value].  On the store itself the two keys coincide; on an
    index [e_key] is the index key. *)
Record entry := {
  e_key : key;
  e_primaryKey : key;
  e_value : jsval;
}.

Definition position (e : entry) : key * key := (e_key e, e_primaryKey e).

Definition pos_lt (a b : key * key) : Prop :=
  key_lt a.1 b.1 ∨ (a.1 = b.1 ∧ key_lt a.2 b.2).

#[global] Instance pos_lt_dec : RelDecision pos_lt.
Proof. intros a b. unfold pos_lt. apply _. Defined.

Definition entry_lt (a b : entry) : Prop := pos_lt (position a) (position b).

#[global] Instance entry_lt_dec : RelDecision entry_lt.
Proof. intros a b. unfold entry_lt. apply _. Defined.

Definition store_view (rs : list (key * jsval)) : list entry :=
  map (λ r, {| e_key := r.1; e_primaryKey := r.1; e_value := r.2 |}) rs.

Fixpoint view_insert (e : entry) (es : list entry) : list entry :=
  match es with
  | [] => [e]
  | e' :: rest =>
      if decide (entry_lt e e') then e :: e' :: rest
      else e' :: view_insert e rest
  end.

(** The records an index holds: those whose value has a valid key at the
    index's key path, ordered by index key and then by primary key. *)
Definition index_view (path : string) (rs : list (key * jsval)) : list entry :=
  foldr (λ r acc,
           match key_at path r.2 with
           | Some ik => view_insert {| e_key := ik; e_primaryKey := r.1; e_value := r.2 |} acc
           | None => acc
           end) [] rs.

(** [IDBKeyRange] *)
Record IDBKeyRange := {
  lower : option key;
  upper : option key;
  lowerOpen : bool;
  upperOpen : bool;
}.

Definition above (bound : option key) (open : bool) (k : key) : Prop :=
  match bound with
  | None => True
  | Some l => key_lt l k ∨ (open = false ∧ l = k)
  end.

Definition below (bound : option key) (open : bool) (k : key) : Prop :=
  match bound with
  | None => True
  | Some u => key_lt k u ∨ (open = false ∧ u = k)
  end.

(** [range.includes(k)]; no range means every key. *)
Definition in_range (range : option IDBKeyRange) (k : key) : Prop :=
  match range with
  | None => True
  | Some r => above (lower r) (lowerOpen r) k ∧ below (upper r) (upperOpen r) k
  end.

#[global] Instance above_dec b o k : Decision (above b o k).
Proof. destruct b; simpl; apply _. Defined.
#[global] Instance below_dec b o k : Decision (below b o k).
Proof. destruct b; simpl; apply _. Defined.
#[global] Instance in_range_dec r k : Decision (in_range r k).
Proof. destruct r; simpl; apply _. Defined.

(** Is entry [e] strictly after the cursor's position? *)
Definition beyond (pos : option (key * key)) (e : entry) : Prop :=
  match pos with
  | None => True
  | Some p => pos_lt p (position e)
  end.

#[global] Instance beyond_dec p e : Decision (beyond p e).
Proof. destruct p; simpl; apply _. Defined.

(** The entries a cursor has still to visit, and the one it moves to. *)
Definition ahead (range : option IDBKeyRange) (pos : option (key * key))
    (view : list entry) : list entry :=
  filter (λ e, in_range range (e_key e) ∧ beyond pos e) view.

Definition seek (range : option IDBKeyRange) (pos : option (key * key))
    (view : list entry) : option entry :=
  head (ahead range pos view).

(** ** Heap objects, promises, handlers *)

Inductive source :=
| FromStore
| FromIndex (indexName : string).

(** The cursor object of a request: the engine moves it at every step
    and hands the same object to the success handler each time. *)
Record cursor_object := {
  cu_tx : nat;
  cu_request : nat;
  cu_source : source;
  cu_range : option IDBKeyRange;
  cu_position : option (key * key);
  cu_value : jsval;
}.

(** The heap of the script: its arrays. *)
Abbreviation heap := (list (list jsval)).

(** [cursor.value] *)
Definition cursor_value (cs : list cursor_object) (cursor : jsval) : jsval :=
  match cursor with
  | VCursor c => from_option cu_value VUndefined (cs !! c)
  | _ => VUndefined
  end.

(** [items.push(x)] *)
Definition array_push (items : nat) (x : jsval) (h : heap) : heap :=
  alter (λ l, l ++ [x]) items h.

(** The callback of a cursor walk: it receives the cursor, can read the
    engine's cursor objects and acts on the heap of the script. *)
Definition visitor : Type := jsval → list cursor_object → heap → heap.

Inductive settlement :=
| Pending
| Fulfilled (v : jsval)
| Rejected (r : reason).

(** What hangs on a promise: an element slot of a [Promise.all] and the
    rest of an [async] function that awaits the promise and then returns
    [result]. *)
Inductive reaction :=
| all_element (q : nat) (i : nat)
| async_return (q : nat) (result : jsval).

Record promise := {
  p_state : settlement;
  p_reactions : list reaction;
  p_values : list jsval;
  p_remaining : nat;
}.

(** The functions the source installs as event handlers.  The last one
    is the [onsuccess] of the cursor walk of the earlier version of the
    library ([src/index.ts]), which is bound to no promise. *)
Inductive closure :=
| promisify_resolve (p : nat)
| promisify_reject (p : nat)
| cursor_onsuccess (p : nat) (callback : visitor)
| reject_fn (p : nat)
| walk_onsuccess (callback : visitor).

Record handlers := {
  onsuccess : option closure;
  onerror : option closure;
  oncomplete : option closure;
  onabort : option closure;
}.

Definition no_handlers : handlers :=
  {| onsuccess := None; onerror := None; oncomplete := None; onabort := None |}.

(** ** The engine: transactions and requests *)

Inductive mode := readonly | readwrite.

#[global] Instance mode_eq_dec : EqDecision mode.
Proof. solve_decision. Defined.

Inductive operation :=
| op_get (src : source) (k : key)
| op_put (k : key) (v : jsval)
| op_delete (k : key)
| op_clear
| op_openCursor (src : source) (range : option IDBKeyRange)
| op_continue (c : nat).

Record request := {
  rq_op : operation;
  rq_handlers : handlers;
  rq_result : jsval;
  rq_error : reason;
}.

Inductive tx_status := Active | Aborting | Committed | Aborted.

(** A transaction over one store: the requests placed on it, the queue of
    those still to be executed, and its own copy of the records, which
    replaces the store's records when the transaction commits. *)
Record transaction := {
  tx_store : string;
  tx_mode : mode;
  tx_requests : list request;
  tx_queue : list nat;
  tx_handlers : handlers;
  tx_error : reason;
  tx_status_of : tx_status;
  tx_records : list (key * jsval);
}.

(** The world: the database with its version, every transaction opened so
    far, the identifiers of the unfinished ones in opening order, the
    engine's cursor objects, the promises, the heap, and the number of
    requests executed. *)
Record world := {
  w_version : Z;
  w_db : database;
  w_txs : list transaction;
  w_live : list nat;
  w_cursors : list cursor_object;
  w_promises : list promise;
  w_heap : heap;
  w_clock : nat;
}.

Definition set_db (f : database → database) (w : world) : world :=
  {| w_version := w_version w; w_db := f (w_db w); w_txs := w_txs w;
     w_live := w_live w; w_cursors := w_cursors w;
     w_promises := w_promises w; w_heap := w_heap w;
     w_clock := w_clock w |}.
Definition set_version (v : Z) (w : world) : world :=
  {| w_version := v; w_db := w_db w; w_txs := w_txs w;
     w_live := w_live w; w_cursors := w_cursors w;
     w_promises := w_promises w; w_heap := w_heap w;
     w_clock := w_clock w |}.
Definition set_txs (f : list transaction → list transaction) (w : world) : world :=
  {| w_version := w_version w; w_db := w_db w; w_txs := f (w_txs w);
     w_live := w_live w; w_cursors := w_cursors w;
     w_promises := w_promises w; w_heap := w_heap w;
     w_clock := w_clock w |}.
Definition set_live (f : list nat → list nat) (w : world) : world :=
  {| w_version := w_version w; w_db := w_db w; w_txs := w_txs w;
     w_live := f (w_live w); w_cursors := w_cursors w;
     w_promises := w_promises w; w_heap := w_heap w;
     w_clock := w_clock w |}.
Definition set_promises (f : list promise → list promise) (w : world) : world :=
  {| w_version := w_version w; w_db := w_db w; w_txs := w_txs w;
     w_live := w_live w; w_cursors := w_cursors w;
     w_promises := f (w_promises w); w_heap := w_heap w;
     w_clock := w_clock w |}.
Definition set_heap (f : heap → heap) (w : world) : world :=
  {| w_version := w_version w; w_db := w_db w; w_txs := w_txs w;
     w_live := w_live w; w_cursors := w_cursors w;
     w_promises := w_promises w; w_heap := f (w_heap w);
     w_clock := w_clock w |}.
Definition set_cursors (f : list cursor_object → list cursor_object) (w : world) : world :=
  {| w_version := w_version w; w_db := w_db w; w_txs := w_txs w;
     w_live := w_live w; w_cursors := f (w_cursors w);
     w_promises := w_promises w; w_heap := w_heap w;
     w_clock := w_clock w |}.
Definition tick (w : world) : world :=
  {| w_version := w_version w; w_db := w_db w; w_txs := w_txs w;
     w_live := w_live w; w_cursors := w_cursors w;
     w_promises := w_promises w; w_heap := w_heap w;
     w_clock := S (w_clock w) |}.

Definition set_requests (f : list request → list request) (tx : transaction) : transaction :=
  {| tx_store := tx_store tx; tx_mode := tx_mode tx; tx_requests := f (tx_requests tx);
     tx_queue := tx_queue tx; tx_handlers := tx_handlers tx; tx_error := tx_error tx;
     tx_status_of := tx_status_of tx; tx_records := tx_records tx |}.
Definition set_queue (f : list nat → list nat) (tx : transaction) : transaction :=
  {| tx_store := tx_store tx; tx_mode := tx_mode tx; tx_requests := tx_requests tx;
     tx_queue := f (tx_queue tx); tx_handlers := tx_handlers tx; tx_error := tx_error tx;
     tx_status_of := tx_status_of tx; tx_records := tx_records tx |}.
Definition set_tx_handlers (h : handlers) (tx : transaction) : transaction :=
  {| tx_store := tx_store tx; tx_mode := tx_mode tx; tx_requests := tx_requests tx;
     tx_queue := tx_queue tx; tx_handlers := h; tx_error := tx_error tx;
     tx_status_of := tx_status_of tx; tx_records := tx_records tx |}.
Definition set_tx_error (e : reason) (tx : transaction) : transaction :=
  {| tx_store := tx_store tx; tx_mode := tx_mode tx; tx_requests := tx_requests tx;
     tx_queue := tx_queue tx; tx_handlers := tx_handlers tx; tx_error := e;
     tx_status_of := tx_status_of tx; tx_records := tx_records tx |}.
Definition set_status (s : tx_status) (tx : transaction) : transaction :=
  {| tx_store := tx_store tx; tx_mode := tx_mode tx; tx_requests := tx_requests tx;
     tx_queue := tx_queue tx; tx_handlers := tx_handlers tx; tx_error := tx_error tx;
     tx_status_of := s; tx_records := tx_records tx |}.
Definition set_records (rs : list (key * jsval)) (tx : transaction) : transaction :=
  {| tx_store := tx_store tx; tx_mode := tx_mode tx; tx_requests := tx_requests tx;
     tx_queue := tx_queue tx; tx_handlers := tx_handlers tx; tx_error := tx_error tx;
     tx_status_of := tx_status_of tx; tx_records := rs |}.

Definition set_op (op : operation) (r : request) : request :=
  {| rq_op := op; rq_handlers := rq_handlers r; rq_result := rq_result r;
     rq_error := rq_error r |}.
Definition set_rq_handlers (h : handlers) (r : request) : request :=
  {| rq_op := rq_op r; rq_handlers := h; rq_result := rq_result r;
     rq_error := rq_error r |}.
Definition set_outcome (v : jsval) (e : reason) (r : request) : request :=
  {| rq_op := rq_op r; rq_handlers := rq_handlers r; rq_result := v;
     rq_error := e |}.

Definition alter_tx (t : nat) (f : transaction → transaction) (w : world) : world :=
  set_txs (alter f t) w.
Definition alter_request (t r : nat) (f : request → request) (w : world) : world :=
  alter_tx t (set_requests (alter f r)) w.

(** ** Promises *)

Definition new_cell (values : list jsval) : promise :=
  {| p_state := Pending; p_reactions := []; p_values := values;
     p_remaining := length values |}.

Definition set_settlement (s : settlement) (c : promise) : promise :=
  {| p_state := s; p_reactions := p_reactions c; p_values := p_values c;
     p_remaining := p_remaining c |}.

Definition add_reaction (r : reaction) (c : promise) : promise :=
  {| p_state := p_state c; p_reactions := p_reactions c ++ [r];
     p_values := p_values c; p_remaining := p_remaining c |}.

Definition set_element (i : nat) (v : jsval) (c : promise) : promise :=
  {| p_state := p_state c; p_reactions := p_reactions c;
     p_values := <[i := v]> (p_values c); p_remaining := pred (p_remaining c) |}.

Definition state_of (p : nat) (w : world) : settlement :=
  match w_promises w !! p with
  | Some c => p_state c
  | None => Pending
  end.

(** The [resolve] and [reject] functions of a promise act once: on a
    settled promise they do nothing. *)
Definition settle_cell (s : settlement) (c : promise) : promise :=
  match p_state c with
  | Pending => set_settlement s c
  | _ => c
  end.

Definition settle_only (p : nat) (s : settlement) (w : world) : world :=
  set_promises (alter (settle_cell s) p) w.

Definition react (s : settlement) (w : world) (r : reaction) : world :=
  match s, r with
  | Pending, _ => w
  | Fulfilled v, all_element q i =>
      match w_promises w !! q with
      | Some c =>
          let w' := set_promises (alter (set_element i v) q) w in
          if decide (pred (p_remaining c) = 0%nat)
          then settle_only q (Fulfilled (VArr (<[i := v]> (p_values c)))) w'
          else w'
      | None => w
      end
  | Fulfilled _, async_return q result => settle_only q (Fulfilled result) w
  | Rejected e, all_element q _ => settle_only q (Rejected e) w
  | Rejected e, async_return q _ => settle_only q (Rejected e) w
  end.

Definition settle (p : nat) (s : settlement) (w : world) : world :=
  match w_promises w !! p with
  | Some c =>
      match p_state c with
      | Pending => foldl (react s) (settle_only p s w) (p_reactions c)
      | _ => w
      end
  | None => w
  end.

Definition resolve (p : nat) (v : jsval) : js world unit := modify (settle p (Fulfilled v)).
Definition reject (p : nat) (r : reason) : js world unit := modify (settle p (Rejected r)).

(** [new Promise(executor)]: the executor runs at once; if it throws, the
    promise is rejected with what it threw. *)
Definition new_Promise (executor : nat → js world unit) : js world nat := λ w,
  let p := length (w_promises w) in
  match executor p (set_promises (λ ps, ps ++ [new_cell []]) w) with
  | (Return _, w') => (Return p, w')
  | (Throw e, w') => (Return p, settle p (Rejected (RExn e)) w')
  end.

(** [p.then(...)] as the library's own machinery uses it: the reaction is
    kept while [p] is pending and runs at once when [p] is settled. *)
Definition subscribe (p : nat) (r : reaction) : js world unit := λ w,
  match state_of p w with
  | Pending => (Return tt, set_promises (alter (add_reaction r) p) w)
  | s => (Return tt, react s w r)
  end.

Fixpoint subscribe_all (q : nat) (i : nat) (ps : list nat) : js world unit :=
  match ps with
  | [] => mret tt
  | p :: rest => subscribe p (all_element q i) ≫= λ _, subscribe_all q (S i) rest
  end.

(** [Promise.all(ps)] *)
Definition Promise_all (ps : list nat) : js world nat := λ w,
  let q := length (w_promises w) in
  let w1 := set_promises (λ cells, cells ++ [new_cell (replicate (length ps) VUndefined)]) w in
  let w2 := match ps with [] => settle q (Fulfilled (VArr [])) w1 | _ => w1 end in
  match subscribe_all q 0 ps w2 with
  | (_, w3) => (Return q, w3)
  end.

(** ** The engine: executing a request *)

Definition clashes (path : string) (k : key) (v : jsval) (rs : list (key * jsval)) : bool :=
  match key_at path v with
  | None => false
  | Some ik => existsb (λ r, bool_decide (r.1 ≠ k ∧ key_at path r.2 = Some ik)) rs
  end.

(** Would storing [v] under [k] put two records with the same key into a
    unique index? *)
Definition violates_unique (os : objectStore) (k : key) (v : jsval)
    (rs : list (key * jsval)) : bool :=
  existsb (λ ni, ix_unique ni.2 && clashes (ix_keyPath ni.2) k v rs)
          (map_to_list (os_indexes os)).

Definition view_of (os : objectStore) (src : source) (rs : list (key * jsval))
  : list entry :=
  match src with
  | FromStore => store_view rs
  | FromIndex n =>
      match os_indexes os !! n with
      | Some ix => index_view (ix_keyPath ix) rs
      | None => []
      end
  end.

Definition move_cursor (e : option entry) (cu : cursor_object) : cursor_object :=
  {| cu_tx := cu_tx cu; cu_request := cu_request cu;
     cu_source := cu_source cu; cu_range := cu_range cu;
     cu_position := position <$> e;
     cu_value := from_option e_value VUndefined e |}.

(** One request executed against the transaction's records: the result
    (or the name of the [DOMException]), the records and the cursor
    objects afterwards. *)
Definition execute (os : objectStore) (t r : nat) (op : operation)
    (rs : list (key * jsval)) (h : list cursor_object)
  : (string + jsval) * list (key * jsval) * list cursor_object :=
  match op with
  | op_get FromStore k => (inr (from_option id VUndefined (records_get k rs)), rs, h)
  | op_get (FromIndex n) k =>
      (inr (from_option e_value VUndefined
              (head (filter (λ e, e_key e = k) (view_of os (FromIndex n) rs)))), rs, h)
  | op_put k v =>
      if violates_unique os k v rs
      then (inl "ConstraintError", rs, h)
      else (inr (of_key k), records_put k v rs, h)
  | op_delete k => (inr VUndefined, records_delete k rs, h)
  | op_clear => (inr VUndefined, [], h)
  | op_openCursor src range =>
      match seek range None (view_of os src rs) with
      | None => (inr VNull, rs, h)
      | Some e =>
          (inr (VCursor (length h)), rs,
           h ++ [{| cu_tx := t; cu_request := r; cu_source := src;
                    cu_range := range; cu_position := Some (position e);
                    cu_value := e_value e |}])
      end
  | op_continue c =>
      match h !! c with
      | Some cu =>
          let next := seek (cu_range cu) (cu_position cu) (view_of os (cu_source cu) rs) in
          (inr (match next with Some _ => VCursor c | None => VNull end), rs,
           <[c := move_cursor next cu]> h)
      | None => (inr VNull, rs, h)
      end
  end.

(** ** Handles and their event handlers *)

Inductive handle :=
| h_request (t r : nat)
| h_transaction (t : nat).

Definition request_of (t r : nat) (w : world) : option request :=
  w_txs w !! t ≫= λ tx, tx_requests tx !! r.

(** [h.result] and [h.error]; a transaction has no [result]. *)
Definition result_of (h : handle) (w : world) : jsval :=
  match h with
  | h_request t r => from_option rq_result VUndefined (request_of t r w)
  | h_transaction _ => VUndefined
  end.

Definition error_of (h : handle) (w : world) : reason :=
  match h with
  | h_request t r => from_option rq_error RNull (request_of t r w)
  | h_transaction t => from_option tx_error RNull (w_txs w !! t)
  end.

Definition handlers_of (h : handle) (w : world) : handlers :=
  match h with
  | h_request t r => from_option rq_handlers no_handlers (request_of t r w)
  | h_transaction t => from_option tx_handlers no_handlers (w_txs w !! t)
  end.

Definition set_handlers (h : handle) (f : handlers → handlers) : js world unit :=
  match h with
  | h_request t r => modify (alter_request t r (λ rq, set_rq_handlers (f (rq_handlers rq)) rq))
  | h_transaction t => modify (alter_tx t (λ tx, set_tx_handlers (f (tx_handlers tx)) tx))
  end.

Definition with_onsuccess (c : closure) (hs : handlers) : handlers :=
  {| onsuccess := Some c; onerror := onerror hs; oncomplete := oncomplete hs;
     onabort := onabort hs |}.
Definition with_onerror (c : closure) (hs : handlers) : handlers :=
  {| onsuccess := onsuccess hs; onerror := Some c; oncomplete := oncomplete hs;
     onabort := onabort hs |}.
Definition with_oncomplete (c : closure) (hs : handlers) : handlers :=
  {| onsuccess := onsuccess hs; onerror := onerror hs; oncomplete := Some c;
     onabort := onabort hs |}.
Definition with_onabort (c : closure) (hs : handlers) : handlers :=
  {| onsuccess := onsuccess hs; onerror := onerror hs; oncomplete := oncomplete hs;
     onabort := Some c |}.

(** [cursor.continue()]: the cursor's request goes back to the end of its
    transaction's queue. *)
Definition cursor_continue (cursor : jsval) : js world unit := λ w,
  match cursor with
  | VCursor c =>
      match w_cursors w !! c with
      | Some cu =>
          match cu_position cu, tx_status_of <$> w_txs w !! cu_tx cu with
          | Some _, Some Active =>
              (Return tt,
               alter_tx (cu_tx cu) (set_queue (λ q, q ++ [cu_request cu]))
                 (alter_request (cu_tx cu) (cu_request cu) (set_op (op_continue c)) w))
          | None, _ => (Throw (DOMException "InvalidStateError"), w)
          | _, _ => (Throw (DOMException "TransactionInactiveError"), w)
          end
      | None => (Throw (DOMException "InvalidStateError"), w)
      end
  | _ => (Throw (DOMException "TypeError"), w)
  end.

(** The bodies of the handler functions.  [this] is the handle the
    handler was called on. *)
Definition invoke (c : closure) (this : handle) : js world unit :=
  match c with
  | promisify_resolve p => w ← get_state; resolve p (result_of this w)
  | promisify_reject p => w ← get_state; reject p (error_of this w)
  | cursor_onsuccess p callback =>
      w ← get_state;
      let cursor := result_of this w in
      if falsy cursor then resolve p VUndefined
      else modify (set_heap (callback cursor (w_cursors w))) ≫= λ _,
           cursor_continue cursor
  | reject_fn p => reject p REvent
  | walk_onsuccess callback =>
      w ← get_state;
      let cursor := result_of this w in
      if falsy cursor then mret tt
      else modify (set_heap (callback cursor (w_cursors w))) ≫= λ _,
           cursor_continue cursor
  end.

(** Aborting a transaction: it stops executing requests. *)
Definition abort (t : nat) (e : string) (w : world) : world :=
  alter_tx t (λ tx, match tx_status_of tx with
                    | Active => set_status Aborting
                                  (set_tx_error (RExn (DOMException e)) tx)
                    | _ => tx
                    end) w.

(** An event delivered to one handle: its handler for that event, when
    there is one, is called; an exception thrown by the handler aborts the
    transaction. *)
Definition fire (t : nat) (h : handle) (which : handlers → option closure)
    (w : world) : world :=
  match which (handlers_of h w) with
  | Some c =>
      match invoke c h w with
      | (Return _, w') => w'
      | (Throw _, w') => abort t "AbortError" w'
      end
  | None => w
  end.

(** An error event goes to the request and then bubbles to its
    transaction. *)
Definition fire_error (t r : nat) (w : world) : world :=
  fire t (h_transaction t) onerror (fire t (h_request t r) onerror w).

(** A failed request: the error event is delivered, and as no handler of
    the library cancels it, the transaction is aborted afterwards. *)
Definition fail_request (t r : nat) (e : string) (w : world) : world :=
  abort t e
    (fire_error t r
       (alter_request t r (set_outcome VUndefined (RExn (DOMException e))) w)).

Definition empty_store : objectStore :=
  {| os_keyPath := None; os_indexes := ∅; os_records := [] |}.

(** ** The event loop

    One step of the engine on the oldest unfinished transaction: the next
    request of its queue is executed and its event delivered, or, when the
    queue is empty, the transaction finishes.  [faults] says which request
    executions the engine fails by itself (quota, disk, ...), by their
    number, and with which [DOMException]. *)
Definition step (faults : nat → option string) (w : world) : option world :=
  match w_live w with
  | [] => None
  | t :: live' =>
      match w_txs w !! t with
      | None => Some (set_live (λ _, live') w)
      | Some tx =>
          match tx_queue tx with
          | r :: queue' =>
              let w1 := tick (alter_tx t (set_queue (λ _, queue')) w) in
              Some
                match tx_status_of tx with
                | Active =>
                    match faults (w_clock w), tx_requests tx !! r with
                    | Some e, _ => fail_request t r e w1
                    | None, None => w1
                    | None, Some rq =>
                        match execute (default empty_store (w_db w !! tx_store tx))
                                t r (rq_op rq) (tx_records tx) (w_cursors w) with
                        | (inl e, _, _) => fail_request t r e w1
                        | (inr v, rs, h) =>
                            fire t (h_request t r) onsuccess
                              (set_cursors (λ _, h)
                                 (alter_tx t (set_records rs)
                                    (alter_request t r (set_outcome v RNull) w1)))
                        end
                    end
                | _ =>
                    fire_error t r
                      (alter_request t r
                         (set_outcome VUndefined (RExn (DOMException "AbortError"))) w1)
                end
          | [] =>
              let w1 := set_live (λ _, live') w in
              Some
                match tx_status_of tx with
                | Active =>
                    fire t (h_transaction t) oncomplete
                      (alter_tx t (set_status Committed)
                         (set_db (alter (with_records (tx_records tx)) (tx_store tx)) w1))
                | Aborting =>
                    fire t (h_transaction t) onabort (alter_tx t (set_status Aborted) w1)
                | _ => w1
                end
          end
      end
  end.

(** [n] steps of the event loop, fewer when it runs out of work. *)
Fixpoint run (faults : nat → option string) (n : nat) (w : world) : world :=
  match n with
  | O => w
  | S n' =>
      match step faults w with
      | Some w' => run faults n' w'
      | None => w
      end
  end.

Definition quiescent (w : world) : Prop := w_live w = [].

Definition no_faults : nat → option string := λ _, None.

(** ** The engine's interface to scripts *)

(** An open connection, the result of [indexedDB.open]. *)
Inductive connection :=
| Connection (name : string) (version : Z).

(** [IDBObjectStore] and [IDBIndex] handles inside a transaction. *)
Record IDBObjectStore := {
  transaction_of : nat;
}.

Record IDBIndex := {
  ix_store : IDBObjectStore;
  ix_name : string;
}.

Definition new_transaction (name : string) (m : mode) (os : objectStore) : transaction :=
  {| tx_store := name; tx_mode := m; tx_requests := []; tx_queue := [];
     tx_handlers := no_handlers; tx_error := RNull; tx_status_of := Active;
     tx_records := os_records os |}.

(** [db.transaction(name, mode)] *)
Definition db_transaction (db : connection) (name : string) (m : mode) : js world nat := λ w,
  match w_db w !! name with
  | None => (Throw (DOMException "NotFoundError"), w)
  | Some os =>
      (Return (length (w_txs w)),
       set_live (λ l, l ++ [length (w_txs w)])
         (set_txs (λ txs, txs ++ [new_transaction name m os]) w))
  end.

(** [transaction.objectStore(name)] *)
Definition tx_objectStore (t : nat) (name : string) : js world IDBObjectStore := λ w,
  match w_txs w !! t with
  | Some tx =>
      if decide (tx_store tx = name) then (Return {| transaction_of := t |}, w)
      else (Throw (DOMException "NotFoundError"), w)
  | None => (Throw (DOMException "InvalidStateError"), w)
  end.

(** [store.index(indexName)] *)
Definition IDBObjectStore_index (s : IDBObjectStore) (indexName : string)
  : js world IDBIndex := λ w,
  match w_txs w !! transaction_of s ≫= λ tx, w_db w !! tx_store tx with
  | Some os =>
      match os_indexes os !! indexName with
      | Some _ => (Return {| ix_store := s; ix_name := indexName |}, w)
      | None => (Throw (DOMException "NotFoundError"), w)
      end
  | None => (Throw (DOMException "InvalidStateError"), w)
  end.

Definition new_request (op : operation) : request :=
  {| rq_op := op; rq_handlers := no_handlers; rq_result := VUndefined;
     rq_error := RNull |}.

(** A request placed on an active transaction. *)
Definition place (t : nat) (op : operation) : js world handle := λ w,
  match w_txs w !! t with
  | Some tx =>
      match tx_status_of tx with
      | Active =>
          (Return (h_request t (length (tx_requests tx))),
           alter_tx t (λ tx, set_queue (λ q, q ++ [length (tx_requests tx)])
                               (set_requests (λ rs, rs ++ [new_request op]) tx)) w)
      | _ => (Throw (DOMException "TransactionInactiveError"), w)
      end
  | None => (Throw (DOMException "TransactionInactiveError"), w)
  end.

Definition writable (s : IDBObjectStore) : js world unit := λ w,
  match tx_mode <$> w_txs w !! transaction_of s with
  | Some readwrite => (Return tt, w)
  | _ => (Throw (DOMException "ReadOnlyError"), w)
  end.

(** [store.get(key)] *)
Definition IDBObjectStore_get (s : IDBObjectStore) (k : key) : js world handle :=
  place (transaction_of s) (op_get FromStore k).

(** [index.get(value)] *)
Definition IDBIndex_get (i : IDBIndex) (v : jsval) : js world handle :=
  match to_key v with
  | Some k => place (transaction_of (ix_store i)) (op_get (FromIndex (ix_name i)) k)
  | None => throw (DOMException "DataError")
  end.

(** [store.put(value, key)].  With a key path the key is read from the
    value and no key may be passed; without one the key must be passed.
    The value is stored as it is: the copy the engine makes of it is not
    modelled. *)
Definition IDBObjectStore_put (s : IDBObjectStore) (v : jsval) (k : option key)
  : js world handle :=
  writable s ≫= λ _,
  w ← get_state;
  match w_txs w !! transaction_of s ≫= λ tx, w_db w !! tx_store tx with
  | None => throw (DOMException "InvalidStateError")
  | Some os =>
      match os_keyPath os, k with
      | Some _, Some _ => throw (DOMException "DataError")
      | Some path, None =>
          match key_at path v with
          | Some k' => place (transaction_of s) (op_put k' v)
          | None => throw (DOMException "DataError")
          end
      | None, Some k' => place (transaction_of s) (op_put k' v)
      | None, None => throw (DOMException "DataError")
      end
  end.

(** [store.delete(key)] *)
Definition IDBObjectStore_delete (s : IDBObjectStore) (k : key) : js world handle :=
  writable s ≫= λ _, place (transaction_of s) (op_delete k).

(** [store.clear()] *)
Definition IDBObjectStore_clear (s : IDBObjectStore) : js world handle :=
  writable s ≫= λ _, place (transaction_of s) op_clear.

(** [store.openCursor(range)] *)
Definition IDBObjectStore_openCursor (s : IDBObjectStore) (range : option IDBKeyRange)
  : js world handle :=
  place (transaction_of s) (op_openCursor FromStore range).

(** [index.openCursor(range)] *)
Definition IDBIndex_openCursor (i : IDBIndex) (range : option IDBKeyRange)
  : js world handle :=
  place (transaction_of (ix_store i)) (op_openCursor (FromIndex (ix_name i)) range).

(** ** Schema changes inside an upgrade transaction *)

(** [Parameters<IDBObjectStore['createIndex']>]: name, key path, options. *)
Record index_args := {
  ia_name : string;
  ia_keyPath : string;
  ia_unique : bool;
}.

(** [IDBStoreOptions] *)
Record IDBStoreOptions := {
  keyPath : option string;
  indexes : option (list index_args);
}.

(** [db.objectStoreNames.contains(name)] *)
Definition objectStoreNames_contains (name : string) : js database bool :=
  db ← get_state; mret (bool_decide (is_Some (db !! name))).

(** [db.createObjectStore(name, options)]: the new store takes the key
    path of [options] when options are passed. *)
Definition createObjectStore (name : string) (opts : option IDBStoreOptions)
  : js database string :=
  db ← get_state;
  match db !! name with
  | Some _ => throw (DOMException "ConstraintError")
  | None =>
      put_state (<[name := {| os_keyPath := opts ≫= keyPath;
                              os_indexes := ∅;
                              os_records := [] |}]> db) ≫= λ _,
      mret name
  end.

(** [upgradeTransaction.objectStore(name)] *)
Definition upgrade_objectStore (name : string) : js database string :=
  db ← get_state;
  match db !! name with
  | Some _ => mret name
  | None => throw (DOMException "NotFoundError")
  end.

(** [store.indexNames.contains(indexName)] *)
Definition indexNames_contains (store indexName : string) : js database bool :=
  db ← get_state;
  mret (match db !! store with
        | Some os => bool_decide (is_Some (os_indexes os !! indexName))
        | None => false
        end).

(** [store.createIndex(name, keyPath, options)].  The key path is taken
    to be well-formed; whether the records of the store fit a unique
    index is found out when the upgrade is committed, see
    [upgrade_fails]. *)
Definition createIndex (store : string) (a : index_args) : js database unit :=
  db ← get_state;
  match db !! store with
  | None => throw (DOMException "InvalidStateError")
  | Some os =>
      match os_indexes os !! ia_name a with
      | Some _ => throw (DOMException "ConstraintError")
      | None =>
          put_state (<[store := with_index (ia_name a)
                                  {| ix_keyPath := ia_keyPath a;
                                     ix_unique := ia_unique a |} os]> db)
      end
  end.

(** The highest version a database can be opened at, [2^53 - 1]. *)
Definition max_version : Z := 2 ^ 53 - 1.

(** Two records have the same key in a unique index. *)
Definition breaks_unique (ix : index) (rs : list (key * jsval)) : bool :=
  ix_unique ix && existsb (λ r, clashes (ix_keyPath ix) r.1 r.2 rs) rs.

(** Index [i] of store [n] is not in [db]. *)
Definition created (db : database) (n i : string) : bool :=
  match db !! n ≫= λ os, os_indexes os !! i with
  | Some _ => false
  | None => true
  end.

(** The engine fills an index when it is created.  An upgrade from [db]
    to [db'] cannot be committed when it created a unique index in which
    two records of the store have the same key. *)
Definition upgrade_fails (db db' : database) : bool :=
  existsb (λ s, existsb (λ ni, created db s.1 ni.1 && breaks_unique ni.2 (os_records s.2))
                  (map_to_list (os_indexes s.2)))
          (map_to_list db').

(** [indexedDB.open(dbName, version)] with its [onupgradeneeded] handler,
    taken to the point where the open request has succeeded or failed.
    A version that is not in [1 .. 2^53 - 1] is a [TypeError].  The
    handler runs only when the requested version is above the stored
    one; if it throws, or if the upgrade transaction cannot be committed,
    the transaction is aborted and the database stays as it was, version
    included. *)
Definition indexedDB_open (dbName : string) (version : Z)
    (onupgradeneeded : js database unit) : js world connection := λ w,
  if decide (version ≤ 0 ∨ max_version < version)%Z then (Throw (Error "TypeError"), w)
  else if decide (version < w_version w)%Z then (Throw (DOMException "VersionError"), w)
  else if decide (w_version w < version)%Z then
    match onupgradeneeded (w_db w) with
    | (Return _, db') =>
        if upgrade_fails (w_db w) db' then (Throw (DOMException "AbortError"), w)
        else (Return (Connection dbName version),
              set_version version (set_db (λ _, db') w))
    | (Throw _, _) => (Throw (DOMException "AbortError"), w)
    end
  else (Return (Connection dbName version), w).

(** ** The library: [promisify] *)

(** [promisify(request)]: one promise for a request or a transaction.
    The same resolving function is installed for [complete] and
    [success], the same rejecting function for [abort] and [error]. *)
Definition promisify (request : handle) : js world nat :=
  new_Promise (λ p,
    set_handlers request (with_onsuccess (promisify_resolve p)) ≫= λ _,
    set_handlers request (with_oncomplete (promisify_resolve p)) ≫= λ _,
    set_handlers request (with_onerror (promisify_reject p)) ≫= λ _,
    set_handlers request (with_onabort (promisify_reject p))).

(** ** The library: [IDBStore] *)

(** The private fields [store] and [storeIndex] hold a function: the one
    they are initialised with, which throws, or the one [register] builds
    around a connection. *)
Inductive opener :=
| not_initialized
| registered (db : connection).

Record IDBStore := {
  name : string;
  options : IDBStoreOptions;
  store_field : opener;
  storeIndex_field : opener;
}.

(** [new IDBStore(name, options)] *)
Definition new_IDBStore (name : string) (options : IDBStoreOptions) : IDBStore :=
  {| name := name; options := options;
     store_field := not_initialized; storeIndex_field := not_initialized |}.

(** [this.store(mode, callback)] *)
Definition store {T} (this : IDBStore) (m : mode)
    (callback : IDBObjectStore → js world T) : js world T :=
  match store_field this with
  | not_initialized =>
      throw (Error ("IDBStore " +:+ name this +:+ " is not initialized"))
  | registered db =>
      t ← db_transaction db (name this) m;
      s ← tx_objectStore t (name this);
      callback s
  end.

(** [this.storeIndex(mode, indexName, callback)]; the registered function
    goes through the registered [store] function of the same call to
    [register]. *)
Definition storeIndex {T} (this : IDBStore) (m : mode) (indexName : string)
    (callback : IDBIndex → js world T) : js world T :=
  match storeIndex_field this with
  | not_initialized =>
      throw (Error ("IDBStoreIndex " +:+ name this +:+ " is not initialized"))
  | registered db =>
      t ← db_transaction db (name this) m;
      s ← tx_objectStore t (name this);
      i ← IDBObjectStore_index s indexName;
      callback i
  end.

(** [upgrade(request)], on the database of the upgrade transaction. *)
Definition upgrade (this : IDBStore) : js database unit :=
  present ← objectStoreNames_contains (name this);
  store ← (if negb present then createObjectStore (name this) None
           else upgrade_objectStore (name this));
  match indexes (options this) with
  | Some ixs =>
      for_each (λ index,
                  has ← indexNames_contains store (ia_name index);
                  if negb has then createIndex store index else mret tt) ixs
  | None => mret tt
  end.

(** [register(db)] *)
Definition register (db : connection) (this : IDBStore) : IDBStore :=
  {| name := name this; options := options this;
     store_field := registered db; storeIndex_field := registered db |}.

Definition get (this : IDBStore) (key : key) : js world nat :=
  store this readonly (λ store, IDBObjectStore_get store key ≫= promisify).

Definition getByIndex (this : IDBStore) (indexName : string) (indexValue : jsval)
  : js world nat :=
  storeIndex this readonly indexName (λ index, IDBIndex_get index indexValue ≫= promisify).

Definition set (this : IDBStore) (value : jsval) (key : option key) : js world nat :=
  store this readwrite (λ store,
    IDBObjectStore_put store value key ≫= λ _,
    promisify (h_transaction (transaction_of store))).

Definition getMany (this : IDBStore) (keys : list key) : js world nat :=
  store this readonly (λ store,
    map_js (λ key, IDBObjectStore_get store key ≫= promisify) keys ≫= Promise_all).

Definition setMany (this : IDBStore) (values : list jsval) : js world nat :=
  store this readwrite (λ store,
    for_each (λ entry, IDBObjectStore_put store entry None ≫= λ _, mret tt) values ≫= λ _,
    promisify (h_transaction (transaction_of store))).

Definition update (this : IDBStore) (value : jsval) : js world nat :=
  store this readwrite (λ store,
    IDBObjectStore_put store value None ≫= λ _,
    promisify (h_transaction (transaction_of store))).

Definition del (this : IDBStore) (key : key) : js world nat :=
  store this readwrite (λ store,
    IDBObjectStore_delete store key ≫= λ _,
    promisify (h_transaction (transaction_of store))).

Definition clear (this : IDBStore) : js world nat :=
  store this readwrite (λ store,
    IDBObjectStore_clear store ≫= λ _,
    promisify (h_transaction (transaction_of store))).

Definition cursor (this : IDBStore) (callback : visitor)
    (keyRangeValue : option IDBKeyRange) : js world nat :=
  store this readonly (λ store,
    new_Promise (λ p,
      request ← IDBObjectStore_openCursor store keyRangeValue;
      set_handlers request (with_onsuccess (cursor_onsuccess p callback)) ≫= λ _,
      set_handlers request (with_onerror (reject_fn p)))).

Definition cursorIndex (this : IDBStore) (indexName : string) (callback : visitor)
    (keyRangeValue : option IDBKeyRange) : js world nat :=
  storeIndex this readonly indexName (λ index,
    new_Promise (λ p,
      request ← IDBIndex_openCursor index keyRangeValue;
      set_handlers request (with_onsuccess (cursor_onsuccess p callback)) ≫= λ _,
      set_handlers request (with_onerror (reject_fn p)))).

(** [const items = []] *)
Definition new_array : js world nat := λ w,
  (Return (length (w_heap w)), set_heap (λ h, h ++ [[]]) w).

(** [cursor => items.push(cursor.value)] *)
Definition push_value (items : nat) : visitor :=
  λ cursor cs h, array_push items (cursor_value cs cursor) h.

(** An [async] function whose body is [await walk; return result]: its
    promise is rejected when the call of [walk] throws or its promise is
    rejected, and fulfilled with [result] once that promise is. *)
Definition async_await (walk : js world nat) (result : jsval) : js world nat := λ w,
  let q := length (w_promises w) in
  let w1 := set_promises (λ ps, ps ++ [new_cell []]) w in
  match walk w1 with
  | (Return p, w2) => (Return q, (subscribe p (async_return q result) w2).2)
  | (Throw e, w2) => (Return q, settle q (Rejected (RExn e)) w2)
  end.

Definition getAll (this : IDBStore) (keyRangeValue : option IDBKeyRange) : js world nat :=
  items ← new_array;
  async_await (cursor this (push_value items) keyRangeValue) (VRef items).

Definition getAllByIndex (this : IDBStore) (indexName : string)
    (keyRangeValue : option IDBKeyRange) : js world nat :=
  items ← new_array;
  async_await (cursorIndex this indexName (push_value items) keyRangeValue) (VRef items).

(** ** The earlier version of the library

    [src/index.ts] keeps the connection in a promise, [promisedIDB], and
    its [store] runs the callback in a reaction of that promise; the
    promise [store] returns is resolved with what the callback returns.
    The connection is taken as open here, and the reaction as run at
    once: reactions run before the engine delivers its next event. *)
Module Legacy.
Definition store (db : connection) (storeName : string) (m : mode)
    (callback : IDBObjectStore → js world unit) : js world nat :=
  new_Promise (λ p,
    t ← db_transaction db storeName m;
    s ← tx_objectStore t storeName;
    callback s ≫= λ _, resolve p VUndefined).

(** [cursor(callback, keyRangeValue)]: the callback given to [store]
    installs the handler and returns nothing. *)
Definition cursor (db : connection) (storeName : string) (callback : visitor)
    (keyRangeValue : option IDBKeyRange) : js world nat :=
  store db storeName readonly (λ store,
    request ← IDBObjectStore_openCursor store keyRangeValue;
    set_handlers request (with_onsuccess (walk_onsuccess callback))).

(** [cursor => items.push(cursor)] *)
Definition push_cursor (items : nat) : visitor :=
  λ cursor cs h, array_push items cursor h.

(** [promise.then(() => result)] *)
Definition then_return (p : nat) (result : jsval) : js world nat := λ w,
  let q := length (w_promises w) in
  (Return q,
   (subscribe p (async_return q result)
      (set_promises (λ ps, ps ++ [new_cell []]) w)).2).

(** [getAll(keyRangeValue)] *)
Definition getAll (db : connection) (storeName : string)
    (keyRangeValue : option IDBKeyRange) : js world nat :=
  items ← new_array;
  p ← cursor db storeName (push_cursor items) keyRangeValue;
  then_return p (VRef items).
End Legacy.

(** The public operations of a store handle, as data. *)
Inductive call :=
| call_get (key : key)
| call_getByIndex (indexName : string) (indexValue : jsval)
| call_set (value : jsval) (key : option key)
| call_getMany (keys : list key)
| call_setMany (values : list jsval)
| call_update (value : jsval)
| call_del (key : key)
| call_clear
| call_cursor (callback : visitor) (keyRangeValue : option IDBKeyRange)
| call_cursorIndex (indexName : string) (callback : visitor)
    (keyRangeValue : option IDBKeyRange)
| call_getAll (keyRangeValue : option IDBKeyRange)
| call_getAllByIndex (indexName : string) (keyRangeValue : option IDBKeyRange).

Definition perform (this : IDBStore) (c : call) : js world nat :=
  match c with
  | call_get key => get this key
  | call_getByIndex indexName indexValue => getByIndex this indexName indexValue
  | call_set value key => set this value key
  | call_getMany keys => getMany this keys
  | call_setMany values => setMany this values
  | call_update value => update this value
  | call_del key => del this key
  | call_clear => clear this
  | call_cursor callback range => cursor this callback range
  | call_cursorIndex indexName callback range => cursorIndex this indexName callback range
  | call_getAll range => getAll this range
  | call_getAllByIndex indexName range => getAllByIndex this indexName range
  end.

Definition is_write (c : call) : bool :=
  match c with
  | call_set _ _ | call_setMany _ | call_update _ | call_del _ | call_clear => true
  | _ => false
  end.

(** The mode each operation asks for. *)
Definition mode_of (c : call) : mode :=
  if is_write c then readwrite else readonly.

(** ** The library: [IDBDatabase] *)

Record IDBDatabase := {
  dbName : string;
  version : Z;
  stores : list (string * IDBStore);
}.

(** [Object.keys(obj)] and [obj[key]] on an object given by its
    properties in insertion order. *)
Definition Object_keys {T} (obj : list (string * T)) : list string := obj.*1.

Fixpoint property {T} (obj : list (string * T)) (key : string) : option T :=
  match obj with
  | [] => None
  | (k, v) :: rest => if decide (key = k) then Some v else property rest key
  end.

(** [iterate(obj, cb)] *)
Definition iterate {S T} (obj : list (string * T)) (cb : string → T → js S unit)
  : js S unit :=
  for_each (λ key, match property obj key with
                   | Some v => cb key v
                   | None => mret tt
                   end) (Object_keys obj).

(** [init()]: returns the handle with its stores registered, or throws
    what the promise of the open request is rejected with. *)
Definition init (this : IDBDatabase) : js world IDBDatabase :=
  db ← indexedDB_open (dbName this) (version this)
         (iterate (stores this) (λ _ store, upgrade store));
  mret {| dbName := dbName this; version := version this;
          stores := prod_map id (register db) <$> stores this |}.

(** ** Definitions used to state the properties *)

(** The store after [createIndex] was asked for [a] unless an index of
    that name was there. *)
Definition add_index (os : objectStore) (a : index_args) : objectStore :=
  match os_indexes os !! ia_name a with
  | Some _ => os
  | None => with_index (ia_name a)
              {| ix_keyPath := ia_keyPath a; ix_unique := ia_unique a |} os
  end.

Definition declared_indexes (this : IDBStore) : list index_args :=
  default [] (indexes (options this)).

(** The database after the migration step of one store descriptor. *)
Definition upgraded (this : IDBStore) (db : database) : database :=
  <[name this := foldl add_index (default empty_store (db !! name this))
                   (declared_indexes this)]> db.

(** The store of a descriptor and all its declared indexes exist. *)
Definition satisfied (this : IDBStore) (db : database) : Prop :=
  ∃ os, db !! name this = Some os ∧
        ∀ a, a ∈ declared_indexes this → is_Some (os_indexes os !! ia_name a).

(** [db'] has every store and every index of [db]. *)
Definition extends (db db' : database) : Prop :=
  ∀ n os, db !! n = Some os →
    ∃ os', db' !! n = Some os' ∧
           ∀ i, is_Some (os_indexes os !! i) → is_Some (os_indexes os' !! i).

(** The Schema Migrator: the body of the [onupgradeneeded] handler. *)
Definition migrate (stores : list (string * IDBStore)) : js database unit :=
  iterate stores (λ _ store, upgrade store).

(** The four events of the engine that a handle can receive. *)
Inductive signal := sig_success | sig_error | sig_complete | sig_abort.

Definition slot (s : signal) : handlers → option closure :=
  match s with
  | sig_success => onsuccess
  | sig_error => onerror
  | sig_complete => oncomplete
  | sig_abort => onabort
  end.

Definition tx_of (h : handle) : nat :=
  match h with
  | h_request t _ => t
  | h_transaction t => t
  end.

(** Event [s] arrives at handle [h]. *)
Definition deliver (s : signal) (h : handle) (w : world) : world :=
  fire (tx_of h) h (slot s) w.

Definition handle_exists (h : handle) (w : world) : Prop :=
  match h with
  | h_request t r => is_Some (request_of t r w)
  | h_transaction t => is_Some (w_txs w !! t)
  end.

(** What a world consists of besides its promises. *)
Definition engine_part (w : world) :=
  (w_version w, w_db w, w_txs w, w_live w, w_cursors w, w_heap w, w_clock w).

(** The handlers [promisify] installs for promise [p]. *)
Definition promisified (p : nat) : handlers :=
  {| onsuccess := Some (promisify_resolve p); onerror := Some (promisify_reject p);
     oncomplete := Some (promisify_resolve p); onabort := Some (promisify_reject p) |}.

(** The world right after a call that opened transaction [tx] and
    created the promises [cells]. *)
Definition after_call (w : world) (tx : transaction) (cells : list promise) : world :=
  {| w_version := w_version w; w_db := w_db w;
     w_txs := w_txs w ++ [tx]; w_live := w_live w ++ [length (w_txs w)];
     w_cursors := w_cursors w; w_promises := w_promises w ++ cells;
     w_heap := w_heap w; w_clock := w_clock w |}.

(** A request as the library leaves it once [promisify] was called on
    it. *)
Definition promisified_request (op : operation) (p : nat) : request :=
  {| rq_op := op; rq_handlers := promisified p; rq_result := VUndefined;
     rq_error := RNull |}.

(** The transaction of a write operation when the call returns: the
    requests [ops] without handlers, all in the queue, and the
    transaction itself bound to promise [p]. *)
Definition write_transaction (nm : string) (os : objectStore) (ops : list operation)
    (p : nat) : transaction :=
  {| tx_store := nm; tx_mode := readwrite;
     tx_requests := new_request <$> ops; tx_queue := seq 0 (length ops);
     tx_handlers := promisified p; tx_error := RNull; tx_status_of := Active;
     tx_records := os_records os |}.

(** The transaction of a read of some keys: one request per key, each
    bound to its own promise, counted from [p0]. *)
Definition read_transaction (nm : string) (os : objectStore) (keys : list key)
    (p0 : nat) : transaction :=
  {| tx_store := nm; tx_mode := readonly;
     tx_requests := imap (λ i k, promisified_request (op_get FromStore k) (p0 + i)) keys;
     tx_queue := seq 0 (length keys);
     tx_handlers := no_handlers; tx_error := RNull; tx_status_of := Active;
     tx_records := os_records os |}.

(** What a write request does to the records when it succeeds. *)
Definition effect (rs : list (key * jsval)) (op : operation) : list (key * jsval) :=
  match op with
  | op_put k v => records_put k v rs
  | op_delete k => records_delete k rs
  | op_clear => []
  | _ => rs
  end.

Definition write_op (op : operation) : Prop :=
  match op with
  | op_put _ _ | op_delete _ | op_clear => True
  | _ => False
  end.

(** Requests nobody listens to. *)
Definition quiet (rqs : list request) : Prop :=
  Forall (λ rq, rq_handlers rq = no_handlers) rqs.

(** The world while the transaction of one call is the only unfinished
    one: to the world [w] the call was made in, the transaction [tx] and
    the promises [cells] of the call have been added; the rest is what
    the engine and the handlers have made of it since. *)
Definition shape (w : world) (tx : transaction) (cells : list promise)
    (db : database) (live : list nat) (cs : list cursor_object) (h : heap)
    (clk : nat) : world :=
  {| w_version := w_version w; w_db := db; w_txs := w_txs w ++ [tx];
     w_live := live; w_cursors := cs;
     w_promises := w_promises w ++ cells; w_heap := h; w_clock := clk |}.

(** The same for a write: cursors and heap stay as they were. *)
Definition write_world (w : world) (tx : transaction) (cell : promise)
    (db : database) (live : list nat) (clk : nat) : world :=
  shape w tx [cell] db live (w_cursors w) (w_heap w) clk.

Definition write_tx (nm : string) (rqs : list request) (q : list nat) (err : reason)
    (st : tx_status) (rs : list (key * jsval)) (p : nat) : transaction :=
  {| tx_store := nm; tx_mode := readwrite; tx_requests := rqs; tx_queue := q;
     tx_handlers := promisified p; tx_error := err; tx_status_of := st;
     tx_records := rs |}.

Definition settled_cell (s : settlement) : promise :=
  {| p_state := s; p_reactions := []; p_values := []; p_remaining := 0 |}.

(** The four phases of the transaction of a write operation placed in
    the quiescent world [w] on store [nm], with requests [ops]. *)
Inductive write_phase (w : world) (nm : string) (os : objectStore)
    (ops : list operation) : world → Prop :=
| wp_running i rqs clk :
    (i ≤ length ops)%nat → rq_op <$> rqs = ops → quiet rqs →
    write_phase w nm os ops
      (write_world w
         (write_tx nm rqs (seq i (length ops - i)) RNull Active
            (foldl effect (os_records os) (take i ops)) (length (w_promises w)))
         (settled_cell Pending) (w_db w) [length (w_txs w)] clk)
| wp_failing rqs q e rs r clk :
    quiet rqs →
    write_phase w nm os ops
      (write_world w
         (write_tx nm rqs q (RExn (DOMException e)) Aborting rs (length (w_promises w)))
         (settled_cell (Rejected r)) (w_db w) [length (w_txs w)] clk)
| wp_committed rqs clk :
    write_phase w nm os ops
      (write_world w
         (write_tx nm rqs [] RNull Committed
            (foldl effect (os_records os) ops) (length (w_promises w)))
         (settled_cell (Fulfilled VUndefined))
         (alter (with_records (foldl effect (os_records os) ops)) nm (w_db w))
         [] clk)
| wp_aborted rqs e rs r clk :
    write_phase w nm os ops
      (write_world w
         (write_tx nm rqs [] (RExn (DOMException e)) Aborted rs (length (w_promises w)))
         (settled_cell (Rejected r)) (w_db w) [] clk).

(** The transaction of a write operation while the call is still placing
    requests: nothing listens to it yet. *)
Definition open_tx (nm : string) (os : objectStore) (ops : list operation) : transaction :=
  {| tx_store := nm; tx_mode := readwrite;
     tx_requests := new_request <$> ops; tx_queue := seq 0 (length ops);
     tx_handlers := no_handlers; tx_error := RNull; tx_status_of := Active;
     tx_records := os_records os |}.

(** The key [put(value, key)] stores under, when it accepts the call. *)
Definition resolve_key (os : objectStore) (v : jsval) (k : option key) : option key :=
  match os_keyPath os, k with
  | Some _, Some _ => None
  | Some path, None => key_at path v
  | None, Some k' => Some k'
  | None, None => None
  end.

(** The requests [setMany] places: one [put] per value, up to the first
    value [put] refuses. *)
Fixpoint accepted (os : objectStore) (values : list jsval) : list operation :=
  match values with
  | [] => []
  | v :: rest =>
      match resolve_key os v None with
      | Some k => op_put k v :: accepted os rest
      | None => []
      end
  end.

Definition all_keyed (os : objectStore) (values : list jsval) : Prop :=
  Forall (λ v, is_Some (resolve_key os v None)) values.

(** A read transaction with a single request. *)
Definition single_request_tx (nm : string) (os : objectStore) (rq : request) : transaction :=
  {| tx_store := nm; tx_mode := readonly; tx_requests := [rq]; tx_queue := [0%nat];
     tx_handlers := no_handlers; tx_error := RNull; tx_status_of := Active;
     tx_records := os_records os |}.

(** The request of a cursor walk bound to promise [p], as [cursor] and
    [cursorIndex] leave it. *)
Definition cursor_handlers (p : nat) (callback : visitor) : handlers :=
  {| onsuccess := Some (cursor_onsuccess p callback); onerror := Some (reject_fn p);
     oncomplete := None; onabort := None |}.

Definition cursor_request (op : operation) (p : nat) (callback : visitor) : request :=
  {| rq_op := op; rq_handlers := cursor_handlers p callback;
     rq_result := VUndefined; rq_error := RNull |}.

(** The promise of an [async] function waits on the promise of the
    walk. *)
Definition awaited_cell (q : nat) (result : jsval) : promise :=
  {| p_state := Pending; p_reactions := [async_return q result]; p_values := [];
     p_remaining := 0 |}.

(** The promises of [getMany] when the call returns: one per key, each
    feeding its slot of the [Promise.all], and the [Promise.all] itself,
    which is the last one and is fulfilled at once when there is no key. *)
Definition waiting_cell (q i : nat) : promise :=
  {| p_state := Pending; p_reactions := [all_element q i]; p_values := [];
     p_remaining := 0 |}.

Definition all_cell (n : nat) : promise :=
  match n with
  | O => settled_cell (Fulfilled (VArr []))
  | S _ => new_cell (replicate n VUndefined)
  end.

Definition getMany_cells (p0 n : nat) : list promise :=
  (waiting_cell (p0 + n) <$> seq 0 n) ++ [all_cell n].

(** [store.get(key)] as the engine answers it. *)
Definition stored (rs : list (key * jsval)) (k : key) : jsval :=
  from_option id VUndefined (records_get k rs).

(** The transaction and the promises of [getMany] after the first [i]
    requests have succeeded. *)
Definition read_tx_at (nm : string) (os : objectStore) (keys : list key) (p0 i : nat)
  : transaction :=
  {| tx_store := nm; tx_mode := readonly;
     tx_requests :=
       imap (λ j k, {| rq_op := op_get FromStore k; rq_handlers := promisified (p0 + j);
                       rq_result := if decide (j < i)%nat then stored (os_records os) k
                                    else VUndefined;
                       rq_error := RNull |}) keys;
     tx_queue := seq i (length keys - i);
     tx_handlers := no_handlers; tx_error := RNull; tx_status_of := Active;
     tx_records := os_records os |}.

Definition element_cell_at (os : objectStore) (q i j : nat) (k : key) : promise :=
  {| p_state := if decide (j < i)%nat then Fulfilled (stored (os_records os) k) else Pending;
     p_reactions := [all_element q j]; p_values := []; p_remaining := 0 |}.

Definition all_cell_at (os : objectStore) (keys : list key) (i : nat) : promise :=
  {| p_state := if decide (i = length keys) then Fulfilled (VArr (stored (os_records os) <$> keys))
                else Pending;
     p_reactions := [];
     p_values := (stored (os_records os) <$> take i keys)
                 ++ replicate (length keys - i) VUndefined;
     p_remaining := length keys - i |}.

Definition read_cells_at (os : objectStore) (keys : list key) (p0 i : nat) : list promise :=
  imap (element_cell_at os (p0 + length keys) i) keys ++ [all_cell_at os keys i].

(** A transaction that has only read so far: its copy of the records is
    the store's, and none of its requests writes. *)
Definition reading (d : database) (tx : transaction) : Prop :=
  ∃ os, d !! tx_store tx = Some os ∧ tx_records tx = os_records os
        ∧ Forall (λ rq, ¬ write_op (rq_op rq)) (tx_requests tx).

(** The database is [d] and every unfinished transaction is reading. *)
Definition only_reading (d : database) (w : world) : Prop :=
  w_db w = d ∧ ∀ t tx, t ∈ w_live w → w_txs w !! t = Some tx → reading d tx.

(** No request of [ops], executed in order on the records [rs], breaks a
    unique index of the store. *)
Fixpoint admissible (os : objectStore) (rs : list (key * jsval)) (ops : list operation)
  : Prop :=
  match ops with
  | [] => True
  | op :: rest =>
      match op with
      | op_put k v => violates_unique os k v rs = false
      | _ => True
      end ∧ admissible os (effect rs op) rest
  end.

(** How a call fails at once: it throws, or the promise it returns is
    already rejected (an [async] method never throws). *)
Definition failure (r : completion nat * world) : option reason :=
  match r.1 with
  | Throw e => Some (RExn e)
  | Return p =>
      match state_of p r.2 with
      | Rejected e => Some e
      | _ => None
      end
  end.

(** The operations that go through [storeIndex]. *)
Definition uses_index (c : call) : bool :=
  match c with
  | call_getByIndex _ _ | call_cursorIndex _ _ _ | call_getAllByIndex _ _ => true
  | _ => false
  end.

(** The message of the error the private fields throw before
    [register]. *)
Definition not_initialized_message (c : call) (storeName : string) : string :=
  (if uses_index c then "IDBStoreIndex " else "IDBStore ")
  +:+ storeName +:+ " is not initialized".

(** ** A cursor walk *)

(** The cursor object of the walk of transaction [t], on entry [e] or
    past the last one. *)
Definition cursor_at (t : nat) (src : source) (range : option IDBKeyRange)
    (e : option entry) : cursor_object :=
  {| cu_tx := t; cu_request := 0; cu_source := src; cu_range := range;
     cu_position := position <$> e; cu_value := from_option e_value VUndefined e |}.

(** The transaction of a walk: its single request, with the operation it
    carries at the moment and its last result. *)
Definition walk_request (op : operation) (hs : handlers) (result : jsval) : request :=
  {| rq_op := op; rq_handlers := hs; rq_result := result; rq_error := RNull |}.

Definition walk_tx (nm : string) (os : objectStore) (rq : request) (q : list nat)
  : transaction :=
  {| tx_store := nm; tx_mode := readonly; tx_requests := [rq]; tx_queue := q;
     tx_handlers := no_handlers; tx_error := RNull; tx_status_of := Active;
     tx_records := os_records os |}.

(** One call of the visitor: on the cursor, which is the object after
    the cursor objects [cs0], positioned on [e]. *)
Definition visit (cb : visitor) (cs0 : list cursor_object) (t : nat) (src : source)
    (range : option IDBKeyRange) (h : heap) (e : entry) : heap :=
  cb (VCursor (length cs0)) (cs0 ++ [cursor_at t src range (Some e)]) h.

(** The entries a walk meets. *)
Definition visited (os : objectStore) (src : source) (range : option IDBKeyRange)
  : list entry :=
  ahead range None (view_of os src (os_records os)).

(** The world of a walk that has been opened and not stepped yet, the
    world while its cursor is on [e] and [continue] has been called, and
    the world once the cursor has found no further entry, before the
    promise of the walk is settled.  The promise of the walk is the
    [j]-th of [cells]. *)
Definition walk_opened (w : world) (nm : string) (os : objectStore) (src : source)
    (range : option IDBKeyRange) (cb : visitor) (cells : list promise) (j : nat)
    (cs0 : list cursor_object) (h : heap) (clk : nat) : world :=
  shape w
    (walk_tx nm os
       (walk_request (op_openCursor src range)
          (cursor_handlers (length (w_promises w) + j) cb) VUndefined) [0%nat])
    cells (w_db w) [length (w_txs w)] cs0 h clk.

Definition walk_on (w : world) (nm : string) (os : objectStore) (src : source)
    (range : option IDBKeyRange) (cb : visitor) (cells : list promise) (j : nat)
    (cs0 : list cursor_object) (e : entry) (h : heap) (clk : nat) : world :=
  shape w
    (walk_tx nm os
       (walk_request (op_continue (length cs0))
          (cursor_handlers (length (w_promises w) + j) cb) (VCursor (length cs0)))
       [0%nat])
    cells (w_db w) [length (w_txs w)]
    (cs0 ++ [cursor_at (length (w_txs w)) src range (Some e)]) h clk.

Definition walk_ended (w : world) (nm : string) (os : objectStore) (src : source)
    (range : option IDBKeyRange) (cb : visitor) (cells : list promise) (j : nat)
    (cs0 : list cursor_object) (n : nat) (h : heap) (clk : nat) : world :=
  shape w
    (walk_tx nm os
       (walk_request (match n with
                      | O => op_openCursor src range
                      | S _ => op_continue (length cs0)
                      end)
          (cursor_handlers (length (w_promises w) + j) cb) VNull) [])
    cells (w_db w) [length (w_txs w)]
    (match n with
     | O => cs0
     | S _ => cs0 ++ [cursor_at (length (w_txs w)) src range None]
     end) h clk.

(** [cursor] and [cursorIndex] as one call, by the source walked. *)
Definition walk_call (src : source) (cb : visitor) (range : option IDBKeyRange) : call :=
  match src with
  | FromStore => call_cursor cb range
  | FromIndex i => call_cursorIndex i cb range
  end.

Definition has_source (os : objectStore) (src : source) : Prop :=
  match src with
  | FromStore => True
  | FromIndex i => is_Some (os_indexes os !! i)
  end.

(** The records behind the entries of a source: every record for the
    store itself, under its key; for an index the records with a valid
    key at the key path of the index, under that key. *)
Definition entry_of (os : objectStore) (src : source) (e : entry) : Prop :=
  match src with
  | FromStore =>
      ∃ k v, (k, v) ∈ os_records os
             ∧ e = {| e_key := k; e_primaryKey := k; e_value := v |}
  | FromIndex i =>
      ∃ ix k v ik, os_indexes os !! i = Some ix ∧ (k, v) ∈ os_records os
                   ∧ key_at (ix_keyPath ix) v = Some ik
                   ∧ e = {| e_key := ik; e_primaryKey := k; e_value := v |}
  end.


(** ** Sample databases and handles *)

Definition conn : connection := Connection "app" 1.


Definition keyed_store (rs : list (key * jsval)) : objectStore :=
  {| os_keyPath := Some "id"; os_indexes := ∅; os_records := rs |}.

(** The world right after the connection was opened: nothing pending. *)
Definition world_of (db : database) : world :=
  {| w_version := 1; w_db := db; w_txs := []; w_live := []; w_cursors := [];
     w_promises := []; w_heap := []; w_clock := 0 |}.

Definition users : IDBStore :=
  register conn (new_IDBStore "users" {| keyPath := Some "id"; indexes := None |}).

Definition user (id : Z) (name : string) : jsval :=
  VObj [("id", VNum id); ("name", VStr name)].

Definition ann : jsval := user 1 "ann".
Definition bob : jsval := user 2 "bob".

(** A store with an index on [email], and a record without that
    property. *)
Definition by_email : gmap string index :=
  {["byEmail" := {| ix_keyPath := "email"; ix_unique := false |}]}.

Definition contact (id : Z) (email : string) : jsval :=
  VObj [("id", VNum id); ("email", VStr email)].

Definition contacts : objectStore :=
  {| os_keyPath := Some "id"; os_indexes := by_email;
     os_records := [(KNum 1, contact 1 "zoe@x.org"); (KNum 2, bob);
                    (KNum 3, contact 3 "al@x.org")] |}.

(** A store with an index on the nested path [address.city].  The second
    record has no [address]; it has a property whose name is the path. *)
Definition venue (id : Z) (city : string) : jsval :=
  VObj [("id", VNum id); ("address", VObj [("city", VStr city)])].

Definition places : objectStore :=
  {| os_keyPath := Some "id";
     os_indexes := {["byCity" := {| ix_keyPath := "address.city"; ix_unique := false |}]};
     os_records := [(KNum 1, venue 1 "rome");
                    (KNum 2, VObj [("id", VNum 2); ("address.city", VStr "oslo")]);
                    (KNum 3, venue 3 "bern")] |}.

(** The sample world with one empty array on the heap, for visitors that
    collect what they see. *)
Definition collecting (db : database) : world := set_heap (λ _, [[]]) (world_of db).


(** ** What the write operations ask of the engine *)

(** The requests a write operation places when it is called on store
    [os]: one [put] for [set] and [update] (none when [put] refuses the
    call), the accepted [put]s for [setMany], one [delete], one [clear]. *)
Definition requests_of (os : objectStore) (c : call) : list operation :=
  match c with
  | call_set value key =>
      match resolve_key os value key with
      | Some k => [op_put k value]
      | None => []
      end
  | call_setMany values => accepted os values
  | call_update value =>
      match resolve_key os value None with
      | Some k => [op_put k value]
      | None => []
      end
  | call_del key => [op_delete key]
  | call_clear => [op_clear]
  | _ => []
  end.

(** The records of the store once these requests have been carried
    out. *)
Definition written (os : objectStore) (c : call) : list (key * jsval) :=
  foldl effect (os_records os) (requests_of os c).

(** A value that is data only: numbers, strings, [null], [undefined],
    arrays and plain objects of such, with no reference to an array of the
    script and no cursor inside.  These are the values the engine stores
    as they are. *)
Fixpoint plain (v : jsval) : bool :=
  match v with
  | VRef _ | VCursor _ => false
  | VObj fields => forallb (λ f, plain f.2) fields
  | VArr elems => forallb plain elems
  | _ => true
  end.

(** The characters of an identifier: a letter, [$] or [_], and after the
    first one a digit as well. *)
Definition identifier_start (c : ascii) : bool :=
  let n := Ascii.N_of_ascii c in
  ((65 <=? n) && (n <=? 90) || (97 <=? n) && (n <=? 122)
   || (n =? 36) || (n =? 95))%N.

Definition identifier_part (c : ascii) : bool :=
  let n := Ascii.N_of_ascii c in
  identifier_start c || ((48 <=? n) && (n <=? 57))%N.

Definition identifier (s : string) : bool :=
  match s with
  | EmptyString => false
  | String c rest =>
      identifier_start c && forallb identifier_part (String.list_ascii_of_string rest)
  end.


(** The value a batch writes under [k] last: that of the last value of
    the batch whose key is [k]. *)
Definition last_written (keys : list key) (values : list jsval) (k : key) : option jsval :=
  snd <$> last (filter (λ kv, kv.1 = k) (zip keys values)).

(** What [getMany] over the keys of a batch finds once the batch is
    written. *)
Definition read_back (keys : list key) (values : list jsval) : list jsval :=
  (λ k, default VUndefined (last_written keys values k)) <$> keys.

(** A read-write transaction nothing listens to: what is left of a write
    operation that threw before it reached [promisify]. *)
Definition unheard_tx (nm : string) (rqs : list request) (q : list nat) (st : tx_status)
    (rs : list (key * jsval)) : transaction :=
  {| tx_store := nm; tx_mode := readwrite; tx_requests := rqs; tx_queue := q;
     tx_handlers := no_handlers; tx_error := RNull; tx_status_of := st;
     tx_records := rs |}.

(** The world of a walk of [cursor] or [cursorIndex] right after the
    engine has failed its request, in the step that met the error: the
    promise of the walk is rejected with the event and the transaction is
    being aborted. *)
Definition walk_failed (w : world) (nm : string) (os : objectStore) (op : operation)
    (cb : visitor) (err : string) (cs : list cursor_object)
    (h : heap) (clk : nat) : world :=
  shape w
    (set_status Aborting
       (set_tx_error (RExn (DOMException err))
          (walk_tx nm os
             {| rq_op := op; rq_handlers := cursor_handlers (length (w_promises w) + 0) cb;
                rq_result := VUndefined; rq_error := RExn (DOMException err) |} [])))
    [set_settlement (Rejected REvent) (new_cell [])]
    (w_db w) [length (w_txs w)] cs h clk.

(** ** Schemas *)

(** [db'] has every store of [db], with the same key path, the same
    records and every index of it as it was defined. *)
Definition keeps (db db' : database) : Prop :=
  ∀ n os, db !! n = Some os →
    ∃ os', db' !! n = Some os'
           ∧ os_keyPath os' = os_keyPath os
           ∧ os_records os' = os_records os
           ∧ ∀ i ix, os_indexes os !! i = Some ix → os_indexes os' !! i = Some ix.


(** The earlier version opens the database in the constructor of the
    store; this is its [onupgradeneeded] handler ([src/index.ts]). *)
Module LegacyOpen.
Definition onupgradeneeded (storeName : string) (options : option IDBStoreOptions)
  : js database unit :=
  store ← createObjectStore storeName options;
  match options ≫= indexes with
  | Some ixs => for_each (λ index, createIndex store index) ixs
  | None => mret tt
  end.

(** [indexedDB.open(dbName, version)] with that handler. *)
Definition open (dbName storeName : string) (version : Z)
    (options : option IDBStoreOptions) : js world connection :=
  indexedDB_open dbName version (onupgradeneeded storeName options).
End LegacyOpen.

(** A store whose index on [email] is unique, with one record. *)
Definition members : objectStore :=
  {| os_keyPath := Some "id";
     os_indexes := {["byEmail" := {| ix_keyPath := "email"; ix_unique := true |}]};
     os_records := [(KNum 1, contact 1 "zoe@x.org")] |}.


(** ** The walk of the earlier version *)

(** The handlers of the request of [Legacy.cursor]: the [onsuccess] it
    installs, and nothing for errors. *)
Definition legacy_handlers (cb : visitor) : handlers :=
  {| onsuccess := Some (walk_onsuccess cb); onerror := None; oncomplete := None;
     onabort := None |}.

(** The world of a walk by the operation and the last result of its
    request, its queue, the cursor objects and the heap. *)
Definition walk_state (w : world) (nm : string) (os : objectStore) (hs : handlers)
    (cells : list promise) (op : operation) (result : jsval) (q : list nat)
    (cs : list cursor_object) (h : heap) (clk : nat) : world :=
  shape w (walk_tx nm os (walk_request op hs result) q) cells (w_db w)
    [length (w_txs w)] cs h clk.

(** The promises of [Legacy.getAll] when it returns: that of [cursor],
    fulfilled, and its own, fulfilled with the array. *)
Definition legacy_cells (items : nat) : list promise :=
  [settled_cell (Fulfilled VUndefined); settled_cell (Fulfilled (VRef items))].

(** * Properties *)

(** ** Schema migration *)

Ltac js_unfold :=
  unfold mbind, mret, js_bind, js_ret, throw, get_state, put_state, modify in *.

Lemma with_records_id os : with_records (os_records os) os = os.
Proof. by destruct os. Qed.

Lemma add_index_records os a : os_records (add_index os a) = os_records os.
Proof. unfold add_index. by destruct (os_indexes os !! ia_name a). Qed.

Lemma add_index_keyPath os a : os_keyPath (add_index os a) = os_keyPath os.
Proof. unfold add_index. by destruct (os_indexes os !! ia_name a). Qed.

Lemma add_index_mono os a i :
  is_Some (os_indexes os !! i) → is_Some (os_indexes (add_index os a) !! i).
Proof.
  unfold add_index. destruct (os_indexes os !! ia_name a) eqn:E; [done|].
  simpl. intros H. destruct (decide (ia_name a = i)) as [->|Hne].
  - rewrite lookup_insert_eq. eauto.
  - by rewrite lookup_insert_ne.
Qed.

Lemma add_index_has os a : is_Some (os_indexes (add_index os a) !! ia_name a).
Proof.
  unfold add_index. destruct (os_indexes os !! ia_name a) eqn:E.
  - rewrite E. eauto.
  - simpl. rewrite lookup_insert_eq. eauto.
Qed.

Lemma add_indexes_mono ixs : ∀ os i,
  is_Some (os_indexes os !! i) → is_Some (os_indexes (foldl add_index os ixs) !! i).
Proof.
  induction ixs as [|a ixs IH]; intros os i H; simpl; [done|].
  apply IH. by apply add_index_mono.
Qed.

Lemma add_indexes_has ixs : ∀ os a,
  a ∈ ixs → is_Some (os_indexes (foldl add_index os ixs) !! ia_name a).
Proof.
  induction ixs as [|b ixs IH]; intros os a Hin; simpl.
  - by apply elem_of_nil in Hin.
  - apply elem_of_cons in Hin as [->|Hin].
    + apply add_indexes_mono, add_index_has.
    + by apply IH.
Qed.

Lemma add_indexes_records ixs : ∀ os,
  os_records (foldl add_index os ixs) = os_records os.
Proof.
  induction ixs as [|a ixs IH]; intros os; simpl; [done|].
  by rewrite IH, add_index_records.
Qed.

Lemma add_indexes_keyPath ixs : ∀ os,
  os_keyPath (foldl add_index os ixs) = os_keyPath os.
Proof.
  induction ixs as [|a ixs IH]; intros os; simpl; [done|].
  by rewrite IH, add_index_keyPath.
Qed.


Lemma js_bind_run {S A B} (m : js S A) (f : A → js S B) (s : S) :
  (m ≫= f) s = match m s with
               | (Return a, s') => f a s'
               | (Throw e, s') => (Throw e, s')
               end.
Proof. reflexivity. Qed.

(** One round of the loop of [upgrade] over the declared indexes. *)
Lemma upgrade_round_spec (n : string) a (db : database) os :
  db !! n = Some os →
  (has ← indexNames_contains n (ia_name a);
   if negb has then createIndex n a else mret tt) db
  = (Return tt, <[n := add_index os a]> db).
Proof.
  intros Hos. unfold indexNames_contains, createIndex, add_index. js_unfold.
  rewrite Hos. destruct (os_indexes os !! ia_name a) as [ix|] eqn:E.
  - rewrite bool_decide_eq_true_2 by eauto. simpl. by rewrite insert_id.
  - rewrite bool_decide_eq_false_2 by (intros [? ?]; congruence). simpl.
    by rewrite Hos, E.
Qed.

Lemma upgrade_loop_spec (n : string) ixs : ∀ (db : database) os,
  db !! n = Some os →
  for_each (λ index,
              has ← indexNames_contains n (ia_name index);
              if negb has then createIndex n index else mret tt) ixs db
  = (Return tt, <[n := foldl add_index os ixs]> db).
Proof.
  induction ixs as [|a ixs IH]; intros db os Hos; simpl.
  - js_unfold. by rewrite insert_id.
  - rewrite js_bind_run, (upgrade_round_spec n a db os Hos).
    rewrite (IH _ _ (lookup_insert_eq _ _ _)). by rewrite insert_insert_eq.
Qed.

(** [upgrade] never throws, and what it does to the database is
    [upgraded]. *)
Lemma upgrade_spec this (db : database) :
  upgrade this db = (Return tt, upgraded this db).
Proof.
  unfold upgrade, upgraded, declared_indexes.
  rewrite js_bind_run. unfold objectStoreNames_contains at 1.
  rewrite js_bind_run. unfold get_state at 1. cbn [mret js_ret].
  destruct (db !! name this) as [os|] eqn:Hos.
  - rewrite bool_decide_eq_true_2 by eauto. cbn [negb].
    rewrite js_bind_run. unfold upgrade_objectStore.
    rewrite js_bind_run. unfold get_state at 1. rewrite Hos. cbn [mret js_ret default].
    destruct (indexes (options this)) as [ixs|]; cbn [default foldl].
    + by apply upgrade_loop_spec.
    + by rewrite insert_id.
  - rewrite bool_decide_eq_false_2 by (intros [? ?]; congruence). cbn [negb].
    rewrite js_bind_run. unfold createObjectStore.
    rewrite js_bind_run. unfold get_state at 1. rewrite Hos.
    rewrite js_bind_run. unfold put_state at 1. cbn [mret js_ret default].
    destruct (indexes (options this)) as [ixs|]; cbn [default foldl]; [|done].
    rewrite (upgrade_loop_spec _ ixs _ _ (lookup_insert_eq _ _ _)).
    by rewrite insert_insert_eq.
Qed.

Lemma extends_refl db : extends db db.
Proof. intros n os H. eauto. Qed.

Lemma extends_trans db1 db2 db3 : extends db1 db2 → extends db2 db3 → extends db1 db3.
Proof.
  intros H12 H23 n os H.
  destruct (H12 n os H) as (os2 & H2 & Hi2).
  destruct (H23 n os2 H2) as (os3 & H3 & Hi3).
  exists os3. split; [done|]. auto.
Qed.

Lemma upgraded_extends this db : extends db (upgraded this db).
Proof.
  intros n os H. unfold upgraded.
  destruct (decide (name this = n)) as [<-|Hne].
  - rewrite lookup_insert_eq, H. simpl. eexists; split; [done|].
    intros i. apply add_indexes_mono.
  - rewrite lookup_insert_ne by done. eauto.
Qed.

Lemma upgraded_satisfied this db : satisfied this (upgraded this db).
Proof.
  unfold satisfied, upgraded. rewrite lookup_insert_eq.
  eexists; split; [done|]. intros a Ha. by apply add_indexes_has.
Qed.

Lemma satisfied_extends this db db' :
  satisfied this db → extends db db' → satisfied this db'.
Proof.
  intros (os & Hos & Hix) Hext.
  destruct (Hext _ _ Hos) as (os' & Hos' & Hi).
  exists os'. split; [done|]. auto.
Qed.


(** The first migration run returns, only adds, and leaves every
    descriptor it went through satisfied. *)
Lemma migrate_keys_first (obj : list (string * IDBStore)) ks : ∀ db : database,
  ∃ db', for_each (λ key, match property obj key with
                          | Some v => upgrade v
                          | None => mret tt
                          end) ks db = (Return tt, db')
         ∧ extends db db'
         ∧ ∀ k s, k ∈ ks → property obj k = Some s → satisfied s db'.
Proof.
  induction ks as [|k ks IH]; intros db; simpl.
  - exists db. split; [done|]. split; [apply extends_refl|].
    intros k s Hk. by apply elem_of_nil in Hk.
  - js_unfold. destruct (property obj k) as [s|] eqn:Hp.
    + rewrite upgrade_spec.
      destruct (IH (upgraded s db)) as (db' & Hrun & Hext & Hsat).
      exists db'. split; [done|]. split.
      * eapply extends_trans; [apply upgraded_extends|done].
      * intros k' s' Hk' Hp'. apply elem_of_cons in Hk' as [->|Hk'].
        -- rewrite Hp in Hp'. injection Hp' as <-.
           eapply satisfied_extends; [apply upgraded_satisfied|done].
        -- eauto.
    + destruct (IH db) as (db' & Hrun & Hext & Hsat).
      exists db'. split; [done|]. split; [done|].
      intros k' s' Hk' Hp'. apply elem_of_cons in Hk' as [->|Hk']; [congruence|eauto].
Qed.



Lemma upgrade_reuses_existing_store this (db : database) os :
  db !! name this = Some os →
  ∃ os', (upgrade this db).2 !! name this = Some os'
         ∧ os_keyPath os' = os_keyPath os
         ∧ os_records os' = os_records os
         ∧ ∀ i, is_Some (os_indexes os !! i) → is_Some (os_indexes os' !! i).
Proof.
  intros Hos. rewrite upgrade_spec. simpl. unfold upgraded.
  rewrite lookup_insert_eq, Hos. simpl. eexists; split; [done|].
  rewrite add_indexes_keyPath, add_indexes_records.
  split; [done|]. split; [done|]. intros i. apply add_indexes_mono.
Qed.

Lemma upgrade_other_stores this (db : database) n :
  n ≠ name this → (upgrade this db).2 !! n = db !! n.
Proof.
  intros Hne. rewrite upgrade_spec. simpl. unfold upgraded.
  by rewrite lookup_insert_ne.
Qed.

(** C5 (as the code has it): a store descriptor that declares the key path
    "id" is migrated into an empty database; the store comes out with no
    key path, because [upgrade] calls [createObjectStore] with the name
    alone. *)
Lemma upgrade_ignores_declared_keyPath :
  let users := new_IDBStore "users" {| keyPath := Some "id"; indexes := None |} in
  keyPath (options users) = Some "id"
  ∧ os_keyPath <$> ((upgrade users ∅).2 !! "users") = Some None.
Proof. split; [done|]. rewrite upgrade_spec. done. Qed.


(** Migration only adds: every store and index that existed before the
    run exists after it. *)
Lemma migration_only_adds (stores : list (string * IDBStore)) (db db' : database) :
  migrate stores db = (Return tt, db') → extends db db'.
Proof.
  unfold migrate, iterate. intros H.
  destruct (migrate_keys_first stores (Object_keys stores) db)
    as (db'' & Hrun & Hext & _).
  rewrite Hrun in H. by injection H as <-.
Qed.

(** ** Lists used as tables *)

Lemma lookup_snoc {A} (l : list A) (x : A) : (l ++ [x]) !! length l = Some x.
Proof. by apply list_lookup_middle. Qed.

Lemma alter_snoc {A} (f : A → A) (l : list A) (x : A) :
  alter f (length l) (l ++ [x]) = l ++ [f x].
Proof. induction l as [|y l IH]; simpl; [done|]. f_equal. exact IH. Qed.

Lemma lookup_snoc_lt {A} (l : list A) (x : A) i :
  (i < length l)%nat → (l ++ [x]) !! i = l !! i.
Proof. intros. by apply lookup_app_l. Qed.

(** ** Promises *)

Lemma state_of_set_promises_ne f p w :
  (∀ ps, f ps !! p = ps !! p) → state_of p (set_promises f w) = state_of p w.
Proof. intros H. unfold state_of. simpl. by rewrite H. Qed.

Lemma settle_only_frame p s w :
  w_txs (settle_only p s w) = w_txs w ∧ w_db (settle_only p s w) = w_db w
  ∧ w_live (settle_only p s w) = w_live w ∧ w_cursors (settle_only p s w) = w_cursors w
  ∧ w_heap (settle_only p s w) = w_heap w ∧ w_clock (settle_only p s w) = w_clock w
  ∧ w_version (settle_only p s w) = w_version w.
Proof. done. Qed.

Lemma react_engine_part s w r : engine_part (react s w r) = engine_part w.
Proof.
  destruct s, r; simpl; try done.
  destruct (w_promises w !! q); [|done]. by case_decide.
Qed.

Lemma reactions_engine_part s rs : ∀ w,
  engine_part (foldl (react s) w rs) = engine_part w.
Proof.
  induction rs as [|r rs IH]; intros w; simpl; [done|].
  by rewrite IH, react_engine_part.
Qed.

Lemma settle_engine_part p s w : engine_part (settle p s w) = engine_part w.
Proof.
  unfold settle. destruct (w_promises w !! p) as [c|]; [|done].
  destruct (p_state c); try done.
  by rewrite reactions_engine_part.
Qed.

Lemma settle_txs p s w : w_txs (settle p s w) = w_txs w.
Proof. pose proof (settle_engine_part p s w) as H. unfold engine_part in H. congruence. Qed.
Lemma settle_db p s w : w_db (settle p s w) = w_db w.
Proof. pose proof (settle_engine_part p s w) as H. unfold engine_part in H. congruence. Qed.
Lemma settle_live p s w : w_live (settle p s w) = w_live w.
Proof. pose proof (settle_engine_part p s w) as H. unfold engine_part in H. congruence. Qed.
Lemma settle_cursors p s w : w_cursors (settle p s w) = w_cursors w.
Proof. pose proof (settle_engine_part p s w) as H. unfold engine_part in H. congruence. Qed.
Lemma settle_heap p s w : w_heap (settle p s w) = w_heap w.
Proof. pose proof (settle_engine_part p s w) as H. unfold engine_part in H. congruence. Qed.
Lemma settle_clock p s w : w_clock (settle p s w) = w_clock w.
Proof. pose proof (settle_engine_part p s w) as H. unfold engine_part in H. congruence. Qed.
Lemma settle_version p s w : w_version (settle p s w) = w_version w.
Proof. pose proof (settle_engine_part p s w) as H. unfold engine_part in H. congruence. Qed.

(** A pending promise without reactions takes the settlement; a settled
    one keeps its own. *)
Lemma settle_pending p s w c :
  w_promises w !! p = Some c → p_state c = Pending → p_reactions c = [] →
  settle p s w = settle_only p s w
  ∧ w_promises (settle p s w) !! p = Some (set_settlement s c).
Proof.
  intros Hc Hs Hr. unfold settle. rewrite Hc, Hs, Hr. simpl. split; [done|].
  rewrite list_lookup_alter_eq, Hc. simpl. unfold settle_cell. by rewrite Hs.
Qed.

Lemma settle_settled p s w :
  state_of p w ≠ Pending → settle p s w = w.
Proof.
  unfold state_of, settle. destruct (w_promises w !! p) as [c|]; [|done].
  by destruct (p_state c).
Qed.

(** ** Handles *)

Lemma request_of_alter_request t r f w :
  request_of t r (alter_request t r f w) = f <$> request_of t r w.
Proof.
  unfold request_of, alter_request, alter_tx. simpl.
  rewrite list_lookup_alter_eq. destruct (w_txs w !! t) as [tx|]; simpl; [|done].
  by rewrite list_lookup_alter_eq.
Qed.

Lemma tx_alter_tx t f w : w_txs (alter_tx t f w) !! t = f <$> w_txs w !! t.
Proof. unfold alter_tx. simpl. by rewrite list_lookup_alter_eq. Qed.

(** [promisify] on an existing handle: a fresh pending promise, and the
    four handlers of the handle are its own. *)
Lemma promisify_spec h w :
  handle_exists h w →
  ∃ w1, promisify h w = (Return (length (w_promises w)), w1)
        ∧ w_promises w1 = w_promises w ++ [new_cell []]
        ∧ handlers_of h w1 = promisified (length (w_promises w))
        ∧ handle_exists h w1.
Proof.
  intros Hex.
  destruct h as [t r|t]; (eexists; split; [reflexivity|]);
    unfold handle_exists, handlers_of in *.
  - split; [done|]. rewrite !request_of_alter_request.
    replace (request_of t r (set_promises _ w)) with (request_of t r w) by done.
    destruct Hex as [rq ->]. simpl. split; [done|]. by eexists.
  - split; [done|]. rewrite !tx_alter_tx.
    replace (w_txs (set_promises _ w)) with (w_txs w) by done.
    destruct Hex as [tx ->]. simpl. split; [done|]. by eexists.
Qed.

(** A signal at a handle with [promisify]'s handlers settles its promise
    with the handle's result or error. *)
Lemma deliver_promisified s h p w :
  handlers_of h w = promisified p →
  deliver s h w
  = settle p (match s with
              | sig_success | sig_complete => Fulfilled (result_of h w)
              | _ => Rejected (error_of h w)
              end) w.
Proof.
  intros Hh. unfold deliver, fire. rewrite Hh. by destruct s.
Qed.

Lemma state_of_settle_fresh p s w c :
  w_promises w !! p = Some c → p_state c = Pending → p_reactions c = [] →
  state_of p (settle p s w) = s.
Proof.
  intros Hc Hs Hr. destruct (settle_pending p s w c Hc Hs Hr) as [_ H].
  unfold state_of. by rewrite H.
Qed.

(** [promisify] gives one promise for a request or a transaction.  It is
    pending when [promisify] returns.  From then on, as long as the
    handlers of the handle are those [promisify] installed: a signal that
    finds the promise pending settles it, with the [result] of the handle
    on success or completion (a transaction has none: undefined) and, on
    error or abort, with the [error] of the handle as it is when the
    signal arrives; a signal that finds it settled leaves it as it is. *)
Lemma promisify_settles_once h w p w1 :
  handle_exists h w →
  promisify h w = (Return p, w1) →
  state_of p w1 = Pending
  ∧ handlers_of h w1 = promisified p
  ∧ ∀ s w2, handlers_of h w2 = promisified p →
      (w_promises w2 !! p = Some (new_cell []) →
         state_of p (deliver s h w2)
         = match s with
           | sig_success | sig_complete => Fulfilled (result_of h w2)
           | sig_error | sig_abort => Rejected (error_of h w2)
           end)
      ∧ (state_of p w2 ≠ Pending → state_of p (deliver s h w2) = state_of p w2).
Proof.
  intros Hex Hp.
  destruct (promisify_spec h w Hex) as (w1' & Hp' & Hps & Hh & Hex1).
  rewrite Hp in Hp'. injection Hp' as -> <-.
  split. { unfold state_of. by rewrite Hps, lookup_snoc. }
  split; [done|]. intros s w2 Hh2.
  rewrite (deliver_promisified s h (length (w_promises w))) by done. split.
  - intros Hcell.
    rewrite (state_of_settle_fresh _ _ _ (new_cell [])) by done. by destruct s.
  - intros Hset. by rewrite settle_settled.
Qed.

(** C9.  A [set] whose [put] the engine fails: the store has a unique
    index on [email] and holds a record with the [email] of the new
    value.  [set] hands the transaction to [promisify].  The request
    fails with a [ConstraintError]; its error event bubbles to the
    transaction while the [error] of the transaction is still [null],
    and that is what the promise is rejected with.  The engine sets the
    [error] of the transaction when it aborts it, after the event; the
    abort signal then finds the promise settled.  On the request handle
    of [get], which carries its [error] when the event arrives, the same
    handler rejects with the [DOMException]. *)
Theorem promisify_rejects_a_failed_write_with_null :
  let w := world_of {["users" := members]} in
  let w1 := (set users (contact 2 "zoe@x.org") None w).2 in
  let failing := λ n : nat, if decide (n = 0%nat) then Some "UnknownError" else None in
  ((set users (contact 2 "zoe@x.org") None w).1 = Return 0%nat
   ∧ state_of 0 w1 = Pending
   ∧ handlers_of (h_transaction 0) w1 = promisified 0
   ∧ error_of (h_request 0 0) (run no_faults 1 w1)
     = RExn (DOMException "ConstraintError")
   ∧ state_of 0 (run no_faults 1 w1) = Rejected RNull
   ∧ error_of (h_transaction 0) (run no_faults 1 w1)
     = RExn (DOMException "ConstraintError")
   ∧ tx_status_of <$> w_txs (run no_faults 2 w1) !! 0%nat = Some Aborted
   ∧ state_of 0 (run no_faults 2 w1) = Rejected RNull
   ∧ w_db (run no_faults 2 w1) = w_db w)
  ∧ ((get users (KNum 1) w).1 = Return 0%nat
     ∧ state_of 0 (run failing 1 (get users (KNum 1) w).2)
       = Rejected (RExn (DOMException "UnknownError"))).
Proof. vm_compute. repeat split. Qed.

(** ** The event loop, case by case *)

Ltac wcbn :=
  cbn [w_version w_db w_txs w_live w_cursors w_promises w_heap w_clock
       tx_store tx_mode tx_requests tx_queue tx_handlers tx_error tx_status_of tx_records
       rq_op rq_handlers rq_result rq_error
       onsuccess onerror oncomplete onabort
       transaction_of ix_store ix_name
       fst snd app length list_alter alter fmap option_fmap option_map from_option default
       list_fmap seq imap
       request_of handlers_of result_of error_of option_bind
       p_state p_reactions p_values p_remaining] in *.

Ltac wunfold :=
  unfold mbind, mret, js_bind, js_ret, throw, get_state, put_state, modify,
    alter_request, alter_tx, set_db, set_version, set_txs, set_live, set_promises,
    set_heap, set_cursors, tick, set_requests, set_queue, set_tx_handlers,
    set_tx_error, set_status, set_records, set_op, set_rq_handlers, set_outcome,
    with_onsuccess, with_onerror, with_oncomplete, with_onabort, new_transaction,
    new_request, new_cell, no_handlers, set_settlement, add_reaction, set_element,
    after_call, promisified, promisified_request, write_transaction, read_transaction in *.

Ltac wnorm := repeat (progress (wunfold; wcbn; rewrite ?alter_snoc, ?lookup_snoc)).

Section step_cases.
Variable faults : nat → option string.
Variables (w : world) (t : nat) (l : list nat) (tx : transaction).
Hypothesis Hlive : w_live w = t :: l.
Hypothesis Htx : w_txs w !! t = Some tx.

(** A request is executed and succeeds. *)
Lemma step_success r q rq v rs cs :
  tx_queue tx = r :: q → tx_status_of tx = Active →
  faults (w_clock w) = None → tx_requests tx !! r = Some rq →
  execute (default empty_store (w_db w !! tx_store tx)) t r (rq_op rq)
    (tx_records tx) (w_cursors w) = (inr v, rs, cs) →
  step faults w
  = Some (fire t (h_request t r) onsuccess
            (set_cursors (λ _, cs)
               (alter_tx t (set_records rs)
                  (alter_request t r (set_outcome v RNull)
                     (tick (alter_tx t (set_queue (λ _, q)) w)))))).
Proof.
  intros Hq Hst Hf Hrq Hex. unfold step.
  by rewrite Hlive, Htx, Hq, Hst, Hf, Hrq, Hex.
Qed.

(** The engine refuses the request: an injected fault. *)
Lemma step_fault r q e :
  tx_queue tx = r :: q → tx_status_of tx = Active →
  faults (w_clock w) = Some e →
  step faults w
  = Some (fail_request t r e (tick (alter_tx t (set_queue (λ _, q)) w))).
Proof.
  intros Hq Hst Hf. unfold step. by rewrite Hlive, Htx, Hq, Hst, Hf.
Qed.

(** The request fails in execution (a constraint). *)
Lemma step_failure r q rq e rs cs :
  tx_queue tx = r :: q → tx_status_of tx = Active →
  faults (w_clock w) = None → tx_requests tx !! r = Some rq →
  execute (default empty_store (w_db w !! tx_store tx)) t r (rq_op rq)
    (tx_records tx) (w_cursors w) = (inl e, rs, cs) →
  step faults w
  = Some (fail_request t r e (tick (alter_tx t (set_queue (λ _, q)) w))).
Proof.
  intros Hq Hst Hf Hrq Hex. unfold step.
  by rewrite Hlive, Htx, Hq, Hst, Hf, Hrq, Hex.
Qed.

(** A request left in the queue of an aborted transaction. *)
Lemma step_aborting r q :
  tx_queue tx = r :: q → tx_status_of tx = Aborting →
  step faults w
  = Some (fire_error t r
            (alter_request t r
               (set_outcome VUndefined (RExn (DOMException "AbortError")))
               (tick (alter_tx t (set_queue (λ _, q)) w)))).
Proof.
  intros Hq Hst. unfold step. by rewrite Hlive, Htx, Hq, Hst.
Qed.

(** The queue is empty: the transaction commits. *)
Lemma step_commit :
  tx_queue tx = [] → tx_status_of tx = Active →
  step faults w
  = Some (fire t (h_transaction t) oncomplete
            (alter_tx t (set_status Committed)
               (set_db (alter (with_records (tx_records tx)) (tx_store tx))
                  (set_live (λ _, l) w)))).
Proof.
  intros Hq Hst. unfold step. by rewrite Hlive, Htx, Hq, Hst.
Qed.

(** The queue is empty: the aborted transaction finishes. *)
Lemma step_aborted :
  tx_queue tx = [] → tx_status_of tx = Aborting →
  step faults w
  = Some (fire t (h_transaction t) onabort
            (alter_tx t (set_status Aborted) (set_live (λ _, l) w))).
Proof.
  intros Hq Hst. unfold step. by rewrite Hlive, Htx, Hq, Hst.
Qed.
End step_cases.

Lemma step_quiescent faults w : w_live w = [] → step faults w = None.
Proof. intros H. unfold step. by rewrite H. Qed.

Lemma run_quiescent faults n w : w_live w = [] → run faults n w = w.
Proof. intros H. destruct n; simpl; [done|]. by rewrite step_quiescent. Qed.

Lemma run_S faults n w w' : step faults w = Some w' → run faults (S n) w = run faults n w'.
Proof. intros H. simpl. by rewrite H. Qed.

Lemma run_add faults n m w : run faults (n + m) w = run faults m (run faults n w).
Proof.
  revert w. induction n as [|n IH]; intros w; simpl; [done|].
  destruct (step faults w) as [w'|] eqn:E; [apply IH|].
  destruct m; simpl; [done|]. by rewrite E.
Qed.

(** ** Delivering events *)

Lemma fire_none t h which w :
  which (handlers_of h w) = None → fire t h which w = w.
Proof. intros H. unfold fire. by rewrite H. Qed.

Lemma fire_resolve t h which w p :
  which (handlers_of h w) = Some (promisify_resolve p) →
  fire t h which w = settle p (Fulfilled (result_of h w)) w.
Proof. intros H. unfold fire. by rewrite H. Qed.

Lemma fire_reject t h which w p :
  which (handlers_of h w) = Some (promisify_reject p) →
  fire t h which w = settle p (Rejected (error_of h w)) w.
Proof. intros H. unfold fire. by rewrite H. Qed.

Lemma fire_reject_fn t h which w p :
  which (handlers_of h w) = Some (reject_fn p) →
  fire t h which w = settle p (Rejected REvent) w.
Proof. intros H. unfold fire. by rewrite H. Qed.

(** ** What a call leaves behind: the simple operations *)

Ltac sync_start this Hreg Hos :=
  unfold store, storeIndex; rewrite ?Hreg;
  unfold db_transaction, tx_objectStore, IDBObjectStore_get, IDBObjectStore_put,
    IDBObjectStore_delete, IDBObjectStore_clear, IDBObjectStore_openCursor,
    writable, place, promisify, new_Promise, set_handlers;
  repeat (progress (wnorm; rewrite ?Hos; rewrite ?decide_True by done)).

Lemma get_sync this db k w os :
  store_field this = registered db → w_db w !! name this = Some os →
  get this k w
  = (Return (length (w_promises w)),
     after_call w (read_transaction (name this) os [k] (length (w_promises w)))
       [new_cell []]).
Proof.
  intros Hreg Hos. destruct w as [v d txs live cs ps h c]. simpl in Hos.
  unfold get. sync_start this Hreg Hos. by rewrite Nat.add_0_r.
Qed.

Lemma del_sync this db k w os :
  store_field this = registered db → w_db w !! name this = Some os →
  del this k w
  = (Return (length (w_promises w)),
     after_call w (write_transaction (name this) os [op_delete k] (length (w_promises w)))
       [new_cell []]).
Proof.
  intros Hreg Hos. destruct w as [v d txs live cs ps h c]. simpl in Hos.
  unfold del. by sync_start this Hreg Hos.
Qed.

Lemma clear_sync this db w os :
  store_field this = registered db → w_db w !! name this = Some os →
  clear this w
  = (Return (length (w_promises w)),
     after_call w (write_transaction (name this) os [op_clear] (length (w_promises w)))
       [new_cell []]).
Proof.
  intros Hreg Hos. destruct w as [v d txs live cs ps h c]. simpl in Hos.
  unfold clear. by sync_start this Hreg Hos.
Qed.

(** [set(value, key)] on a store with out-of-line keys. *)
Lemma set_sync this db v k w os :
  store_field this = registered db → w_db w !! name this = Some os →
  os_keyPath os = None →
  set this v (Some k) w
  = (Return (length (w_promises w)),
     after_call w (write_transaction (name this) os [op_put k v] (length (w_promises w)))
       [new_cell []]).
Proof.
  intros Hreg Hos Hkp. destruct w as [ver d txs live cs ps h c]. simpl in Hos.
  unfold set. sync_start this Hreg Hos. rewrite Hkp. by sync_start this Hreg Hos.
Qed.

(** [update(value)] on a store with a key path. *)
Lemma update_sync this db v k path w os :
  store_field this = registered db → w_db w !! name this = Some os →
  os_keyPath os = Some path → key_at path v = Some k →
  update this v w
  = (Return (length (w_promises w)),
     after_call w (write_transaction (name this) os [op_put k v] (length (w_promises w)))
       [new_cell []]).
Proof.
  intros Hreg Hos Hkp Hk. destruct w as [ver d txs live cs ps h c]. simpl in Hos.
  unfold update. sync_start this Hreg Hos. rewrite Hkp, Hk. by sync_start this Hreg Hos.
Qed.

(** ** Worlds with one unfinished transaction *)

Section shape.
Variables (w : world) (tx : transaction) (cells : list promise) (db : database)
  (live : list nat) (cs : list cursor_object) (h : heap) (clk : nat).
Local Abbreviation t := (length (w_txs w)).
Local Abbreviation W := (shape w tx cells db live cs h clk).

Lemma after_call_shape :
  after_call w tx cells
  = shape w tx cells (w_db w) (w_live w ++ [t]) (w_cursors w) (w_heap w) (w_clock w).
Proof. done. Qed.

Lemma sh_tx : w_txs W !! t = Some tx.
Proof. apply lookup_snoc. Qed.

Lemma sh_alter_tx f : alter_tx t f W = shape w (f tx) cells db live cs h clk.
Proof. unfold alter_tx, set_txs, shape. simpl. by rewrite alter_snoc. Qed.

Lemma sh_alter_request r f :
  alter_request t r f W = shape w (set_requests (alter f r) tx) cells db live cs h clk.
Proof. unfold alter_request. apply sh_alter_tx. Qed.

Lemma sh_set_db f : set_db f W = shape w tx cells (f db) live cs h clk.
Proof. done. Qed.
Lemma sh_set_live f : set_live f W = shape w tx cells db (f live) cs h clk.
Proof. done. Qed.
Lemma sh_set_cursors f : set_cursors f W = shape w tx cells db live (f cs) h clk.
Proof. done. Qed.
Lemma sh_set_heap f : set_heap f W = shape w tx cells db live cs (f h) clk.
Proof. done. Qed.
Lemma sh_tick : tick W = shape w tx cells db live cs h (S clk).
Proof. done. Qed.

Lemma sh_handlers_tx : handlers_of (h_transaction t) W = tx_handlers tx.
Proof. unfold handlers_of. by rewrite sh_tx. Qed.
Lemma sh_handlers_request r :
  handlers_of (h_request t r) W = from_option rq_handlers no_handlers (tx_requests tx !! r).
Proof. unfold handlers_of, request_of. by rewrite sh_tx. Qed.
Lemma sh_error_tx : error_of (h_transaction t) W = tx_error tx.
Proof. unfold error_of. by rewrite sh_tx. Qed.
Lemma sh_error_request r :
  error_of (h_request t r) W = from_option rq_error RNull (tx_requests tx !! r).
Proof. unfold error_of, request_of. by rewrite sh_tx. Qed.
Lemma sh_result_request r :
  result_of (h_request t r) W = from_option rq_result VUndefined (tx_requests tx !! r).
Proof. unfold result_of, request_of. by rewrite sh_tx. Qed.

Lemma sh_state j : state_of (length (w_promises w) + j) W
                   = from_option p_state Pending (cells !! j).
Proof.
  unfold state_of, shape. simpl.
  rewrite lookup_app_r by lia.
  replace (length (w_promises w) + j - length (w_promises w))%nat with j by lia.
  by destruct (cells !! j).
Qed.

Lemma sh_abort e :
  abort t e W
  = shape w (match tx_status_of tx with
             | Active => set_status Aborting (set_tx_error (RExn (DOMException e)) tx)
             | _ => tx
             end) cells db live cs h clk.
Proof. unfold abort. apply sh_alter_tx. Qed.

(** Settling a pending promise of the call that has no reactions. *)
Lemma sh_settle j s c :
  cells !! j = Some c → p_state c = Pending → p_reactions c = [] →
  settle (length (w_promises w) + j) s W
  = shape w tx (<[j := set_settlement s c]> cells) db live cs h clk.
Proof.
  intros Hc Hs Hr.
  assert (Hl : w_promises W !! (length (w_promises w) + j)%nat = Some c).
  { unfold shape. simpl. rewrite lookup_app_r by lia.
    by replace (length (w_promises w) + j - length (w_promises w))%nat with j by lia. }
  destruct (settle_pending _ s W c Hl Hs Hr) as [-> _].
  unfold settle_only, set_promises, shape. simpl. f_equal.
  rewrite alter_app_r. f_equal.
  apply list_eq. intros i. destruct (decide (j = i)) as [<-|Hne].
  - rewrite list_lookup_alter_eq, list_lookup_insert_eq by (by eapply lookup_lt_Some).
    rewrite Hc. simpl. unfold settle_cell. by rewrite Hs.
  - by rewrite list_lookup_alter_ne, list_lookup_insert_ne.
Qed.

Lemma sh_settle_settled j s c :
  cells !! j = Some c → p_state c ≠ Pending →
  settle (length (w_promises w) + j) s W = W.
Proof.
  intros Hc Hs. apply settle_settled. rewrite sh_state, Hc. done.
Qed.
End shape.

Lemma sh_state_first w tx c cells db live cs h clk :
  state_of (length (w_promises w)) (shape w tx (c :: cells) db live cs h clk) = p_state c.
Proof. rewrite <-(Nat.add_0_r (length (w_promises w))). by rewrite sh_state. Qed.

Lemma sh_settle_first s w tx c cells db live cs h clk :
  p_state c = Pending → p_reactions c = [] →
  settle (length (w_promises w)) s (shape w tx (c :: cells) db live cs h clk)
  = shape w tx (set_settlement s c :: cells) db live cs h clk.
Proof.
  intros Hs Hr. rewrite <-(Nat.add_0_r (length (w_promises w))).
  by rewrite (sh_settle _ _ _ _ _ _ _ _ 0 s c).
Qed.

Lemma sh_settle_first_settled s w tx c cells db live cs h clk :
  p_state c ≠ Pending →
  settle (length (w_promises w)) s (shape w tx (c :: cells) db live cs h clk)
  = shape w tx (c :: cells) db live cs h clk.
Proof.
  intros Hs. rewrite <-(Nat.add_0_r (length (w_promises w))).
  by rewrite (sh_settle_settled _ _ _ _ _ _ _ _ 0 s c).
Qed.

(** ** The transaction of a write operation *)

Lemma quiet_lookup (rqs : list request) (r : nat) :
  quiet rqs → from_option rq_handlers no_handlers (rqs !! r) = no_handlers.
Proof.
  intros H. destruct (rqs !! r) as [rq|] eqn:E; [|done].
  simpl. eapply Forall_lookup_1 in H; [|done]. done.
Qed.

Lemma quiet_outcome (rqs : list request) (r : nat) v e :
  quiet rqs → quiet (alter (set_outcome v e) r rqs).
Proof.
  intros H. apply Forall_alter; [done|]. by intros rq.
Qed.

Lemma ops_outcome (rqs : list request) (r : nat) v e :
  rq_op <$> alter (set_outcome v e) r rqs = rq_op <$> rqs.
Proof.
  rewrite (list_fmap_alter rq_op _ id); [|by apply Forall_forall].
  by rewrite list_alter_id.
Qed.

Lemma execute_write os t r op rs cs :
  write_op op →
  (∃ e, execute os t r op rs cs = (inl e, rs, cs))
  ∨ (∃ v, execute os t r op rs cs = (inr v, effect rs op, cs)).
Proof.
  destruct op; simpl; try done; intros _; eauto.
  destruct (violates_unique os k v rs); eauto.
Qed.

Ltac step_in H lem :=
  erewrite lem in H; [|reflexivity|apply sh_tx|try first [reflexivity|eassumption|simpl; eassumption]..].

Ltac ww :=
  unfold write_world, fail_request, fire_error in *;
  repeat (rewrite ?sh_alter_tx, ?sh_alter_request, ?sh_set_db, ?sh_set_live,
            ?sh_set_cursors, ?sh_set_heap, ?sh_tick, ?sh_abort in * ).

Section write_run.
Variable faults : nat → option string.
Variables (w : world) (nm : string) (os : objectStore) (ops : list operation).
Hypothesis Hos : w_db w !! nm = Some os.
Hypothesis Hops : Forall write_op ops.

Lemma write_phase_step w1 w2 :
  write_phase w nm os ops w1 → step faults w1 = Some w2 →
  write_phase w nm os ops w2.
Proof.
  intros Hph Hstep. destruct Hph as [i rqs clk Hi Hrq Hquiet|rqs q e rs r clk Hquiet|rqs clk|rqs e rs r clk].
  - destruct (decide (i = length ops)) as [->|Hne].
    + (* commit *)
      rewrite Nat.sub_diag in Hstep. unfold write_world in Hstep.
      step_in Hstep step_commit.
      injection Hstep as <-. ww.
      erewrite fire_resolve; [|by rewrite sh_handlers_tx].
      rewrite sh_settle_first by done.
      rewrite take_ge by done. apply wp_committed.
    + assert (Hlt : (i < length ops)%nat) by lia.
      destruct (lookup_lt_is_Some_2 ops i Hlt) as [op Hop].
      assert (∃ rq, rqs !! i = Some rq ∧ rq_op rq = op) as (rq & Hrqi & Hrqop).
      { rewrite <-Hrq, list_lookup_fmap in Hop.
        destruct (rqs !! i) as [rq|]; [|done]. exists rq. split; [done|].
        by injection Hop. }
      replace (length ops - i)%nat with (S (length ops - S i)) in Hstep by lia.
      cbn [seq] in Hstep. unfold write_world in Hstep.
      destruct (faults clk) as [e|] eqn:Hf.
      * step_in Hstep step_fault.
        injection Hstep as <-. ww. 
        rewrite (fire_none _ (h_request _ _)) by (rewrite sh_handlers_request; cbn; by rewrite quiet_lookup by (by apply quiet_outcome)).
        erewrite fire_reject; [|by rewrite sh_handlers_tx].
        rewrite sh_settle_first by done. rewrite sh_error_tx. ww. cbn.
        apply (wp_failing w nm os ops). by apply quiet_outcome.
      * destruct (execute_write os (length (w_txs w)) i op
                    (foldl effect (os_records os) (take i ops)) (w_cursors w))
          as [[e Hex]|[v Hex]]; [by eapply Forall_lookup_1|..].
        -- step_in Hstep step_failure.
           2:{ simpl. rewrite Hos. simpl. rewrite Hrqop. exact Hex. }
           injection Hstep as <-. ww.
           rewrite (fire_none _ (h_request _ _)) by (rewrite sh_handlers_request; cbn; by rewrite quiet_lookup by (by apply quiet_outcome)).
           erewrite fire_reject; [|by rewrite sh_handlers_tx].
           rewrite sh_settle_first by done. rewrite sh_error_tx. ww. cbn.
           apply (wp_failing w nm os ops). by apply quiet_outcome.
        -- step_in Hstep step_success.
           2:{ simpl. rewrite Hos. simpl. rewrite Hrqop. exact Hex. }
           injection Hstep as <-. ww.
           rewrite (fire_none _ (h_request _ _)) by (rewrite sh_handlers_request; cbn; by rewrite quiet_lookup by (by apply quiet_outcome)).
           assert (Hrec : effect (foldl effect (os_records os) (take i ops)) op
                          = foldl effect (os_records os) (take (S i) ops)).
           { by rewrite (take_S_r _ _ _ Hop), foldl_app. }
           rewrite Hrec.
           apply (wp_running w nm os ops (S i) (alter (set_outcome v RNull) i rqs) (S clk));
             [lia|by rewrite ops_outcome|by apply quiet_outcome].
  - unfold write_world in Hstep. destruct q as [|r0 q].
    + step_in Hstep step_aborted. injection Hstep as <-. ww.
      erewrite fire_reject; [|by rewrite sh_handlers_tx].
      rewrite sh_settle_first_settled by done.
      apply (wp_aborted w nm os ops).
    + step_in Hstep step_aborting. injection Hstep as <-. ww.
      rewrite (fire_none _ (h_request _ _)) by (rewrite sh_handlers_request; cbn; by rewrite quiet_lookup by (by apply quiet_outcome)).
      erewrite fire_reject; [|by rewrite sh_handlers_tx].
      rewrite sh_settle_first_settled by done.
      apply (wp_failing w nm os ops). by apply quiet_outcome.
  - by rewrite step_quiescent in Hstep.
  - by rewrite step_quiescent in Hstep.
Qed.

Lemma write_phase_run n : ∀ w1,
  write_phase w nm os ops w1 → write_phase w nm os ops (run faults n w1).
Proof.
  induction n as [|n IH]; intros w1 H; simpl; [done|].
  destruct (step faults w1) as [w2|] eqn:E; [|done].
  apply IH. by eapply write_phase_step.
Qed.

Lemma write_phase_start :
  w_live w = [] →
  write_phase w nm os ops
    (after_call w (write_transaction nm os ops (length (w_promises w))) [new_cell []]).
Proof.
  intros Hq. rewrite after_call_shape, Hq.
  pose proof (wp_running w nm os ops 0 (new_request <$> ops) (w_clock w)) as H.
  rewrite Nat.sub_0_r in H. apply H; [lia| |].
  - rewrite <-list_fmap_compose. by rewrite list_fmap_id.
  - apply Forall_fmap, Forall_forall. done.
Qed.
End write_run.


(** ** What a call leaves behind: writes *)

Lemma store_registered {T} this db m (cb : IDBObjectStore → js world T) w os :
  store_field this = registered db → w_db w !! name this = Some os →
  store this m cb w
  = cb {| transaction_of := length (w_txs w) |}
       (after_call w (new_transaction (name this) m os) []).
Proof.
  intros Hreg Hos. unfold store. rewrite Hreg.
  rewrite js_bind_run. unfold db_transaction at 1. rewrite Hos.
  rewrite js_bind_run. unfold tx_objectStore at 1. cbn [w_txs set_live set_txs].
  rewrite lookup_snoc. cbn [new_transaction tx_store]. rewrite decide_True by done.
  f_equal. destruct w. unfold after_call, set_live, set_txs. simpl. by rewrite app_nil_r.
Qed.

Lemma ac_tx w tx cells : w_txs (after_call w tx cells) !! length (w_txs w) = Some tx.
Proof. apply lookup_snoc. Qed.

Lemma open_tx_snoc nm os ops op :
  set_queue (λ q, q ++ [length (tx_requests (open_tx nm os ops))])
    (set_requests (λ rs, rs ++ [new_request op]) (open_tx nm os ops))
  = open_tx nm os (ops ++ [op]).
Proof.
  unfold open_tx, set_queue, set_requests. simpl.
  rewrite length_fmap, fmap_app, length_app. simpl.
  by rewrite Nat.add_1_r, seq_S.
Qed.

Lemma place_open w nm os ops op :
  place (length (w_txs w)) op (after_call w (open_tx nm os ops) [])
  = (Return (h_request (length (w_txs w)) (length ops)),
     after_call w (open_tx nm os (ops ++ [op])) []).
Proof.
  unfold place. rewrite ac_tx. cbn [tx_status_of open_tx]. rewrite after_call_shape.
  rewrite sh_alter_tx, open_tx_snoc. f_equal. cbn [tx_requests open_tx].
  by rewrite length_fmap.
Qed.

Lemma put_open w nm os ops v k :
  w_db w !! nm = Some os →
  IDBObjectStore_put {| transaction_of := length (w_txs w) |} v k
    (after_call w (open_tx nm os ops) [])
  = match resolve_key os v k with
    | Some k' => (Return (h_request (length (w_txs w)) (length ops)),
                  after_call w (open_tx nm os (ops ++ [op_put k' v])) [])
    | None => (Throw (DOMException "DataError"), after_call w (open_tx nm os ops) [])
    end.
Proof.
  intros Hos. unfold IDBObjectStore_put, writable.
  rewrite js_bind_run. cbn [transaction_of]. rewrite ac_tx.
  cbn [fmap option_fmap option_map tx_mode open_tx].
  rewrite js_bind_run. unfold get_state at 1. rewrite ac_tx.
  cbn [mbind option_bind tx_store].
  change (w_db (after_call w (open_tx nm os ops) [])) with (w_db w).
  cbn [tx_store open_tx]. rewrite Hos.
  unfold resolve_key.
  destruct (os_keyPath os) as [path|], k as [k|]; try done.
  - destruct (key_at path v); [apply place_open|done].
  - apply place_open.
Qed.

Lemma delete_open w nm os ops k :
  IDBObjectStore_delete {| transaction_of := length (w_txs w) |} k
    (after_call w (open_tx nm os ops) [])
  = (Return (h_request (length (w_txs w)) (length ops)),
     after_call w (open_tx nm os (ops ++ [op_delete k])) []).
Proof.
  unfold IDBObjectStore_delete, writable.
  rewrite js_bind_run. cbn [transaction_of]. rewrite ac_tx.
  cbn [fmap option_fmap option_map tx_mode open_tx].
  apply place_open.
Qed.

Lemma clear_open w nm os ops :
  IDBObjectStore_clear {| transaction_of := length (w_txs w) |}
    (after_call w (open_tx nm os ops) [])
  = (Return (h_request (length (w_txs w)) (length ops)),
     after_call w (open_tx nm os (ops ++ [op_clear])) []).
Proof.
  unfold IDBObjectStore_clear, writable.
  rewrite js_bind_run. cbn [transaction_of]. rewrite ac_tx.
  cbn [fmap option_fmap option_map tx_mode open_tx].
  apply place_open.
Qed.

Lemma promisify_open w nm os ops :
  promisify (h_transaction (length (w_txs w))) (after_call w (open_tx nm os ops) [])
  = (Return (length (w_promises w)),
     after_call w (write_transaction nm os ops (length (w_promises w))) [new_cell []]).
Proof.
  unfold promisify, new_Promise, set_handlers. destruct w as [v d txs live cs ps h c].
  wnorm. by rewrite !app_nil_r.
Qed.

(** The loop of [setMany]: it stops at the first value [put] refuses,
    and the requests placed so far stay in the transaction. *)
Lemma setMany_loop w nm os values : ∀ ops,
  w_db w !! nm = Some os →
  for_each (λ entry,
              IDBObjectStore_put {| transaction_of := length (w_txs w) |} entry None
              ≫= λ _, mret tt) values
    (after_call w (open_tx nm os ops) [])
  = (if decide (all_keyed os values) then Return tt
     else Throw (DOMException "DataError"),
     after_call w (open_tx nm os (ops ++ accepted os values)) []).
Proof.
  induction values as [|v values IH]; intros ops Hos.
  - rewrite decide_True by constructor. cbn [for_each accepted]. by rewrite app_nil_r.
  - cbn [for_each accepted].
    rewrite js_bind_run, js_bind_run, put_open by done.
    destruct (resolve_key os v None) as [k|] eqn:Hk.
    + cbn [mret js_ret]. rewrite IH by done. rewrite <-app_assoc.
      f_equal. unfold all_keyed. destruct (decide (Forall _ values)) as [Hall|Hall].
      * rewrite decide_True; [done|]. constructor; [by rewrite Hk|done].
      * rewrite decide_False; [done|]. intros H. by inversion H.
    + rewrite app_nil_r. rewrite decide_False; [done|].
      intros H. inversion H as [|? ? [? Hs] ?]. congruence.
Qed.

Lemma setMany_sync this db values w os :
  store_field this = registered db → w_db w !! name this = Some os →
  setMany this values w
  = if decide (all_keyed os values)
    then (Return (length (w_promises w)),
          after_call w (write_transaction (name this) os (accepted os values)
                          (length (w_promises w))) [new_cell []])
    else (Throw (DOMException "DataError"),
          after_call w (open_tx (name this) os (accepted os values)) []).
Proof.
  intros Hreg Hos. unfold setMany.
  rewrite (store_registered this db _ _ w os) by done.
  change (new_transaction (name this) readwrite os) with (open_tx (name this) os []).
  rewrite js_bind_run, setMany_loop by done. simpl.
  destruct (decide (all_keyed os values)); [apply promisify_open|done].
Qed.

(** [set] and [update] place one [put], when [put] accepts the call. *)
Lemma set_sync_general this db v k w os :
  store_field this = registered db → w_db w !! name this = Some os →
  set this v k w
  = match resolve_key os v k with
    | Some k' =>
        (Return (length (w_promises w)),
         after_call w (write_transaction (name this) os [op_put k' v]
                         (length (w_promises w))) [new_cell []])
    | None => (Throw (DOMException "DataError"),
               after_call w (open_tx (name this) os []) [])
    end.
Proof.
  intros Hreg Hos. unfold set.
  rewrite (store_registered this db _ _ w os) by done.
  change (new_transaction (name this) readwrite os) with (open_tx (name this) os []).
  rewrite js_bind_run, put_open by done.
  destruct (resolve_key os v k); [apply promisify_open|done].
Qed.

Lemma update_is_set this v w : update this v w = set this v None w.
Proof. done. Qed.

(** Every write operation that returns a promise leaves the transaction
    of a write. *)
Lemma write_call_sync this db c w os p w1 :
  store_field this = registered db → w_db w !! name this = Some os →
  is_write c = true →
  perform this c w = (Return p, w1) →
  ∃ ops, Forall write_op ops ∧ p = length (w_promises w)
         ∧ w1 = after_call w (write_transaction (name this) os ops p) [new_cell []].
Proof.
  intros Hreg Hos Hw Hp.
  destruct c as [?|? ?|value k0|?|values|value|k0| |? ?|? ? ?|?|? ?]; try done; simpl in Hp.
  - rewrite (set_sync_general this db _ _ _ os) in Hp by done.
    destruct (resolve_key os value k0) as [k|]; [|done]. injection Hp as <- <-.
    exists [op_put k value]. split; [by repeat constructor|done].
  - rewrite (setMany_sync this db _ _ os) in Hp by done.
    destruct (decide (all_keyed os values)); [|done]. injection Hp as <- <-.
    exists (accepted os values). split; [|done].
    clear. induction values as [|v vs IH]; simpl; [constructor|].
    destruct (resolve_key os v None); by constructor.
  - rewrite update_is_set, (set_sync_general this db _ _ _ os) in Hp by done.
    destruct (resolve_key os value None) as [k|]; [|done]. injection Hp as <- <-.
    exists [op_put k value]. split; [by repeat constructor|done].
  - rewrite (del_sync this db _ _ os) in Hp by done. injection Hp as <- <-.
    exists [op_delete k0]. split; [by repeat constructor|done].
  - rewrite (clear_sync this db _ os) in Hp by done. injection Hp as <- <-.
    exists [op_clear]. split; [by repeat constructor|done].
Qed.

(** ** What a call leaves behind: reads *)

Lemma store_missing {T} this db m (cb : IDBObjectStore → js world T) w :
  store_field this = registered db → w_db w !! name this = None →
  store this m cb w = (Throw (DOMException "NotFoundError"), w).
Proof.
  intros Hreg Hos. unfold store. rewrite Hreg.
  rewrite js_bind_run. unfold db_transaction at 1. by rewrite Hos.
Qed.

Lemma storeIndex_missing {T} this db m i (cb : IDBIndex → js world T) w :
  storeIndex_field this = registered db → w_db w !! name this = None →
  storeIndex this m i cb w = (Throw (DOMException "NotFoundError"), w).
Proof.
  intros Hreg Hos. unfold storeIndex. rewrite Hreg.
  rewrite js_bind_run. unfold db_transaction at 1. by rewrite Hos.
Qed.

Lemma storeIndex_registered {T} this db m i (cb : IDBIndex → js world T) w os :
  storeIndex_field this = registered db → w_db w !! name this = Some os →
  storeIndex this m i cb w
  = match os_indexes os !! i with
    | Some _ => cb {| ix_store := {| transaction_of := length (w_txs w) |}; ix_name := i |}
                   (after_call w (new_transaction (name this) m os) [])
    | None => (Throw (DOMException "NotFoundError"),
               after_call w (new_transaction (name this) m os) [])
    end.
Proof.
  intros Hreg Hos. unfold storeIndex. rewrite Hreg.
  rewrite js_bind_run. unfold db_transaction at 1. rewrite Hos.
  rewrite js_bind_run. unfold tx_objectStore at 1. cbn [w_txs set_live set_txs].
  rewrite lookup_snoc. cbn [new_transaction tx_store]. rewrite decide_True by done.
  rewrite js_bind_run. unfold IDBObjectStore_index at 1.
  cbn [w_txs set_live set_txs transaction_of w_db]. rewrite lookup_snoc.
  cbn [mbind option_bind tx_store new_transaction]. rewrite Hos.
  assert (set_live (λ l, l ++ [length (w_txs w)])
            (set_txs (λ txs, txs ++ [new_transaction (name this) m os]) w)
          = after_call w (new_transaction (name this) m os) []) as ->.
  { destruct w. unfold after_call, set_live, set_txs. simpl. by rewrite app_nil_r. }
  by destruct (os_indexes os !! i).
Qed.

Lemma getByIndex_sync this db i v w os :
  storeIndex_field this = registered db → w_db w !! name this = Some os →
  getByIndex this i v w
  = match os_indexes os !! i, to_key v with
    | Some _, Some k =>
        (Return (length (w_promises w)),
         after_call w
           (single_request_tx (name this) os
              (promisified_request (op_get (FromIndex i) k) (length (w_promises w))))
           [new_cell []])
    | Some _, None => (Throw (DOMException "DataError"),
                       after_call w (new_transaction (name this) readonly os) [])
    | None, _ => (Throw (DOMException "NotFoundError"),
                  after_call w (new_transaction (name this) readonly os) [])
    end.
Proof.
  intros Hreg Hos. unfold getByIndex.
  rewrite (storeIndex_registered this db _ _ _ w os) by done.
  destruct (os_indexes os !! i); [|done].
  rewrite js_bind_run. unfold IDBIndex_get. destruct (to_key v) as [k|]; [|done].
  destruct w as [ver d txs live cs ps h c].
  unfold place, promisify, new_Promise, set_handlers, single_request_tx.
  wnorm. by rewrite !app_nil_r.
Qed.

Lemma cursor_sync this db cb range w os :
  store_field this = registered db → w_db w !! name this = Some os →
  cursor this cb range w
  = (Return (length (w_promises w)),
     after_call w
       (single_request_tx (name this) os
          (cursor_request (op_openCursor FromStore range) (length (w_promises w)) cb))
       [new_cell []]).
Proof.
  intros Hreg Hos. unfold cursor.
  rewrite (store_registered this db _ _ w os) by done.
  destruct w as [ver d txs live cs ps h c].
  unfold IDBObjectStore_openCursor, place, new_Promise, set_handlers,
    single_request_tx, cursor_request, cursor_handlers.
  wnorm. by rewrite !app_nil_r.
Qed.

Lemma cursorIndex_sync this db i cb range w os :
  storeIndex_field this = registered db → w_db w !! name this = Some os →
  cursorIndex this i cb range w
  = match os_indexes os !! i with
    | Some _ =>
        (Return (length (w_promises w)),
         after_call w
           (single_request_tx (name this) os
              (cursor_request (op_openCursor (FromIndex i) range)
                 (length (w_promises w)) cb))
           [new_cell []])
    | None => (Throw (DOMException "NotFoundError"),
               after_call w (new_transaction (name this) readonly os) [])
    end.
Proof.
  intros Hreg Hos. unfold cursorIndex.
  rewrite (storeIndex_registered this db _ _ _ w os) by done.
  destruct (os_indexes os !! i); [|done].
  destruct w as [ver d txs live cs ps h c].
  unfold IDBIndex_openCursor, place, new_Promise, set_handlers,
    single_request_tx, cursor_request, cursor_handlers.
  wnorm. by rewrite !app_nil_r.
Qed.

Lemma async_await_returned walk result w p tx :
  walk (set_promises (λ ps, ps ++ [new_cell []]) w)
  = (Return p, after_call (set_promises (λ ps, ps ++ [new_cell []]) w) tx [new_cell []]) →
  p = S (length (w_promises w)) →
  async_await walk result w
  = (Return (length (w_promises w)),
     shape w tx [new_cell []; awaited_cell (length (w_promises w)) result]
       (w_db w) (w_live w ++ [length (w_txs w)]) (w_cursors w) (w_heap w) (w_clock w)).
Proof.
  intros Hwalk ->. unfold async_await. rewrite Hwalk.
  destruct w as [ver d txs live cs ps h c].
  unfold subscribe, state_of, after_call, shape, awaited_cell. wnorm.
  replace (S (length ps)) with (length (ps ++ [settled_cell Pending]))
    by (rewrite length_app; simpl; lia).
  unfold settled_cell. rewrite lookup_snoc. wnorm.
  by rewrite <-app_assoc.
Qed.

Lemma async_await_threw walk result w e w' :
  walk (set_promises (λ ps, ps ++ [new_cell []]) w) = (Throw e, w') →
  async_await walk result w
  = (Return (length (w_promises w)), settle (length (w_promises w)) (Rejected (RExn e)) w').
Proof. intros Hwalk. unfold async_await. by rewrite Hwalk. Qed.

Lemma getAll_sync this db range w os :
  store_field this = registered db → w_db w !! name this = Some os →
  getAll this range w
  = (Return (length (w_promises w)),
     shape w
       (single_request_tx (name this) os
          (cursor_request (op_openCursor FromStore range) (S (length (w_promises w)))
             (push_value (length (w_heap w)))))
       [new_cell []; awaited_cell (length (w_promises w)) (VRef (length (w_heap w)))]
       (w_db w) (w_live w ++ [length (w_txs w)]) (w_cursors w) (w_heap w ++ [[]])
       (w_clock w)).
Proof.
  intros Hreg Hos. unfold getAll, new_array.
  rewrite js_bind_run.
  erewrite async_await_returned.
  - reflexivity.
  - rewrite (cursor_sync this db _ _ _ os) by done. cbn [w_promises set_promises set_heap].
    rewrite length_app. cbn [length]. rewrite Nat.add_1_r. reflexivity.
  - done.
Qed.

Lemma getAllByIndex_sync this db i range w os :
  storeIndex_field this = registered db → w_db w !! name this = Some os →
  getAllByIndex this i range w
  = (Return (length (w_promises w)),
     match os_indexes os !! i with
     | Some _ =>
         shape w
           (single_request_tx (name this) os
              (cursor_request (op_openCursor (FromIndex i) range)
                 (S (length (w_promises w))) (push_value (length (w_heap w)))))
           [new_cell []; awaited_cell (length (w_promises w)) (VRef (length (w_heap w)))]
           (w_db w) (w_live w ++ [length (w_txs w)]) (w_cursors w) (w_heap w ++ [[]])
           (w_clock w)
     | None =>
         shape w (new_transaction (name this) readonly os)
           [settled_cell (Rejected (RExn (DOMException "NotFoundError")))]
           (w_db w) (w_live w ++ [length (w_txs w)]) (w_cursors w) (w_heap w ++ [[]])
           (w_clock w)
     end).
Proof.
  intros Hreg Hos. unfold getAllByIndex, new_array.
  rewrite js_bind_run.
  destruct (os_indexes os !! i) as [ix|] eqn:Hix.
  - erewrite async_await_returned.
    + reflexivity.
    + rewrite (cursorIndex_sync this db _ _ _ _ os) by done. rewrite Hix.
      cbn [w_promises set_promises set_heap].
      rewrite length_app. cbn [length]. rewrite Nat.add_1_r. reflexivity.
    + done.
  - erewrite async_await_threw.
    2:{ rewrite (cursorIndex_sync this db _ _ _ _ os) by done. rewrite Hix. reflexivity. }
    cbn [w_promises set_heap]. f_equal.
    destruct w as [ver d txs live cs ps h c].
    unfold after_call, set_promises, set_heap. cbn. rewrite app_nil_r.
    change {| w_version := ver; w_db := d;
              w_txs := txs ++ [new_transaction (name this) readonly os];
              w_live := live ++ [length txs]; w_cursors := cs;
              w_promises := ps ++ [new_cell []]; w_heap := h ++ [[]]; w_clock := c |}
      with (shape {| w_version := ver; w_db := d; w_txs := txs; w_live := live;
                     w_cursors := cs; w_promises := ps; w_heap := h; w_clock := c |}
              (new_transaction (name this) readonly os) [new_cell []] d
              (live ++ [length txs]) cs (h ++ [[]]) c).
    change (length ps) with (length (w_promises {| w_version := ver; w_db := d; w_txs := txs; w_live := live;
                     w_cursors := cs; w_promises := ps; w_heap := h; w_clock := c |})).
    by rewrite sh_settle_first.
Qed.

Section shape_promises.
Variables (w : world) (tx : transaction) (cells : list promise) (db : database)
  (live : list nat) (cs : list cursor_object) (h : heap) (clk : nat).
Local Abbreviation W := (shape w tx cells db live cs h clk).

Lemma sh_promises_length : length (w_promises W) = (length (w_promises w) + length cells)%nat.
Proof. unfold shape. simpl. by rewrite length_app. Qed.

Lemma sh_alloc c :
  set_promises (λ ps, ps ++ [c]) W = shape w tx (cells ++ [c]) db live cs h clk.
Proof. unfold set_promises, shape. simpl. by rewrite app_assoc. Qed.

Lemma sh_alter_promise (f : promise → promise) (j : nat) :
  set_promises (alter f (length (w_promises w) + j)%nat) W
  = shape w tx (alter f j cells) db live cs h clk.
Proof. unfold set_promises, shape. simpl. by rewrite alter_app_r. Qed.

Lemma sh_subscribe j r c :
  cells !! j = Some c → p_state c = Pending →
  subscribe (length (w_promises w) + j) r W
  = (Return tt, shape w tx (alter (add_reaction r) j cells) db live cs h clk).
Proof.
  intros Hc Hs. unfold subscribe. rewrite sh_state, Hc. simpl. rewrite Hs.
  by rewrite sh_alter_promise.
Qed.
End shape_promises.

Lemma read_transaction_snoc nm os keys k p0 :
  set_requests (alter (set_rq_handlers (promisified (p0 + length keys)%nat)) (length keys))
    (set_queue (λ q, q ++ [length keys])
       (set_requests (λ rs, rs ++ [new_request (op_get FromStore k)])
          (read_transaction nm os keys p0)))
  = read_transaction nm os (keys ++ [k]) p0.
Proof.
  unfold read_transaction, set_requests, set_queue. simpl. f_equal.
  - rewrite <-(length_imap (λ i k0, promisified_request (op_get FromStore k0) (p0 + i)) keys) at 2.
    rewrite alter_snoc, imap_app. simpl. by rewrite Nat.add_0_r.
  - rewrite length_app. simpl. by rewrite Nat.add_1_r, seq_S.
Qed.

Lemma promisify_request_shape w tx cells db live cs h clk r rq :
  tx_requests tx !! r = Some rq →
  promisify (h_request (length (w_txs w)) r) (shape w tx cells db live cs h clk)
  = (Return (length (w_promises w) + length cells)%nat,
     shape w (set_requests (alter (set_rq_handlers
                 (promisified (length (w_promises w) + length cells)%nat)) r) tx)
       (cells ++ [new_cell []]) db live cs h clk).
Proof.
  intros Hrq. unfold promisify, new_Promise, set_handlers.
  rewrite sh_promises_length, sh_alloc.
  unfold modify.
  repeat (progress (rewrite ?js_bind_run; cbv beta iota; rewrite ?sh_alter_request)).
  f_equal. f_equal.
  destruct tx as [s m rqs q hs e st rs]. unfold set_requests. simpl. f_equal.
  rewrite !list_alter_alter_eq.
  apply list_alter_ext; [|done]. intros x _. done.
Qed.

Lemma read_transaction_length nm os keys p0 :
  length (tx_requests (read_transaction nm os keys p0)) = length keys.
Proof. unfold read_transaction. simpl. apply length_imap. Qed.

Lemma get_promisify_round w nm os keys k db live cs h clk :
  (IDBObjectStore_get {| transaction_of := length (w_txs w) |} k ≫= promisify)
    (shape w (read_transaction nm os keys (length (w_promises w)))
       (replicate (length keys) (new_cell [])) db live cs h clk)
  = (Return (length (w_promises w) + length keys)%nat,
     shape w (read_transaction nm os (keys ++ [k]) (length (w_promises w)))
       (replicate (length (keys ++ [k])) (new_cell [])) db live cs h clk).
Proof.
  rewrite js_bind_run. unfold IDBObjectStore_get, place. cbn [transaction_of].
  rewrite sh_tx. cbn [tx_status_of read_transaction]. rewrite sh_alter_tx.
  rewrite !read_transaction_length.
  erewrite promisify_request_shape.
  2:{ unfold set_queue, set_requests. cbn [tx_requests].
      rewrite <-(read_transaction_length nm os keys (length (w_promises w))).
      apply lookup_snoc. }
  rewrite length_replicate. f_equal. f_equal.
  - apply read_transaction_snoc.
  - rewrite length_app. simpl. by rewrite Nat.add_1_r, replicate_S_end.
Qed.

Lemma getMany_loop w nm os db live cs h clk keys : ∀ keys0,
  map_js (λ key, IDBObjectStore_get {| transaction_of := length (w_txs w) |} key
                 ≫= promisify) keys
    (shape w (read_transaction nm os keys0 (length (w_promises w)))
       (replicate (length keys0) (new_cell [])) db live cs h clk)
  = (Return (seq (length (w_promises w) + length keys0) (length keys)),
     shape w (read_transaction nm os (keys0 ++ keys) (length (w_promises w)))
       (replicate (length (keys0 ++ keys)) (new_cell [])) db live cs h clk).
Proof.
  induction keys as [|k keys IH]; intros keys0.
  - cbn [map_js]. by rewrite app_nil_r.
  - cbn [map_js]. rewrite js_bind_run, get_promisify_round.
    rewrite js_bind_run, IH. cbn [mret js_ret].
    rewrite <-app_assoc. cbn [app length seq]. rewrite length_app. cbn [length].
    unfold mret, js_ret.
    by replace (length (w_promises w) + (length keys0 + 1))%nat
      with (S (length (w_promises w) + length keys0)) by lia.
Qed.

Lemma alter_middle {A} (f : A → A) (l1 l2 : list A) (x : A) i :
  i = length l1 → alter f i (l1 ++ x :: l2) = l1 ++ f x :: l2.
Proof.
  intros ->. induction l1 as [|y l1 IH]; simpl; [done|]. f_equal. exact IH.
Qed.

Lemma subscribe_all_pending w tx db live cs h clk q m : ∀ i done_cells rest,
  length done_cells = i →
  subscribe_all q i (seq (length (w_promises w) + i) m)
    (shape w tx (done_cells ++ replicate m (new_cell []) ++ rest) db live cs h clk)
  = (Return tt,
     shape w tx (done_cells ++ (waiting_cell q <$> seq i m) ++ rest) db live cs h clk).
Proof.
  induction m as [|m IH]; intros i done_cells rest Hlen; [done|].
  cbn [seq subscribe_all replicate fmap list_fmap app].
  rewrite js_bind_run.
  erewrite (sh_subscribe _ _ _ _ _ _ _ _ i _ (new_cell []));
    [|by apply list_lookup_middle|done].
  rewrite alter_middle by done.
  change (add_reaction (all_element q i) (new_cell [])) with (waiting_cell q i).
  specialize (IH (S i) (done_cells ++ [waiting_cell q i]) rest).
  rewrite <-!app_assoc in IH. cbn [app] in IH.
  replace (length (w_promises w) + S i)%nat with (S (length (w_promises w) + i)) in IH by lia.
  apply IH. rewrite length_app. simpl. lia.
Qed.

Lemma Promise_all_fresh w tx db live cs h clk n :
  Promise_all (seq (length (w_promises w)) n)
    (shape w tx (replicate n (new_cell [])) db live cs h clk)
  = (Return (length (w_promises w) + n)%nat,
     shape w tx (getMany_cells (length (w_promises w)) n) db live cs h clk).
Proof.
  unfold Promise_all. rewrite sh_promises_length, length_replicate, length_seq, sh_alloc.
  assert (Hq : match seq (length (w_promises w)) n with
               | [] => settle (length (w_promises w) + n)
                         (Fulfilled (VArr []))
                         (shape w tx (replicate n (new_cell [])
                                      ++ [new_cell (replicate n VUndefined)])
                            db live cs h clk)
               | _ :: _ => shape w tx (replicate n (new_cell [])
                                      ++ [new_cell (replicate n VUndefined)])
                            db live cs h clk
               end
               = shape w tx (replicate n (new_cell []) ++ [all_cell n]) db live cs h clk).
  { destruct n as [|n]; [|done]. cbn [seq replicate app].
    rewrite (sh_settle _ _ _ _ _ _ _ _ 0 _ (new_cell [])) by done. done. }
  rewrite Hq.
  pose proof (subscribe_all_pending w tx db live cs h clk (length (w_promises w) + n) n
                0 [] [all_cell n] eq_refl) as H.
  rewrite Nat.add_0_r in H. cbn [app] in H. rewrite H. done.
Qed.

Lemma getMany_sync this db keys w os :
  store_field this = registered db → w_db w !! name this = Some os →
  getMany this keys w
  = (Return (length (w_promises w) + length keys)%nat,
     after_call w (read_transaction (name this) os keys (length (w_promises w)))
       (getMany_cells (length (w_promises w)) (length keys))).
Proof.
  intros Hreg Hos. unfold getMany.
  rewrite (store_registered this db _ _ w os) by done.
  rewrite js_bind_run.
  change (after_call w (new_transaction (name this) readonly os) [])
    with (shape w (read_transaction (name this) os [] (length (w_promises w)))
            (replicate (length (@nil key)) (new_cell []))
            (w_db w) (w_live w ++ [length (w_txs w)]) (w_cursors w) (w_heap w) (w_clock w)).
  rewrite getMany_loop. cbn [app length]. rewrite Nat.add_0_r.
  by rewrite Promise_all_fresh.
Qed.

Lemma read_tx_at_0 nm os keys p0 :
  read_transaction nm os keys p0 = read_tx_at nm os keys p0 0.
Proof.
  unfold read_transaction, read_tx_at. rewrite Nat.sub_0_r. by f_equal.
Qed.

Lemma read_cells_at_0 os keys p0 :
  getMany_cells p0 (length keys) = read_cells_at os keys p0 0.
Proof.
  unfold getMany_cells, read_cells_at. f_equal.
  - rewrite <-(imap_seq_0 keys (waiting_cell (p0 + length keys))).
    apply imap_ext. intros j k _. done.
  - f_equal. unfold all_cell, all_cell_at. rewrite Nat.sub_0_r. cbn [take fmap list_fmap app].
    destruct keys as [|k keys]; [done|]. cbn [length].
    unfold new_cell. rewrite length_replicate. rewrite decide_False by lia. done.
Qed.

(** Settling a pending promise whose one reaction feeds slot [i] of the
    [Promise.all] promise at [q]. *)
Lemma sh_settle_element w tx cells db live cs h clk j q i v c qc :
  cells !! j = Some c → p_state c = Pending → p_reactions c = [all_element (length (w_promises w) + q) i] →
  j ≠ q → cells !! q = Some qc → p_state qc = Pending →
  settle (length (w_promises w) + j) (Fulfilled v) (shape w tx cells db live cs h clk)
  = shape w tx
      (alter (λ qc, if decide (pred (p_remaining qc) = 0)%nat
                    then set_settlement (Fulfilled (VArr (<[i := v]> (p_values qc))))
                           (set_element i v qc)
                    else set_element i v qc) q
         (alter (set_settlement (Fulfilled v)) j cells))
      db live cs h clk.
Proof.
  intros Hc Hs Hr Hne Hqc Hqs. unfold settle.
  assert (Hl : w_promises (shape w tx cells db live cs h clk) !! (length (w_promises w) + j)%nat = Some c).
  { unfold shape. simpl. rewrite lookup_app_r by lia.
    by replace (length (w_promises w) + j - length (w_promises w))%nat with j by lia. }
  rewrite Hl, Hs, Hr. cbn [foldl].
  unfold settle_only. rewrite sh_alter_promise.
  unfold react.
  assert (Hq : w_promises (shape w tx (alter (settle_cell (Fulfilled v)) j cells) db live cs h clk)
               !! (length (w_promises w) + q)%nat = Some qc).
  { unfold shape. simpl. rewrite lookup_app_r by lia.
    replace (length (w_promises w) + q - length (w_promises w))%nat with q by lia.
    by rewrite list_lookup_alter_ne. }
  rewrite Hq. rewrite sh_alter_promise.
  assert (Ha : alter (settle_cell (Fulfilled v)) j cells = alter (set_settlement (Fulfilled v)) j cells).
  { apply list_alter_ext; [|done]. intros x Hx. rewrite Hc in Hx. injection Hx as <-.
    unfold settle_cell. by rewrite Hs. }
  rewrite Ha.
  case_decide as Hrem.
  - unfold settle_only. rewrite sh_alter_promise. f_equal.
    rewrite list_alter_alter_eq. apply list_alter_ext; [|done].
    intros x Hx. rewrite list_lookup_alter_ne in Hx by done. rewrite Hqc in Hx. injection Hx as <-.
    cbn. rewrite decide_True by done. unfold settle_cell. cbn. by rewrite Hqs.
  - f_equal. apply list_alter_ext; [|done].
    intros x Hx. rewrite list_lookup_alter_ne in Hx by done. rewrite Hqc in Hx. injection Hx as <-.
    by rewrite decide_False.
Qed.

Lemma alter_imap_step {A B} (f g : nat → A → B) (u : B → B) (l : list A) i :
  (∀ k, l !! i = Some k → u (f i k) = g i k) →
  (∀ j k, j ≠ i → l !! j = Some k → f j k = g j k) →
  alter u i (imap f l) = imap g l.
Proof.
  intros Hi Hne. apply list_eq. intros j.
  rewrite list_lookup_alter, !list_lookup_imap.
  destruct (decide (i = j)) as [<-|Hj].
  - destruct (l !! i) as [k|] eqn:E; simpl; [|done]. by rewrite Hi.
  - destruct (l !! j) as [k|] eqn:E; simpl; [|done]. by rewrite Hne.
Qed.

Section read_run.
Variable faults : nat → option string.
Variables (w : world) (nm : string) (os : objectStore) (keys : list key).
Hypothesis Hos : w_db w !! nm = Some os.
Local Abbreviation p0 := (length (w_promises w)).
Local Abbreviation t := (length (w_txs w)).
Local Abbreviation n := (length keys).

Lemma read_step i cs h clk :
  (i < n)%nat → faults clk = None →
  step faults (shape w (read_tx_at nm os keys p0 i) (read_cells_at os keys p0 i)
                 (w_db w) [t] cs h clk)
  = Some (shape w (read_tx_at nm os keys p0 (S i)) (read_cells_at os keys p0 (S i))
            (w_db w) [t] cs h (S clk)).
Proof.
  intros Hi Hf.
  destruct (lookup_lt_is_Some_2 keys i Hi) as [k Hk].
  erewrite step_success; [|reflexivity|apply sh_tx| | | | |].
  2:{ cbn [tx_queue read_tx_at].
      replace (n - i)%nat with (S (n - S i)) by lia. reflexivity. }
  2:{ reflexivity. }
  2:{ exact Hf. }
  2:{ cbn [tx_requests read_tx_at]. rewrite list_lookup_imap, Hk. reflexivity. }
  2:{ cbn [w_db shape tx_store read_tx_at rq_op tx_records w_cursors]. rewrite Hos.
      reflexivity. }
  f_equal.
  repeat (rewrite ?sh_alter_tx, ?sh_alter_request, ?sh_set_db, ?sh_set_live,
            ?sh_set_cursors, ?sh_set_heap, ?sh_tick).
  erewrite fire_resolve.
  2:{ rewrite sh_handlers_request. cbn [tx_requests set_records set_requests set_queue read_tx_at].
      rewrite list_lookup_alter_eq, list_lookup_imap, Hk. reflexivity. }
  rewrite sh_result_request.
  cbn [tx_requests set_records set_requests set_queue read_tx_at].
  rewrite list_lookup_alter_eq, list_lookup_imap, Hk.
  cbn [fmap option_fmap option_map from_option set_outcome rq_result default id].
  unfold read_cells_at at 1.
  erewrite (sh_settle_element _ _ _ _ _ _ _ _ i n i).
  2:{ rewrite lookup_app_l by (by rewrite length_imap).
      rewrite list_lookup_imap, Hk. reflexivity. }
  2:{ cbn. by rewrite decide_False by lia. }
  2:{ reflexivity. }
  2:{ lia. }
  2:{ apply list_lookup_middle. by rewrite length_imap. }
  2:{ cbn. by rewrite decide_False by lia. }
  f_equal.
  - (* the transaction *)
    unfold read_tx_at, set_records, set_requests, set_queue. cbn. f_equal.
    apply alter_imap_step.
    + intros k' Hk'. cbn. rewrite decide_False by lia. rewrite decide_True by lia.
      rewrite Hk in Hk'. by injection Hk' as <-.
    + intros j k' Hj Hk'. f_equal.
      destruct (decide (j < i)%nat), (decide (j < S i)%nat); try done; lia.
  - (* the promises *)
    unfold read_cells_at.
    rewrite alter_app_l by (by rewrite length_imap).
    rewrite <-(length_imap (element_cell_at os (p0 + n) i) keys) at 1.
    rewrite <-(length_alter (set_settlement (Fulfilled (stored (os_records os) k))) _ i).
    rewrite alter_snoc. f_equal.
    + apply alter_imap_step.
      * intros k' Hk'. rewrite Hk in Hk'. injection Hk' as <-.
        unfold element_cell_at, set_settlement. cbn. by rewrite decide_True by lia.
      * intros j k' Hj Hk'. unfold element_cell_at. f_equal.
        destruct (decide (j < i)%nat), (decide (j < S i)%nat); try done; lia.
    + f_equal. unfold all_cell_at, set_element, set_settlement. cbn.
      assert (Hvals : <[i := stored (os_records os) k]>
                        ((stored (os_records os) <$> take i keys) ++ replicate (n - i) VUndefined)
                      = (stored (os_records os) <$> take (S i) keys)
                        ++ replicate (n - S i) VUndefined).
      { replace (n - i)%nat with (S (n - S i)) by lia. cbn [replicate].
        rewrite (take_S_r _ _ _ Hk), fmap_app. cbn.
        rewrite <-app_assoc. cbn.
        replace i with (length (stored (os_records os) <$> take i keys) + 0)%nat at 1.
        2:{ rewrite length_fmap, length_take. lia. }
        by rewrite insert_app_r. }
      replace (pred (n - i)) with (n - S i)%nat by lia.
      change (default VUndefined (records_get k (os_records os)))
        with (stored (os_records os) k).
      rewrite Hvals.
      destruct (decide (n - S i = 0)%nat) as [Hz|Hz].
      * rewrite (decide_True (P := (S i = n))) by lia.
        rewrite Hz. cbn [replicate]. rewrite app_nil_r.
        by rewrite take_ge by lia.
      * rewrite (decide_False (P := (S i = n))) by lia.
        by rewrite (decide_False (P := (i = n))) by lia.
Qed.

End read_run.

Lemma read_steps w nm os keys m : ∀ i cs h clk,
  w_db w !! nm = Some os →
  (i + m = length keys)%nat →
  run no_faults m
    (shape w (read_tx_at nm os keys (length (w_promises w)) i)
       (read_cells_at os keys (length (w_promises w)) i)
       (w_db w) [length (w_txs w)] cs h clk)
  = shape w (read_tx_at nm os keys (length (w_promises w)) (length keys))
      (read_cells_at os keys (length (w_promises w)) (length keys))
      (w_db w) [length (w_txs w)] cs h (clk + m).
Proof.
  induction m as [|m IH]; intros i cs h clk Hos Him.
  - replace i with (length keys) by lia. cbn [run]. by rewrite Nat.add_0_r.
  - cbn [run]. rewrite (read_step no_faults w nm os keys Hos) by (done || lia).
    rewrite IH by (done || lia). f_equal. lia.
Qed.

Lemma commit_unchanged (db : database) nm os :
  db !! nm = Some os → alter (with_records (os_records os)) nm db = db.
Proof.
  intros H. apply map_eq. intros i. destruct (decide (nm = i)) as [<-|Hne].
  - rewrite lookup_alter_eq, H. simpl. by rewrite with_records_id.
  - by rewrite lookup_alter_ne.
Qed.

(** ** Reading transactions leave the database alone *)

Lemma execute_read os t r op rs cs :
  ¬ write_op op → ∃ v cs', execute os t r op rs cs = (inr v, rs, cs').
Proof.
  destruct op as [src k|k v|k| |src range|c]; simpl; try (intros H; by destruct H).
  - intros _. destruct src; eauto.
  - intros _. destruct (seek range None (view_of os src rs)); eauto.
  - intros _. destruct (cs !! c); eauto.
Qed.

Section only_reading.
Variable d : database.

Lemma reading_outcome tx r v e :
  reading d tx → reading d (set_requests (alter (set_outcome v e) r) tx).
Proof.
  intros (os & H1 & H2 & H3). exists os. split; [done|]. split; [done|].
  simpl. apply Forall_alter; [done|]. by intros rq.
Qed.

Lemma reading_continue tx r c :
  reading d tx → reading d (set_requests (alter (set_op (op_continue c)) r) tx).
Proof.
  intros (os & H1 & H2 & H3). exists os. split; [done|]. split; [done|].
  simpl. apply Forall_alter; [done|]. intros rq _. simpl. tauto.
Qed.

Lemma reading_same tx tx' :
  tx_store tx' = tx_store tx → tx_records tx' = tx_records tx →
  tx_requests tx' = tx_requests tx → reading d tx → reading d tx'.
Proof. intros E1 E2 E3 (os & H1 & H2 & H3). exists os. by rewrite E1, E2, E3. Qed.

Lemma only_reading_alter_at t f w :
  (∀ tx, w_txs w !! t = Some tx → reading d tx → reading d (f tx)) →
  only_reading d w → only_reading d (alter_tx t f w).
Proof.
  intros Hf [Hd Hlive]. split; [done|]. intros t' tx' Ht' Htx'.
  unfold alter_tx, set_txs in Htx'. simpl in *.
  rewrite list_lookup_alter in Htx'. case_decide as Heq.
  - subst t'. destruct (w_txs w !! t) as [tx|] eqn:E; [|done].
    injection Htx' as <-. apply Hf; eauto.
  - eauto.
Qed.

Lemma only_reading_alter_tx t f w :
  (∀ tx, reading d tx → reading d (f tx)) →
  only_reading d w → only_reading d (alter_tx t f w).
Proof. intros Hf. apply only_reading_alter_at. intros tx _. apply Hf. Qed.

Lemma only_reading_engine_part w w' :
  engine_part w' = engine_part w → only_reading d w → only_reading d w'.
Proof.
  unfold engine_part. intros H [Hd Hlive].
  injection H as Hv Hdb Htxs Hl Hc Hh Hk.
  split; [congruence|]. rewrite Hl, Htxs. done.
Qed.

Lemma only_reading_settle p s w : only_reading d w → only_reading d (settle p s w).
Proof. apply only_reading_engine_part, settle_engine_part. Qed.

Lemma only_reading_continue c w :
  only_reading d w → only_reading d (cursor_continue c w).2.
Proof.
  intros H. unfold cursor_continue.
  destruct c; try done. destruct (w_cursors w !! c) as [cu|]; [|done].
  destruct (cu_position cu); [|done].
  destruct (tx_status_of <$> w_txs w !! cu_tx cu) as [[]|]; try done.
  simpl. apply only_reading_alter_tx.
  - intros tx. by apply reading_same.
  - unfold alter_request. apply only_reading_alter_tx; [|done].
    intros tx. apply reading_continue.
Qed.

Lemma only_reading_invoke c h w :
  only_reading d w → only_reading d (invoke c h w).2.
Proof.
  intros H. destruct c as [p|p|p cb|p|cb]; simpl.
  - by apply only_reading_settle.
  - by apply only_reading_settle.
  - unfold mbind, js_bind, get_state. simpl.
    destruct (falsy (result_of h w)); simpl; [by apply only_reading_settle|].
    unfold modify. simpl.
    apply only_reading_continue. destruct H as [Hd Hl]. by split.
  - by apply only_reading_settle.
  - unfold mbind, js_bind, get_state. simpl.
    destruct (falsy (result_of h w)); simpl; [done|].
    unfold modify. simpl.
    apply only_reading_continue. destruct H as [Hd Hl]. by split.
Qed.

Lemma only_reading_abort t e w : only_reading d w → only_reading d (abort t e w).
Proof.
  intros H. unfold abort. apply only_reading_alter_tx; [|done].
  intros tx Htx. destruct (tx_status_of tx); try done.
Qed.

Lemma only_reading_fire t h which w :
  only_reading d w → only_reading d (fire t h which w).
Proof.
  intros H. unfold fire. destruct (which (handlers_of h w)) as [c|]; [|done].
  pose proof (only_reading_invoke c h w H) as Hi.
  destruct (invoke c h w) as [[?|?] w']; simpl in Hi; [done|].
  by apply only_reading_abort.
Qed.

Lemma only_reading_fail_request t r e w :
  only_reading d w → only_reading d (fail_request t r e w).
Proof.
  intros H. unfold fail_request, fire_error.
  apply only_reading_abort, only_reading_fire, only_reading_fire.
  unfold alter_request. apply only_reading_alter_tx; [|done].
  intros tx. apply reading_outcome.
Qed.

Lemma only_reading_set_live f w :
  (∀ t, t ∈ f (w_live w) → t ∈ w_live w) →
  only_reading d w → only_reading d (set_live f w).
Proof. intros Hf [Hd Hl]. split; [done|]. intros t tx Ht. apply Hl. by apply Hf. Qed.

Lemma only_reading_step faults w w' :
  only_reading d w → step faults w = Some w' → only_reading d w'.
Proof.
  intros H Hstep. unfold step in Hstep.
  destruct (w_live w) as [|t l] eqn:Hlive; [done|].
  assert (Hl : ∀ t', t' ∈ l → t' ∈ w_live w) by (intros t' ?; rewrite Hlive; by right).
  destruct (w_txs w !! t) as [tx|] eqn:Htx.
  2:{ injection Hstep as <-. by apply only_reading_set_live. }
  assert (Hr : reading d tx).
  { destruct H as [_ H]. apply (H t); [rewrite Hlive; left|done]. }
  assert (H1 : ∀ q, only_reading d (tick (alter_tx t (set_queue (λ _, q)) w))).
  { intros q. pose proof (only_reading_alter_tx t (set_queue (λ _, q)) w) as Ha.
    destruct Ha as [Hd Hx]; [intros ?; by apply reading_same|done|]. by split. }
  destruct (tx_queue tx) as [|r q] eqn:Hq.
  - injection Hstep as <-.
    assert (H2 : only_reading d (set_live (λ _, l) w)) by (by apply only_reading_set_live).
    destruct (tx_status_of tx); try done.
    + apply only_reading_fire. apply only_reading_alter_tx.
      { intros ?. by apply reading_same. }
      destruct H2 as [Hd Hx]. split; [|done]. simpl.
      destruct Hr as (os & Ho1 & Ho2 & _). simpl in Hd. rewrite Ho2, Hd.
      by apply commit_unchanged.
    + apply only_reading_fire. apply only_reading_alter_tx; [|done].
      intros ?. by apply reading_same.
  - injection Hstep as <-.
    assert (H3 : ∀ v e, only_reading d
               (alter_request t r (set_outcome v e) (tick (alter_tx t (set_queue (λ _, q)) w)))).
    { intros v e. unfold alter_request. apply only_reading_alter_tx; [|done].
      intros ?. apply reading_outcome. }
    destruct (tx_status_of tx).
    + destruct (faults (w_clock w)) as [e|]; [by apply only_reading_fail_request|].
      destruct (tx_requests tx !! r) as [rq|] eqn:Hrq; [|done].
      assert (Hread : ¬ write_op (rq_op rq)).
      { destruct Hr as (os & _ & _ & Hall). by eapply Forall_lookup_1 in Hall. }
      destruct (execute_read (default empty_store (w_db w !! tx_store tx)) t r
                  (rq_op rq) (tx_records tx) (w_cursors w) Hread) as (v & cs' & ->).
      apply only_reading_fire.
      pose proof (only_reading_alter_at t (set_records (tx_records tx))
                    (alter_request t r (set_outcome v RNull)
                       (tick (alter_tx t (set_queue (λ _, q)) w)))) as Ha.
      destruct Ha as [Hd Hx]; [|done|by split].
      intros tx' Htx'. unfold alter_request in Htx'.
      rewrite tx_alter_tx in Htx'.
      change (w_txs (tick ?x)) with (w_txs x) in Htx'.
      rewrite tx_alter_tx, Htx in Htx'. injection Htx' as <-.
      by apply reading_same.
    + unfold fire_error. by apply only_reading_fire, only_reading_fire.
    + unfold fire_error. by apply only_reading_fire, only_reading_fire.
    + unfold fire_error. by apply only_reading_fire, only_reading_fire.
Qed.

Lemma only_reading_run faults n : ∀ w,
  only_reading d w → only_reading d (run faults n w).
Proof.
  induction n as [|n IH]; intros w H; simpl; [done|].
  destruct (step faults w) as [w'|] eqn:E; [|done].
  apply IH. by eapply only_reading_step.
Qed.
End only_reading.

(** ** Runs of a read of some keys *)

Lemma read_cells_at_last os keys p0 i :
  read_cells_at os keys p0 i !! length keys = Some (all_cell_at os keys i).
Proof.
  unfold read_cells_at. apply list_lookup_middle. by rewrite length_imap.
Qed.

Lemma read_commit w nm os keys p0 cells cs h clk :
  w_db w !! nm = Some os →
  step no_faults
    (shape w (read_tx_at nm os keys p0 (length keys)) cells (w_db w)
       [length (w_txs w)] cs h clk)
  = Some (shape w (set_status Committed (read_tx_at nm os keys p0 (length keys)))
            cells (w_db w) [] cs h clk).
Proof.
  intros Hos.
  erewrite step_commit; [|reflexivity|apply sh_tx|..].
  - rewrite sh_set_live, sh_set_db, sh_alter_tx.
    rewrite fire_none by (by rewrite sh_handlers_tx).
    cbn [tx_records tx_store read_tx_at]. by rewrite commit_unchanged.
  - cbn [tx_queue read_tx_at]. by rewrite Nat.sub_diag.
  - done.
Qed.

Lemma getMany_run this db keys w os m :
  store_field this = registered db → w_db w !! name this = Some os →
  w_live w = [] → (length keys ≤ m)%nat →
  ∃ w1, getMany this keys w = (Return (length (w_promises w) + length keys)%nat, w1)
        ∧ state_of (length (w_promises w) + length keys) (run no_faults m w1)
          = Fulfilled (VArr (stored (os_records os) <$> keys))
        ∧ w_db (run no_faults m w1) = w_db w.
Proof.
  intros Hreg Hos Hq Hm. eexists. split; [by eapply getMany_sync|].
  rewrite after_call_shape, Hq, read_tx_at_0, (read_cells_at_0 os). simpl app.
  replace m with (length keys + (m - length keys))%nat by lia.
  rewrite run_add, read_steps by (done || lia).
  destruct (m - length keys)%nat as [|k].
  - simpl. rewrite sh_state, read_cells_at_last. simpl.
    by rewrite decide_True.
  - erewrite run_S by (by apply read_commit).
    rewrite run_quiescent by done.
    rewrite sh_state, read_cells_at_last. simpl. by rewrite decide_True.
Qed.

(** ** Runs of [get] *)

Lemma get_first_step faults w nm os k cs h clk :
  w_db w !! nm = Some os → faults clk = None →
  step faults
    (shape w (read_transaction nm os [k] (length (w_promises w))) [new_cell []] (w_db w)
       [length (w_txs w)] cs h clk)
  = Some (shape w (read_tx_at nm os [k] (length (w_promises w)) 1)
            [set_settlement (Fulfilled (stored (os_records os) k)) (new_cell [])]
            (w_db w) [length (w_txs w)] cs h (S clk)).
Proof.
  intros Hos Hf.
  erewrite step_success; [|reflexivity|apply sh_tx|reflexivity|reflexivity|exact Hf|reflexivity|].
  2:{ cbn [w_db shape tx_store read_transaction rq_op tx_records w_cursors promisified_request].
      rewrite Hos. reflexivity. }
  f_equal.
  repeat (rewrite ?sh_alter_tx, ?sh_alter_request, ?sh_set_db, ?sh_set_live,
            ?sh_set_cursors, ?sh_set_heap, ?sh_tick).
  erewrite fire_resolve by (rewrite sh_handlers_request; reflexivity).
  rewrite sh_result_request. cbn.
  rewrite (Nat.add_0_r (length (w_promises w))).
  by rewrite sh_settle_first.
Qed.

Lemma get_run this db k w os :
  store_field this = registered db → w_db w !! name this = Some os →
  w_live w = [] →
  ∃ w1, get this k w = (Return (length (w_promises w)), w1)
        ∧ (∀ m, (1 ≤ m)%nat →
             state_of (length (w_promises w)) (run no_faults m w1)
             = Fulfilled (stored (os_records os) k)
             ∧ w_db (run no_faults m w1) = w_db w)
        ∧ tx_status_of <$> w_txs (run no_faults 1 w1) !! length (w_txs w) = Some Active
        ∧ w_live (run no_faults 1 w1) = [length (w_txs w)].
Proof.
  intros Hreg Hos Hq. eexists. split; [by eapply get_sync|].
  rewrite after_call_shape, Hq. simpl app.
  assert (H1 : run no_faults 1
                 (shape w (read_transaction (name this) os [k] (length (w_promises w)))
                    [new_cell []] (w_db w) [length (w_txs w)] (w_cursors w) (w_heap w)
                    (w_clock w))
               = shape w (read_tx_at (name this) os [k] (length (w_promises w)) 1)
                   [set_settlement (Fulfilled (stored (os_records os) k)) (new_cell [])]
                   (w_db w) [length (w_txs w)] (w_cursors w) (w_heap w) (S (w_clock w))).
  { erewrite run_S by (by apply get_first_step). done. }
  split; [|rewrite H1; split; [by rewrite sh_tx|done]].
  intros m Hm. replace m with (1 + (m - 1))%nat by lia.
  rewrite run_add, H1.
  destruct (m - 1)%nat as [|j].
  - simpl. by rewrite sh_state_first.
  - erewrite run_S by (by apply (read_commit w (name this) os [k])).
    rewrite run_quiescent by done. by rewrite sh_state_first.
Qed.

(** ** Records *)

Lemma records_get_put_eq k v rs : records_get k (records_put k v rs) = Some v.
Proof.
  induction rs as [|[k' v'] rs IH]; simpl.
  - by rewrite decide_True.
  - destruct (decide (k = k')) as [->|Hne]; simpl.
    + by rewrite decide_True.
    + destruct (decide (key_lt k k')); simpl.
      * by rewrite decide_True.
      * by rewrite decide_False.
Qed.

Lemma records_get_put_ne k k' v rs :
  k ≠ k' → records_get k (records_put k' v rs) = records_get k rs.
Proof.
  intros Hne. induction rs as [|[k'' v''] rs IH]; simpl.
  - by rewrite decide_False.
  - destruct (decide (k' = k'')) as [->|Hne']; simpl.
    + by rewrite !decide_False.
    + destruct (decide (key_lt k' k'')); simpl.
      * by rewrite (decide_False (P := (k = k'))).
      * by rewrite IH.
Qed.


Lemma puts_get_other k keys : ∀ values rs,
  k ∉ keys →
  records_get k (foldl effect rs (zip_with op_put keys values)) = records_get k rs.
Proof.
  induction keys as [|k0 keys IH]; intros values rs Hk; [done|].
  destruct values as [|v0 values]; [done|]. simpl.
  rewrite IH by set_solver. apply records_get_put_ne. set_solver.
Qed.

Lemma puts_get_all keys : ∀ values rs,
  NoDup keys → length keys = length values →
  stored (foldl effect rs (zip_with op_put keys values)) <$> keys = values.
Proof.
  induction keys as [|k0 keys IH]; intros values rs Hnd Hlen.
  - by destruct values.
  - destruct values as [|v0 values]; [done|]. simpl.
    apply NoDup_cons in Hnd as [Hk0 Hnd]. f_equal.
    + unfold stored. rewrite puts_get_other by done. by rewrite records_get_put_eq.
    + apply IH; [done|]. simpl in Hlen. lia.
Qed.

Lemma accepted_keyed os : ∀ values keys,
  Forall2 (λ v k, resolve_key os v None = Some k) values keys →
  accepted os values = zip_with op_put keys values ∧ all_keyed os values.
Proof.
  induction values as [|v values IH]; intros keys H.
  - apply Forall2_nil_inv_l in H as ->. split; [done|constructor].
  - apply Forall2_cons_inv_l in H as (k & keys' & Hk & H & ->).
    destruct (IH keys' H) as [IH1 IH2]. simpl. rewrite Hk, IH1.
    split; [done|]. constructor; [by rewrite Hk|done].
Qed.

(** ** Runs of a write without failure *)

Section write_progress.
Variables (w : world) (nm : string) (os : objectStore) (ops : list operation).
Hypothesis Hos : w_db w !! nm = Some os.
Hypothesis Hops : Forall write_op ops.

Lemma execute_admissible i op t r cs :
  admissible os (foldl effect (os_records os) (take i ops)) (drop i ops) →
  ops !! i = Some op →
  ∃ v, execute os t r op (foldl effect (os_records os) (take i ops)) cs
       = (inr v, foldl effect (os_records os) (take (S i) ops), cs)
       ∧ admissible os (foldl effect (os_records os) (take (S i) ops)) (drop (S i) ops).
Proof.
  intros Hadm Hop.
  rewrite (drop_S _ _ _ Hop) in Hadm. destruct Hadm as [Hhead Hrest].
  rewrite (take_S_r _ _ _ Hop), foldl_app. simpl.
  assert (Hw : write_op op) by (by eapply Forall_lookup_1 in Hops).
  destruct op; simpl in *; try done; eauto.
  rewrite Hhead. eauto.
Qed.

Lemma write_progress m : ∀ i rqs clk,
  (i + m = length ops)%nat → rq_op <$> rqs = ops → quiet rqs →
  admissible os (foldl effect (os_records os) (take i ops)) (drop i ops) →
  ∃ rqs',
    run no_faults (S m)
      (write_world w
         (write_tx nm rqs (seq i (length ops - i)) RNull Active
            (foldl effect (os_records os) (take i ops)) (length (w_promises w)))
         (settled_cell Pending) (w_db w) [length (w_txs w)] clk)
    = write_world w
        (write_tx nm rqs' [] RNull Committed
           (foldl effect (os_records os) ops) (length (w_promises w)))
        (settled_cell (Fulfilled VUndefined))
        (alter (with_records (foldl effect (os_records os) ops)) nm (w_db w))
        [] (clk + m).
Proof.
  induction m as [|m IH]; intros i rqs clk Hi Hrq Hquiet Hadm.
  - assert (i = length ops) as -> by lia.
    exists rqs. rewrite Nat.sub_diag. unfold write_world.
    erewrite run_S; [reflexivity|].
    erewrite step_commit; [|reflexivity|apply sh_tx|reflexivity|reflexivity].
    ww. erewrite fire_resolve; [|by rewrite sh_handlers_tx].
    rewrite sh_settle_first by done.
    rewrite take_ge by done. by rewrite Nat.add_0_r.
  - assert (Hlt : (i < length ops)%nat) by lia.
    destruct (lookup_lt_is_Some_2 ops i Hlt) as [op Hop].
    assert (∃ rq, rqs !! i = Some rq ∧ rq_op rq = op) as (rq & Hrqi & Hrqop).
    { rewrite <-Hrq, list_lookup_fmap in Hop.
      destruct (rqs !! i) as [rq|]; [|done]. exists rq. split; [done|].
      by injection Hop. }
    destruct (execute_admissible i op (length (w_txs w)) i (w_cursors w) Hadm Hop)
      as (v & Hex & Hadm').
    destruct (IH (S i) (alter (set_outcome v RNull) i rqs) (S clk)) as [rqs' Hrun];
      [lia|by rewrite ops_outcome|by apply quiet_outcome|done|].
    exists rqs'. replace (clk + S m)%nat with (S clk + m)%nat by lia.
    rewrite <-Hrun. apply run_S.
    replace (length ops - i)%nat with (S (length ops - S i)) by lia.
    cbn [seq]. unfold write_world.
    erewrite step_success; [|reflexivity|apply sh_tx|reflexivity|reflexivity|reflexivity|exact Hrqi|].
    2:{ simpl. rewrite Hos. simpl. rewrite Hrqop. exact Hex. }
    ww.
    rewrite (fire_none _ (h_request _ _))
      by (rewrite sh_handlers_request; cbn; by rewrite quiet_lookup by (by apply quiet_outcome)).
    done.
Qed.

Lemma write_run_committed :
  w_live w = [] → admissible os (os_records os) ops →
  ∃ rqs,
    run no_faults (S (length ops))
      (after_call w (write_transaction nm os ops (length (w_promises w))) [new_cell []])
    = write_world w
        (write_tx nm rqs [] RNull Committed
           (foldl effect (os_records os) ops) (length (w_promises w)))
        (settled_cell (Fulfilled VUndefined))
        (alter (with_records (foldl effect (os_records os) ops)) nm (w_db w))
        [] (w_clock w + length ops).
Proof.
  intros Hq Hadm. rewrite after_call_shape, Hq.
  pose proof (write_progress (length ops) 0 (new_request <$> ops) (w_clock w)) as H.
  rewrite Nat.sub_0_r in H. apply H; [lia| | |done].
  - rewrite <-list_fmap_compose. by rewrite list_fmap_id.
  - apply Forall_fmap, Forall_forall. done.
Qed.
End write_progress.

(** What the phases say about the promise and the database. *)
Lemma write_phase_fulfilled w nm os ops w2 v :
  write_phase w nm os ops w2 →
  state_of (length (w_promises w)) w2 = Fulfilled v →
  v = VUndefined
  ∧ tx_status_of <$> w_txs w2 !! length (w_txs w) = Some Committed
  ∧ w_db w2 = alter (with_records (foldl effect (os_records os) ops)) nm (w_db w)
  ∧ w_live w2 = [] ∧ length (w_txs w2) = S (length (w_txs w)).
Proof.
  intros Hph. destruct Hph; unfold write_world; rewrite sh_state_first, sh_tx; simpl;
    intros Hst; try done.
  injection Hst as <-. rewrite length_app. simpl. repeat split; lia.
Qed.

Lemma write_phase_rejected w nm os ops w2 r :
  write_phase w nm os ops w2 →
  state_of (length (w_promises w)) w2 = Rejected r →
  w_db w2 = w_db w
  ∧ (tx_status_of <$> w_txs w2 !! length (w_txs w) = Some Aborting
     ∨ tx_status_of <$> w_txs w2 !! length (w_txs w) = Some Aborted).
Proof.
  intros Hph. destruct Hph; unfold write_world; rewrite sh_state_first, sh_tx; simpl;
    intros Hst; try done; eauto.
Qed.

Lemma write_phase_db w nm os ops w2 :
  write_phase w nm os ops w2 →
  w_db w2 = w_db w
  ∨ w_db w2 = alter (with_records (foldl effect (os_records os) ops)) nm (w_db w)
    ∧ state_of (length (w_promises w)) w2 = Fulfilled VUndefined.
Proof.
  intros Hph. destruct Hph; unfold write_world; rewrite ?sh_state_first; simpl; eauto.
Qed.

Lemma write_phase_finished w nm os ops w2 :
  write_phase w nm os ops w2 → w_live w2 = [] →
  state_of (length (w_promises w)) w2 = Fulfilled VUndefined
  ∧ w_db w2 = alter (with_records (foldl effect (os_records os) ops)) nm (w_db w)
  ∨ (∃ r, state_of (length (w_promises w)) w2 = Rejected r) ∧ w_db w2 = w_db w.
Proof.
  intros Hph. destruct Hph; unfold write_world; rewrite ?sh_state_first; simpl;
    intros Hst; try done; eauto.
Qed.

(** ** Transactions are opened by calls only *)

Lemma invoke_txs_length c h w : length (w_txs (invoke c h w).2) = length (w_txs w).
Proof.
  assert (Hc : ∀ cur w, length (w_txs (cursor_continue cur w).2) = length (w_txs w)).
  { intros cur w0. unfold cursor_continue. destruct cur; try done.
    destruct (w_cursors w0 !! c0) as [cu|]; [|done].
    destruct (cu_position cu); [|done].
    destruct (tx_status_of <$> w_txs w0 !! cu_tx cu) as [[]|]; try done.
    simpl. by rewrite !length_alter. }
  destruct c as [p|p|p cb|p|cb]; simpl; rewrite ?settle_txs; try done.
  - unfold mbind, js_bind, get_state. simpl.
    destruct (falsy (result_of h w)); simpl; [by rewrite settle_txs|].
    unfold modify. simpl. by rewrite Hc.
  - unfold mbind, js_bind, get_state. simpl.
    destruct (falsy (result_of h w)); simpl; [done|].
    unfold modify. simpl. by rewrite Hc.
Qed.

Lemma fire_txs_length t h which w : length (w_txs (fire t h which w)) = length (w_txs w).
Proof.
  unfold fire. destruct (which (handlers_of h w)) as [c|]; [|done].
  pose proof (invoke_txs_length c h w) as Hi.
  destruct (invoke c h w) as [[?|?] w']; simpl in Hi; [done|].
  unfold abort, alter_tx. simpl. by rewrite length_alter.
Qed.

Lemma step_txs_length faults w w' :
  step faults w = Some w' → length (w_txs w') = length (w_txs w).
Proof.
  unfold step. intros H.
  destruct (w_live w) as [|t l]; [done|].
  destruct (w_txs w !! t) as [tx|]; [|by injection H as <-].
  destruct (tx_queue tx) as [|r q]; injection H as <-.
  - destruct (tx_status_of tx); rewrite ?fire_txs_length; simpl; by rewrite ?length_alter.
  - destruct (tx_status_of tx).
    + destruct (faults (w_clock w)).
      { unfold fail_request, fire_error, abort, alter_tx. simpl.
        rewrite length_alter, !fire_txs_length. simpl. by rewrite !length_alter. }
      destruct (tx_requests tx !! r) as [rq|]; [|simpl; by rewrite length_alter].
      destruct (execute _ _ _ _ _ _) as [[[e|v] rs] cs].
      * unfold fail_request, fire_error, abort, alter_tx. simpl.
        rewrite length_alter, !fire_txs_length. simpl. by rewrite !length_alter.
      * rewrite fire_txs_length. simpl. by rewrite !length_alter.
    + unfold fire_error. rewrite !fire_txs_length. simpl. by rewrite !length_alter.
    + unfold fire_error. rewrite !fire_txs_length. simpl. by rewrite !length_alter.
    + unfold fire_error. rewrite !fire_txs_length. simpl. by rewrite !length_alter.
Qed.

Lemma run_txs_length faults n : ∀ w, length (w_txs (run faults n w)) = length (w_txs w).
Proof.
  induction n as [|n IH]; intros w; simpl; [done|].
  destruct (step faults w) as [w'|] eqn:E; [|done].
  rewrite IH. by eapply step_txs_length.
Qed.

(** ** Every call opens one transaction *)

Lemma perform_opens_one this db c w os :
  store_field this = registered db → storeIndex_field this = registered db →
  w_db w !! name this = Some os →
  ∃ tx, w_txs (perform this c w).2 = w_txs w ++ [tx]
        ∧ tx_store tx = name this ∧ tx_mode tx = mode_of c.
Proof.
  intros Hreg Hreg' Hos.
  destruct c as [k|i v|value k0|keys|values|value|k0| |cb range|i cb range|range|i range];
    simpl perform.
  - rewrite (get_sync this db _ _ os) by done. by eexists.
  - rewrite (getByIndex_sync this db _ _ _ os) by done.
    destruct (os_indexes os !! i); [destruct (to_key v)|]; by eexists.
  - rewrite (set_sync_general this db _ _ _ os) by done.
    destruct (resolve_key os value k0); by eexists.
  - rewrite (getMany_sync this db _ _ os) by done. by eexists.
  - rewrite (setMany_sync this db _ _ os) by done.
    destruct (decide (all_keyed os values)); by eexists.
  - rewrite update_is_set, (set_sync_general this db _ _ _ os) by done.
    destruct (resolve_key os value None); by eexists.
  - rewrite (del_sync this db _ _ os) by done. by eexists.
  - rewrite (clear_sync this db _ os) by done. by eexists.
  - rewrite (cursor_sync this db _ _ _ os) by done. by eexists.
  - rewrite (cursorIndex_sync this db _ _ _ _ os) by done.
    destruct (os_indexes os !! i); by eexists.
  - rewrite (getAll_sync this db _ _ os) by done. by eexists.
  - rewrite (getAllByIndex_sync this db _ _ _ os) by done.
    destruct (os_indexes os !! i); by eexists.
Qed.

(** ** What a read leaves behind is a reading transaction *)

Lemma only_reading_shape d w tx cells cs h clk :
  only_reading d w → reading d tx →
  only_reading d (shape w tx cells d (w_live w ++ [length (w_txs w)]) cs h clk).
Proof.
  intros [Hd Hl] Htx. split; [done|]. intros t tx' Ht Htx'. simpl in *.
  destruct (decide (t < length (w_txs w))%nat) as [Hlt|Hge].
  - rewrite lookup_app_l in Htx' by done.
    apply elem_of_app in Ht as [Ht|Ht]; [by eapply Hl|].
    apply list_elem_of_singleton in Ht. lia.
  - destruct (decide (t = length (w_txs w))) as [->|Hne].
    + rewrite lookup_snoc in Htx'. by injection Htx' as <-.
    + rewrite lookup_ge_None_2 in Htx'; [done|]. rewrite length_app. simpl. lia.
Qed.

Lemma reading_new d nm m os :
  d !! nm = Some os → reading d (new_transaction nm m os).
Proof. intros H. exists os. repeat split; [done|constructor]. Qed.

Lemma reading_single d nm os rq :
  d !! nm = Some os → ¬ write_op (rq_op rq) → reading d (single_request_tx nm os rq).
Proof. intros H Hrq. exists os. repeat split; [done|by repeat constructor]. Qed.

Lemma reading_read_transaction d nm os keys p0 :
  d !! nm = Some os → reading d (read_transaction nm os keys p0).
Proof.
  intros H. exists os. repeat split; [done|]. simpl.
  apply Forall_lookup. intros i rq Hi. rewrite list_lookup_imap in Hi.
  destruct (keys !! i); [|done]. injection Hi as <-. simpl. tauto.
Qed.

Lemma read_call_only_reading this db c w os :
  store_field this = registered db → storeIndex_field this = registered db →
  w_db w !! name this = Some os → is_write c = false →
  only_reading (w_db w) w → only_reading (w_db w) (perform this c w).2.
Proof.
  intros Hreg Hreg' Hos Hc Hw.
  destruct c as [k|i v|value k0|keys|values|value|k0| |cb range|i cb range|range|i range];
    try done; simpl perform.
  - rewrite (get_sync this db _ _ os) by done. simpl. rewrite after_call_shape.
    apply only_reading_shape; [done|]. by apply reading_read_transaction.
  - rewrite (getByIndex_sync this db _ _ _ os) by done.
    destruct (os_indexes os !! i); [destruct (to_key v)|]; simpl; rewrite after_call_shape;
      (apply only_reading_shape; [done|]);
      [apply reading_single; simpl; tauto|by apply reading_new..].
  - rewrite (getMany_sync this db _ _ os) by done. simpl. rewrite after_call_shape.
    apply only_reading_shape; [done|]. by apply reading_read_transaction.
  - rewrite (cursor_sync this db _ _ _ os) by done. simpl. rewrite after_call_shape.
    apply only_reading_shape; [done|]. apply reading_single; simpl; tauto.
  - rewrite (cursorIndex_sync this db _ _ _ _ os) by done.
    destruct (os_indexes os !! i); simpl; rewrite after_call_shape;
      (apply only_reading_shape; [done|]);
      [apply reading_single; simpl; tauto|by apply reading_new].
  - rewrite (getAll_sync this db _ _ os) by done. simpl.
    apply only_reading_shape; [done|]. apply reading_single; simpl; tauto.
  - rewrite (getAllByIndex_sync this db _ _ _ os) by done.
    destruct (os_indexes os !! i); simpl;
      (apply only_reading_shape; [done|]);
      [apply reading_single; simpl; tauto|by apply reading_new].
Qed.

(** * Operations of a store handle *)

(** C1 (as the code has it).  On a registered handle whose store exists,
    every operation opens exactly one transaction, on its store and in
    its mode, and no further one while the engine runs.  The promise of a
    write operation ([set], [setMany], [update], [del], [clear]) is
    fulfilled only once that transaction has committed, whatever the
    engine does.  The promise of [get] is fulfilled with the stored value
    when its request succeeds, while the transaction is still active. *)
Theorem one_transaction_writes_wait_for_commit this db c w os :
  store_field this = registered db → storeIndex_field this = registered db →
  w_db w !! name this = Some os → w_live w = [] →
  (∃ tx, w_txs (perform this c w).2 = w_txs w ++ [tx]
         ∧ tx_store tx = name this ∧ tx_mode tx = mode_of c)
  ∧ (∀ faults n,
       length (w_txs (run faults n (perform this c w).2)) = S (length (w_txs w)))
  ∧ (is_write c = true → ∀ p faults n v,
       (perform this c w).1 = Return p →
       state_of p (run faults n (perform this c w).2) = Fulfilled v →
       tx_status_of <$> w_txs (run faults n (perform this c w).2) !! length (w_txs w)
       = Some Committed)
  ∧ (∀ k, c = call_get k →
       (perform this c w).1 = Return (length (w_promises w))
       ∧ state_of (length (w_promises w)) (run no_faults 1 (perform this c w).2)
         = Fulfilled (stored (os_records os) k)
       ∧ tx_status_of <$> w_txs (run no_faults 1 (perform this c w).2) !! length (w_txs w)
         = Some Active).
Proof.
  intros Hreg Hreg' Hos Hq.
  destruct (perform_opens_one this db c w os Hreg Hreg' Hos) as (tx & Htxs & Hst & Hmode).
  split; [by exists tx|]. split; [|split].
  - intros faults n. rewrite run_txs_length, Htxs, length_app. simpl. lia.
  - intros Hw p faults n v Hp Hful.
    destruct (perform this c w) as [r w1] eqn:Hperf. simpl in *. subst r.
    destruct (write_call_sync this db c w os p w1 Hreg Hos Hw Hperf)
      as (ops & Hops & -> & ->).
    pose proof (write_phase_start w (name this) os ops Hq) as Hstart.
    pose proof (write_phase_run faults w (name this) os ops Hos Hops n _ Hstart) as Hrun.
    by destruct (write_phase_fulfilled _ _ _ _ _ _ Hrun Hful) as (_ & ? & _).
  - intros k ->. simpl perform.
    destruct (get_run this db k w os Hreg Hos Hq) as (w1 & -> & Hm & Hact & _).
    cbn [fst snd]. split; [done|]. split; [|done]. apply (Hm 1%nat). lia.
Qed.

(** C1, an instance: a [del] on the sample store. *)
Lemma one_transaction_writes_wait_for_commit_witness :
  let w := world_of {["users" := keyed_store [(KNum 1, ann)]]} in
  let c := call_del (KNum 1) in
  (∃ tx, w_txs (perform users c w).2 = w_txs w ++ [tx]
         ∧ tx_store tx = name users ∧ tx_mode tx = mode_of c)
  ∧ (∀ faults n,
       length (w_txs (run faults n (perform users c w).2)) = S (length (w_txs w)))
  ∧ (is_write c = true → ∀ p faults n v,
       (perform users c w).1 = Return p →
       state_of p (run faults n (perform users c w).2) = Fulfilled v →
       tx_status_of <$> w_txs (run faults n (perform users c w).2) !! length (w_txs w)
       = Some Committed)
  ∧ (∀ k, c = call_get k →
       (perform users c w).1 = Return (length (w_promises w))
       ∧ state_of (length (w_promises w)) (run no_faults 1 (perform users c w).2)
         = Fulfilled (stored (os_records (keyed_store [(KNum 1, ann)])) k)
       ∧ tx_status_of <$> w_txs (run no_faults 1 (perform users c w).2) !! length (w_txs w)
         = Some Active).
Proof.
  apply (one_transaction_writes_wait_for_commit users conn (call_del (KNum 1))
           (world_of {["users" := keyed_store [(KNum 1, ann)]]})
           (keyed_store [(KNum 1, ann)])); reflexivity.
Defined.

(** C1 as stated fails for reads: after the first step of the engine the
    promise of [get] is fulfilled, and its transaction has not finished:
    it is still active and the engine has yet to commit it. *)
Lemma get_settles_before_its_transaction_finishes :
  let w := world_of {["users" := keyed_store [(KNum 1, ann)]]} in
  (get users (KNum 1) w).1 = Return 0%nat
  ∧ state_of 0 (run no_faults 1 (get users (KNum 1) w).2) = Fulfilled ann
  ∧ tx_status_of <$> w_txs (run no_faults 1 (get users (KNum 1) w).2) !! 0%nat = Some Active
  ∧ w_live (run no_faults 1 (get users (KNum 1) w).2) = [0%nat]
  ∧ tx_status_of <$> w_txs (run no_faults 2 (get users (KNum 1) w).2) !! 0%nat
    = Some Committed.
Proof. vm_compute. repeat split. Qed.

(** A write that was fulfilled has committed: the world is quiescent
    again and the store holds the records the requests produced. *)
Lemma fulfilled_write_committed w nm os ops faults n v :
  w_db w !! nm = Some os → Forall write_op ops → w_live w = [] →
  state_of (length (w_promises w))
    (run faults n
       (after_call w (write_transaction nm os ops (length (w_promises w))) [new_cell []]))
  = Fulfilled v →
  v = VUndefined
  ∧ w_db (run faults n
            (after_call w (write_transaction nm os ops (length (w_promises w)))
               [new_cell []]))
    = alter (with_records (foldl effect (os_records os) ops)) nm (w_db w)
  ∧ w_live (run faults n
              (after_call w (write_transaction nm os ops (length (w_promises w)))
                 [new_cell []])) = [].
Proof.
  intros Hos Hops Hq Hful.
  pose proof (write_phase_start w nm os ops Hq) as Hstart.
  pose proof (write_phase_run faults w nm os ops Hos Hops n _ Hstart) as Hrun.
  by destruct (write_phase_fulfilled _ _ _ _ _ _ Hrun Hful) as (? & _ & ? & ? & _).
Qed.

Lemma lookup_alter_records (d : database) nm os rs :
  d !! nm = Some os → alter (with_records rs) nm d !! nm = Some (with_records rs os).
Proof. intros H. by rewrite lookup_alter_eq, H. Qed.



Lemma puts_are_writes keys values : Forall write_op (zip_with op_put keys values).
Proof.
  revert values. induction keys as [|k keys IH]; intros [|v values]; simpl;
    try constructor; [done|apply IH].
Qed.

(** C2 as stated fails twice.  A value [put] refuses (no key at the key
    path) stops [setMany] with a [DataError], and the values before it
    are committed all the same: the batch is applied in part.  And with
    a key written twice, [getMany] over the keys of the batch returns the
    later value twice, not the values of the batch. *)
Lemma setMany_partial_and_repeated_keys :
  let w := world_of {["users" := keyed_store []]} in
  let nameless := VObj [("name", VStr "eve")] in
  ((setMany users [ann; nameless; bob] w).1 = Throw (DOMException "DataError")
   ∧ w_db (run no_faults 2 (setMany users [ann; nameless; bob] w).2)
     = {["users" := keyed_store [(KNum 1, ann)]]})
  ∧ (let w1 := run no_faults 3 (setMany users [ann; user 1 "amy"] w).2 in
     state_of 0 w1 = Fulfilled VUndefined
     ∧ (getMany users [KNum 1; KNum 1] w1).1 = Return 3%nat
     ∧ state_of 3 (run no_faults 3 (getMany users [KNum 1; KNum 1] w1).2)
       = Fulfilled (VArr [user 1 "amy"; user 1 "amy"])).
Proof. vm_compute. repeat split. Qed.

(** A request of the batch that the engine fails: the transaction is
    aborted and the database is as it was.  The promise is rejected with
    [null], for the error event reaches the transaction before it is
    aborted, when its own [error] is not set yet. *)
Lemma failed_batch_leaves_the_store :
  let w := world_of {["users" := keyed_store [(KNum 1, ann)]]} in
  let faults := λ n : nat, if decide (n = 1%nat) then Some "QuotaExceededError" else None in
  let w1 := run faults 4 (setMany users [user 1 "amy"; bob] w).2 in
  state_of 0 w1 = Rejected RNull
  ∧ w_live w1 = []
  ∧ w_db w1 = w_db w
  ∧ tx_status_of <$> w_txs w1 !! 0%nat = Some Aborted
  ∧ tx_error <$> w_txs w1 !! 0%nat = Some (RExn (DOMException "QuotaExceededError")).
Proof. vm_compute. repeat split. Qed.

(** C10.  On a registered handle whose store exists, each of the read
    operations opens its transaction in mode [readonly]; and when every
    unfinished transaction of the world has only read so far, the
    database is the same after the call and after any number of steps of
    the engine, whatever faults it injects. *)
Theorem reads_leave_the_store_unchanged this db c w os :
  store_field this = registered db → storeIndex_field this = registered db →
  w_db w !! name this = Some os → is_write c = false →
  only_reading (w_db w) w →
  (∃ tx, w_txs (perform this c w).2 = w_txs w ++ [tx]
         ∧ tx_store tx = name this ∧ tx_mode tx = readonly)
  ∧ ∀ faults n, w_db (run faults n (perform this c w).2) = w_db w.
Proof.
  intros Hreg Hreg' Hos Hc Hw. split.
  - destruct (perform_opens_one this db c w os Hreg Hreg' Hos) as (tx & ? & ? & Hm).
    exists tx. unfold mode_of in Hm. by rewrite Hc in Hm.
  - intros faults n.
    pose proof (read_call_only_reading this db c w os Hreg Hreg' Hos Hc Hw) as H1.
    by destruct (only_reading_run (w_db w) faults n _ H1).
Qed.

Lemma quiescent_only_reading w : w_live w = [] → only_reading (w_db w) w.
Proof. intros H. split; [done|]. intros t tx Ht. rewrite H in Ht. by apply elem_of_nil in Ht. Qed.

(** C10, an instance: [getAll] on a store with two records. *)
Lemma reads_leave_the_store_unchanged_witness :
  let w := world_of {["users" := keyed_store [(KNum 1, ann); (KNum 2, bob)]]} in
  let c := call_getAll None in
  (∃ tx, w_txs (perform users c w).2 = w_txs w ++ [tx]
         ∧ tx_store tx = name users ∧ tx_mode tx = readonly)
  ∧ ∀ faults n, w_db (run faults n (perform users c w).2) = w_db w.
Proof.
  apply (reads_leave_the_store_unchanged users conn (call_getAll None)
           (world_of {["users" := keyed_store [(KNum 1, ann); (KNum 2, bob)]]})
           (keyed_store [(KNum 1, ann); (KNum 2, bob)]));
    [reflexivity|reflexivity|reflexivity|reflexivity|].
  apply quiescent_only_reading. reflexivity.
Defined.

(** * Before and after [register] *)

Lemma async_await_failure walk result w e :
  walk (set_promises (λ ps, ps ++ [new_cell []]) w)
  = (Throw e, set_promises (λ ps, ps ++ [new_cell []]) w) →
  failure (async_await walk result w) = Some (RExn e)
  ∧ w_txs (async_await walk result w).2 = w_txs w.
Proof.
  intros Hwalk. rewrite (async_await_threw _ _ _ _ _ Hwalk).
  unfold failure. simpl. split; [|by rewrite settle_txs].
  by rewrite (state_of_settle_fresh _ _ _ (new_cell [])) by (done || apply lookup_snoc).
Qed.

Lemma unregistered_fails nm opts c w :
  failure (perform (new_IDBStore nm opts) c w)
  = Some (RExn (Error (not_initialized_message c nm)))
  ∧ w_txs (perform (new_IDBStore nm opts) c w).2 = w_txs w.
Proof.
  destruct c; try (split; reflexivity); simpl perform.
  - unfold getAll, new_array. rewrite js_bind_run.
    edestruct async_await_failure as [H1 H2]; [|split; [exact H1|exact H2]]. done.
  - unfold getAllByIndex, new_array. rewrite js_bind_run.
    edestruct async_await_failure as [H1 H2]; [|split; [exact H1|exact H2]]. done.
Qed.

Lemma failure_pending p w tx c cells db live cs h clk :
  p = length (w_promises w) → p_state c = Pending →
  failure (Return p, shape w tx (c :: cells) db live cs h clk) = None.
Proof. intros -> Hc. unfold failure. simpl. by rewrite sh_state_first, Hc. Qed.

Lemma registered_never_uninitialized db this c w msg :
  failure (perform (register db this) c w) ≠ Some (RExn (Error msg)).
Proof.
  set (that := register db this).
  assert (Hreg : store_field that = registered db) by done.
  assert (Hreg' : storeIndex_field that = registered db) by done.
  clearbody that.
  destruct (w_db w !! name that) as [os|] eqn:Hos.
  - destruct c as [k|i v|value k0|keys|values|value|k0| |cb range|i cb range|range|i range];
      simpl perform.
    + rewrite (get_sync that db _ _ os) by done. by rewrite after_call_shape, failure_pending.
    + rewrite (getByIndex_sync that db _ _ _ os) by done.
      destruct (os_indexes os !! i); [destruct (to_key v)|]; try done.
      by rewrite after_call_shape, failure_pending.
    + rewrite (set_sync_general that db _ _ _ os) by done.
      destruct (resolve_key os value k0); [|done].
      by rewrite after_call_shape, failure_pending.
    + rewrite (getMany_sync that db _ _ os) by done.
      rewrite after_call_shape. unfold failure. simpl.
      rewrite sh_state. unfold getMany_cells.
      rewrite list_lookup_middle by (by rewrite length_fmap, length_seq).
      by destruct keys.
    + rewrite (setMany_sync that db _ _ os) by done.
      destruct (decide (all_keyed os values)); [|done].
      by rewrite after_call_shape, failure_pending.
    + rewrite update_is_set, (set_sync_general that db _ _ _ os) by done.
      destruct (resolve_key os value None); [|done].
      by rewrite after_call_shape, failure_pending.
    + rewrite (del_sync that db _ _ os) by done. by rewrite after_call_shape, failure_pending.
    + rewrite (clear_sync that db _ os) by done. by rewrite after_call_shape, failure_pending.
    + rewrite (cursor_sync that db _ _ _ os) by done.
      by rewrite after_call_shape, failure_pending.
    + rewrite (cursorIndex_sync that db _ _ _ _ os) by done.
      destruct (os_indexes os !! i); [|done].
      by rewrite after_call_shape, failure_pending.
    + rewrite (getAll_sync that db _ _ os) by done. by rewrite failure_pending.
    + rewrite (getAllByIndex_sync that db _ _ _ os) by done.
      destruct (os_indexes os !! i); [by rewrite failure_pending|].
      unfold failure. simpl. by rewrite sh_state_first.
  - destruct c as [k|i v|value k0|keys|values|value|k0| |cb range|i cb range|range|i range];
      simpl perform;
      try (unfold get, set, getMany, setMany, update, del, clear, cursor;
           by rewrite (store_missing that db) by done);
      try (unfold getByIndex, cursorIndex;
           by rewrite (storeIndex_missing that db) by done).
    + unfold getAll, new_array. rewrite js_bind_run.
      destruct (async_await_failure
                  (cursor that (push_value (length (w_heap w))) range)
                  (VRef (length (w_heap w))) (set_heap (λ h, h ++ [[]]) w)
                  (DOMException "NotFoundError")) as [-> _]; [|done].
      unfold cursor. by rewrite (store_missing that db) by done.
    + unfold getAllByIndex, new_array. rewrite js_bind_run.
      destruct (async_await_failure
                  (cursorIndex that i (push_value (length (w_heap w))) range)
                  (VRef (length (w_heap w))) (set_heap (λ h, h ++ [[]]) w)
                  (DOMException "NotFoundError")) as [-> _]; [|done].
      unfold cursorIndex. by rewrite (storeIndex_missing that db) by done.
Qed.

Lemma init_registers this w :
  match init this w with
  | (Return this', _) =>
      ∃ db, stores this' = prod_map id (register db) <$> stores this
  | (Throw _, _) => True
  end.
Proof.
  unfold init. rewrite js_bind_run.
  destruct (indexedDB_open _ _ _ w) as [[db|e] w']; [|done].
  simpl. by exists db.
Qed.

(** C4.  Every operation on a store handle that has not been registered
    fails at once, without opening a transaction, with the error
    [IDBStore <name> is not initialized] ([IDBStoreIndex <name> ...] for
    the operations on an index): it is thrown, and [getAll] and
    [getAllByIndex], being [async], return a promise rejected with it.
    On a handle [register] was called on, no operation fails with an
    error of the library.  [init] registers every store of the database
    handle when opening the database succeeds. *)
Theorem not_initialized_until_registered :
  (∀ nm opts c w,
     failure (perform (new_IDBStore nm opts) c w)
     = Some (RExn (Error (not_initialized_message c nm)))
     ∧ w_txs (perform (new_IDBStore nm opts) c w).2 = w_txs w)
  ∧ (∀ db this c w msg,
       failure (perform (register db this) c w) ≠ Some (RExn (Error msg)))
  ∧ (∀ this w,
       match init this w with
       | (Return this', _) =>
           ∃ db, stores this' = prod_map id (register db) <$> stores this
       | (Throw _, _) => True
       end).
Proof.
  split; [exact unregistered_fails|].
  split; [exact registered_never_uninitialized|exact init_registers].
Qed.

(** * The order of keys and of the entries of a view *)

Lemma code_units_inj s1 s2 : code_units s1 = code_units s2 → s1 = s2.
Proof.
  revert s2. induction s1 as [|a s1 IH]; intros [|b s2]; simpl; try done.
  intros H. injection H as Ha Hs. f_equal; [|by apply IH].
  rewrite <-(Ascii.ascii_N_embedding a), <-(Ascii.ascii_N_embedding b). by rewrite Ha.
Qed.

Lemma key_ind' (P : key → Prop) :
  (∀ n, P (KNum n)) → (∀ s, P (KStr s)) → (∀ ks, Forall P ks → P (KArr ks)) →
  ∀ k, P k.
Proof.
  intros Hn Hs Ha. fix IH 1. intros [n|s|ks]; [apply Hn|apply Hs|].
  apply Ha. induction ks as [|k ks IHks]; constructor; [apply IH|exact IHks].
Qed.

Section list_lt_order.
Context {A : Type} (R : A → A → Prop).

Lemma list_lt_irrefl xs : Forall (λ x, ¬ R x x) xs → ¬ list_lt R xs xs.
Proof.
  induction 1 as [|x xs Hx _ IH]; simpl; [by intros []|].
  intros [?|[_ ?]]; [by apply Hx|by apply IH].
Qed.

Lemma list_lt_trans xs : ∀ ys zs,
  Forall (λ x, ∀ y z, R x y → R y z → R x z) xs →
  list_lt R xs ys → list_lt R ys zs → list_lt R xs zs.
Proof.
  induction xs as [|x xs IH]; intros [|y ys] [|z zs] Hall; simpl; try done.
  apply Forall_cons in Hall as [Hx Hall].
  intros [Hxy|[-> Hxs]] [Hyz|[-> Hys]].
  - left. by eapply Hx.
  - by left.
  - by left.
  - right. split; [done|]. by eapply IH.
Qed.

Lemma list_lt_trichotomy xs : ∀ ys,
  Forall (λ x, ∀ y, R x y ∨ x = y ∨ R y x) xs →
  list_lt R xs ys ∨ xs = ys ∨ list_lt R ys xs.
Proof.
  induction xs as [|x xs IH]; intros [|y ys] Hall; simpl; try tauto.
  apply Forall_cons in Hall as [Hx Hall].
  destruct (Hx y) as [?|[->|?]]; [tauto| |tauto].
  destruct (IH ys Hall) as [?|[->|?]]; tauto.
Qed.
End list_lt_order.

Lemma key_lt_irrefl k : ¬ key_lt k k.
Proof.
  induction k as [n|s|ks IH] using key_ind'; simpl.
  - lia.
  - apply (irreflexivity (@lexico (list N) _)).
  - by apply list_lt_irrefl.
Qed.

Lemma key_lt_trans a : ∀ b c, key_lt a b → key_lt b c → key_lt a c.
Proof.
  induction a as [n|s|ks IH] using key_ind'; intros [m|t|ys] [l|u|zs]; simpl; try done.
  - lia.
  - apply (transitivity (R := @lexico (list N) _)).
  - by apply list_lt_trans.
Qed.

#[global] Instance key_lt_strict : StrictOrder key_lt.
Proof.
  split.
  - intros k. apply key_lt_irrefl.
  - intros a b c. apply key_lt_trans.
Qed.

Lemma key_lt_trichotomy a : ∀ b, key_lt a b ∨ a = b ∨ key_lt b a.
Proof.
  induction a as [n|s|ks IH] using key_ind'; intros [m|t|ys]; simpl; try tauto.
  - destruct (Z.lt_trichotomy n m) as [?|[->|?]]; tauto.
  - destruct (trichotomyT (@lexico (list N) _) (code_units s) (code_units t))
      as [[?|Heq]|?]; [tauto| |tauto].
    apply code_units_inj in Heq as ->. tauto.
  - destruct (list_lt_trichotomy key_lt ks ys IH) as [?|[->|?]]; tauto.
Qed.

#[global] Instance pos_lt_strict : StrictOrder pos_lt.
Proof.
  split.
  - intros k [H|[_ H]]; by apply key_lt_irrefl in H.
  - intros a b c [H1|[E1 H1]] [H2|[E2 H2]]; unfold pos_lt.
    + left. by etrans.
    + left. by rewrite <-E2.
    + left. by rewrite E1.
    + right. split; [congruence|by etrans].
Qed.

Lemma pos_lt_trichotomy a b : pos_lt a b ∨ a = b ∨ pos_lt b a.
Proof.
  unfold pos_lt. destruct a as [a1 a2], b as [b1 b2]; simpl.
  destruct (key_lt_trichotomy a1 b1) as [?|[->|?]]; [tauto| |tauto].
  destruct (key_lt_trichotomy a2 b2) as [?|[->|?]]; tauto.
Qed.

#[global] Instance entry_lt_strict : StrictOrder entry_lt.
Proof.
  split.
  - intros e. unfold complement, entry_lt. apply (irreflexivity pos_lt).
  - intros a b c. unfold entry_lt. apply (transitivity (R := pos_lt)).
Qed.

Lemma pos_lt_first (a b : key * key) : key_lt a.1 b.1 → pos_lt a b.
Proof. intros H. by left. Qed.

(** In a strictly ascending list the elements above the [i]-th are those
    after it. *)
Lemma filter_above {A} (R : relation A) `{!StrictOrder R} `{!RelDecision R}
    (l : list A) : ∀ i e,
  StronglySorted R l → l !! i = Some e → filter (R e) l = drop (S i) l.
Proof.
  induction l as [|x l IH]; intros i e Hs Hi; [done|].
  apply StronglySorted_inv in Hs as [Hs Hall].
  destruct i as [|i]; simpl in Hi.
  - injection Hi as ->. rewrite filter_cons_False by apply irreflexivity, _.
    simpl. rewrite drop_0. clear IH Hs.
    induction l as [|y l IH]; [done|].
    apply Forall_cons in Hall as [Hy Hall].
    rewrite filter_cons_True by done. f_equal. by apply IH.
  - assert (R x e) as Hxe.
    { eapply Forall_forall in Hall; [done|]. by eapply list_elem_of_lookup_2. }
    rewrite filter_cons_False.
    + simpl. by apply IH.
    + intros Hex. by apply (irreflexivity R x), (transitivity Hxe).
Qed.

Lemma StronglySorted_filter {A} (R : relation A) (P : A → Prop)
    `{!∀ x, Decision (P x)} (l : list A) :
  StronglySorted R l → StronglySorted R (filter P l).
Proof.
  induction 1 as [|x l Hs IH Hall]; [constructor|].
  destruct (decide (P x)).
  - rewrite filter_cons_True by done. constructor; [done|].
    apply Forall_forall. intros y Hy. apply list_elem_of_filter in Hy as [_ Hy].
    by eapply Forall_forall in Hall.
  - by rewrite filter_cons_False.
Qed.

(** ** The view of a store *)

Lemma store_view_sorted rs :
  StronglySorted key_lt rs.*1 → StronglySorted entry_lt (store_view rs).
Proof.
  induction rs as [|[k v] rs IH]; simpl; intros Hs; [constructor|].
  apply StronglySorted_inv in Hs as [Hs Hall]. constructor; [by apply IH|].
  apply Forall_forall. intros e He. unfold store_view in He.
  apply list_elem_of_fmap in He as ([k' v'] & -> & Hin).
  apply pos_lt_first. simpl.
  eapply Forall_forall in Hall; [done|]. by apply (list_elem_of_fmap_2 fst) in Hin.
Qed.

Lemma elem_of_store_view e rs :
  e ∈ store_view rs
  ↔ ∃ k v, (k, v) ∈ rs ∧ e = {| e_key := k; e_primaryKey := k; e_value := v |}.
Proof.
  unfold store_view. split.
  - intros He. apply list_elem_of_fmap in He as ([k v] & -> & Hin). eauto.
  - intros (k & v & Hin & ->). apply list_elem_of_fmap. by exists (k, v).
Qed.

(** ** The view of an index *)

Lemma elem_of_view_insert e x es : x ∈ view_insert e es ↔ x = e ∨ x ∈ es.
Proof.
  induction es as [|e' es IH]; simpl.
  - rewrite list_elem_of_singleton. split; [by left|].
    by intros [?|?%elem_of_nil].
  - destruct (decide (entry_lt e e')).
    + apply elem_of_cons.
    + rewrite !elem_of_cons, IH. tauto.
Qed.

Lemma view_insert_sorted e es :
  StronglySorted entry_lt es → (∀ x, x ∈ es → position x ≠ position e) →
  StronglySorted entry_lt (view_insert e es).
Proof.
  induction 1 as [|e' es Hs IH Hall]; intros Hne; simpl.
  - repeat constructor.
  - destruct (decide (entry_lt e e')) as [Hlt|Hnlt].
    + constructor; [by constructor|]. constructor; [done|].
      eapply Forall_impl; [exact Hall|]. intros x Hx. by transitivity e'.
    + constructor.
      * apply IH. intros x Hx. apply Hne. by right.
      * apply Forall_forall. intros x Hx. apply elem_of_view_insert in Hx as [->|Hx].
        -- destruct (pos_lt_trichotomy (position e) (position e')) as [?|[Heq|?]];
             [done| |done].
           exfalso. apply (Hne e'); [by left|done].
        -- by eapply Forall_forall in Hall.
Qed.

Lemma elem_of_index_view path e rs :
  e ∈ index_view path rs
  ↔ ∃ k v ik, (k, v) ∈ rs ∧ key_at path v = Some ik
              ∧ e = {| e_key := ik; e_primaryKey := k; e_value := v |}.
Proof.
  induction rs as [|[k v] rs IH]; simpl.
  - split; [by intros ?%elem_of_nil|]. by intros (? & ? & ? & ?%elem_of_nil & _).
  - destruct (key_at path v) as [ik|] eqn:Hik.
    + rewrite elem_of_view_insert, IH. split.
      * intros [->|(k' & v' & ik' & Hin & Hk & ->)].
        -- exists k, v, ik. split; [by left|done].
        -- exists k', v', ik'. split; [by right|done].
      * intros (k' & v' & ik' & Hin & Hk & ->).
        apply elem_of_cons in Hin as [Heq|Hin].
        -- injection Heq as -> ->. left. rewrite Hik in Hk. by injection Hk as ->.
        -- right. eauto 6.
    + rewrite IH. split.
      * intros (k' & v' & ik' & Hin & Hk & ->). exists k', v', ik'. split; [by right|done].
      * intros (k' & v' & ik' & Hin & Hk & ->).
        apply elem_of_cons in Hin as [Heq|Hin].
        -- injection Heq as -> ->. by rewrite Hik in Hk.
        -- eauto 6.
Qed.

Lemma index_view_sorted path rs :
  StronglySorted key_lt rs.*1 → StronglySorted entry_lt (index_view path rs).
Proof.
  induction rs as [|[k v] rs IH]; simpl; intros Hs; [constructor|].
  apply StronglySorted_inv in Hs as [Hs Hall].
  destruct (key_at path v) as [ik|]; [|by apply IH].
  apply view_insert_sorted; [by apply IH|].
  intros x Hx Heq. apply elem_of_index_view in Hx as (k' & v' & ik' & Hin & _ & ->).
  unfold position in Heq. simpl in Heq. injection Heq as _ ->.
  eapply Forall_forall in Hall; [|by apply (list_elem_of_fmap_2 fst) in Hin].
  simpl in Hall. by apply (irreflexivity key_lt k).
Qed.

Lemma view_sorted os src rs :
  StronglySorted key_lt rs.*1 → StronglySorted entry_lt (view_of os src rs).
Proof.
  intros Hs. destruct src as [|i]; simpl.
  - by apply store_view_sorted.
  - destruct (os_indexes os !! i); [by apply index_view_sorted|constructor].
Qed.

(** The records stay in ascending order of their keys. *)
Lemma records_put_keys k v rs x :
  x ∈ (records_put k v rs).*1 ↔ x = k ∨ x ∈ rs.*1.
Proof.
  induction rs as [|[k' v'] rs IH]; simpl.
  - rewrite list_elem_of_singleton. split; [by left|].
    by intros [?|?%elem_of_nil].
  - destruct (decide (k = k')) as [->|]; simpl; [rewrite !elem_of_cons; tauto|].
    destruct (decide (key_lt k k')); simpl; [rewrite !elem_of_cons; tauto|].
    rewrite !elem_of_cons, IH. tauto.
Qed.

Lemma records_put_sorted k v rs :
  StronglySorted key_lt rs.*1 → StronglySorted key_lt (records_put k v rs).*1.
Proof.
  induction rs as [|[k' v'] rs IH]; simpl; intros Hs; [repeat constructor|].
  apply StronglySorted_inv in Hs as [Hs Hall].
  destruct (decide (k = k')) as [->|Hne]; simpl; [by constructor|].
  destruct (decide (key_lt k k')) as [Hlt|Hnlt]; simpl.
  - constructor; [by constructor|]. constructor; [done|].
    eapply Forall_impl; [exact Hall|]. intros x Hx. by transitivity k'.
  - constructor; [by apply IH|].
    apply Forall_forall. intros x Hx. apply records_put_keys in Hx as [->|Hx].
    + by destruct (key_lt_trichotomy k k') as [?|[?|?]].
    + by eapply Forall_forall in Hall.
Qed.

Lemma records_delete_sorted k rs :
  StronglySorted key_lt rs.*1 → StronglySorted key_lt (records_delete k rs).*1.
Proof.
  unfold records_delete. induction rs as [|[k' v'] rs IH]; simpl; intros Hs; [constructor|].
  apply StronglySorted_inv in Hs as [Hs Hall].
  destruct (decide (k' ≠ k)).
  - rewrite filter_cons_True by done. simpl. constructor; [by apply IH|].
    apply Forall_forall. intros x Hx.
    apply list_elem_of_fmap in Hx as (r & -> & Hr). apply list_elem_of_filter in Hr as [_ Hr].
    eapply Forall_forall in Hall; [done|]. by apply list_elem_of_fmap_2.
  - rewrite filter_cons_False by done. by apply IH.
Qed.

Lemma effect_sorted rs op :
  StronglySorted key_lt rs.*1 → StronglySorted key_lt (effect rs op).*1.
Proof.
  destruct op; simpl; try done.
  - apply records_put_sorted.
  - apply records_delete_sorted.
  - constructor.
Qed.

(** * Cursor walks *)

Lemma fire_cursor_end t h w p cb :
  onsuccess (handlers_of h w) = Some (cursor_onsuccess p cb) →
  falsy (result_of h w) = true →
  fire t h onsuccess w = settle p (Fulfilled VUndefined) w.
Proof. intros Hh Hr. unfold fire. rewrite Hh. simpl. unfold mbind, js_bind, get_state. simpl. by rewrite Hr. Qed.

Lemma fire_cursor_more t h w p cb w' :
  onsuccess (handlers_of h w) = Some (cursor_onsuccess p cb) →
  falsy (result_of h w) = false →
  cursor_continue (result_of h w) (set_heap (cb (result_of h w) (w_cursors w)) w)
  = (Return tt, w') →
  fire t h onsuccess w = w'.
Proof.
  intros Hh Hr Hc. unfold fire. rewrite Hh. simpl.
  unfold mbind, js_bind, get_state. simpl. rewrite Hr. simpl.
  unfold modify. simpl. by rewrite Hc.
Qed.

Section walk.
Variables (w : world) (nm : string) (os : objectStore) (src : source).
Variables (range : option IDBKeyRange) (cb : visitor) (cells : list promise) (j : nat).
Variable cs0 : list cursor_object.
Hypothesis Hos : w_db w !! nm = Some os.

Local Abbreviation view := (view_of os src (os_records os)).
Local Abbreviation opened := (walk_opened w nm os src range cb cells j cs0).
Local Abbreviation on := (walk_on w nm os src range cb cells j cs0).
Local Abbreviation ended := (walk_ended w nm os src range cb cells j cs0).
Local Abbreviation visit' := (visit cb cs0 (length (w_txs w)) src range).
Local Abbreviation p := (length (w_promises w) + j)%nat.

Lemma walk_open_more e h clk :
  seek range None view = Some e →
  step no_faults (opened h clk) = Some (on e (visit' h e) (S clk)).
Proof.
  intros Hseek. unfold walk_opened.
  erewrite step_success; [|reflexivity|apply sh_tx|reflexivity|reflexivity|reflexivity|reflexivity|].
  2:{ cbn [w_db shape tx_store walk_tx rq_op walk_request tx_records w_cursors].
      rewrite Hos. cbn [default from_option id execute]. rewrite Hseek. reflexivity. }
  f_equal.
  repeat (rewrite ?sh_alter_tx, ?sh_alter_request, ?sh_set_db, ?sh_set_live,
            ?sh_set_cursors, ?sh_set_heap, ?sh_tick).
  erewrite fire_cursor_more; [reflexivity|by rewrite sh_handlers_request|
                              by rewrite sh_result_request|].
  rewrite sh_result_request. cbn [tx_requests set_records set_requests set_queue walk_tx
    alter list_alter lookup list_lookup from_option rq_result set_outcome walk_request].
  rewrite sh_set_heap. unfold cursor_continue.
  cbn [w_cursors shape]. rewrite lookup_snoc.
  cbn [cu_position cu_tx cu_request position fmap option_fmap option_map].
  rewrite sh_tx. cbn.
  rewrite sh_alter_request, sh_alter_tx. reflexivity.
Qed.

Lemma walk_open_end h clk :
  seek range None view = None →
  step no_faults (opened h clk)
  = Some (settle p (Fulfilled VUndefined) (ended 0 h (S clk))).
Proof.
  intros Hseek. unfold walk_opened.
  erewrite step_success; [|reflexivity|apply sh_tx|reflexivity|reflexivity|reflexivity|reflexivity|].
  2:{ cbn [w_db shape tx_store walk_tx rq_op walk_request tx_records w_cursors].
      rewrite Hos. cbn [default from_option id execute]. rewrite Hseek. reflexivity. }
  f_equal.
  repeat (rewrite ?sh_alter_tx, ?sh_alter_request, ?sh_set_db, ?sh_set_live,
            ?sh_set_cursors, ?sh_set_heap, ?sh_tick).
  by erewrite fire_cursor_end; [|by rewrite sh_handlers_request|by rewrite sh_result_request].
Qed.

Lemma walk_continue_more e e' h clk :
  seek range (Some (position e)) view = Some e' →
  step no_faults (on e h clk) = Some (on e' (visit' h e') (S clk)).
Proof.
  intros Hseek. unfold walk_on.
  erewrite step_success; [|reflexivity|apply sh_tx|reflexivity|reflexivity|reflexivity|reflexivity|].
  2:{ cbn [w_db shape tx_store walk_tx rq_op walk_request tx_records w_cursors].
      rewrite Hos. cbn [default from_option id execute]. rewrite lookup_snoc.
      cbn [cursor_at cu_range cu_position cu_source fmap option_fmap option_map].
      rewrite Hseek. reflexivity. }
  f_equal.
  repeat (rewrite ?sh_alter_tx, ?sh_alter_request, ?sh_set_db, ?sh_set_live,
            ?sh_set_cursors, ?sh_set_heap, ?sh_tick).
  assert (Hcs : <[length cs0 := move_cursor (Some e')
                                  (cursor_at (length (w_txs w)) src range (Some e))]>
                  (cs0 ++ [cursor_at (length (w_txs w)) src range (Some e)])
                = cs0 ++ [cursor_at (length (w_txs w)) src range (Some e')]).
  { rewrite <-(Nat.add_0_r (length cs0)) at 1. by rewrite insert_app_r. }
  rewrite Hcs.
  erewrite fire_cursor_more; [reflexivity|by rewrite sh_handlers_request|
                              by rewrite sh_result_request|].
  rewrite sh_result_request. cbn [tx_requests set_records set_requests set_queue walk_tx
    alter list_alter lookup list_lookup from_option rq_result set_outcome walk_request].
  rewrite sh_set_heap. unfold cursor_continue.
  cbn [w_cursors shape]. rewrite lookup_snoc.
  cbn [cu_position cu_tx cu_request position fmap option_fmap option_map cursor_at].
  rewrite sh_tx. cbn.
  rewrite sh_alter_request, sh_alter_tx. reflexivity.
Qed.

Lemma walk_continue_end e h clk :
  seek range (Some (position e)) view = None →
  step no_faults (on e h clk)
  = Some (settle p (Fulfilled VUndefined) (ended 1 h (S clk))).
Proof.
  intros Hseek. unfold walk_on.
  erewrite step_success; [|reflexivity|apply sh_tx|reflexivity|reflexivity|reflexivity|reflexivity|].
  2:{ cbn [w_db shape tx_store walk_tx rq_op walk_request tx_records w_cursors].
      rewrite Hos. cbn [default from_option id execute]. rewrite lookup_snoc.
      cbn [cursor_at cu_range cu_position cu_source fmap option_fmap option_map].
      rewrite Hseek. reflexivity. }
  f_equal.
  repeat (rewrite ?sh_alter_tx, ?sh_alter_request, ?sh_set_db, ?sh_set_live,
            ?sh_set_cursors, ?sh_set_heap, ?sh_tick).
  assert (Hcs : <[length cs0 := move_cursor None
                                  (cursor_at (length (w_txs w)) src range (Some e))]>
                  (cs0 ++ [cursor_at (length (w_txs w)) src range (Some e)])
                = cs0 ++ [cursor_at (length (w_txs w)) src range None]).
  { rewrite <-(Nat.add_0_r (length cs0)) at 1. by rewrite insert_app_r. }
  rewrite Hcs.
  by erewrite fire_cursor_end; [|by rewrite sh_handlers_request|by rewrite sh_result_request].
Qed.
End walk.

Lemma ahead_after range e view :
  ahead range (Some (position e)) view = filter (entry_lt e) (ahead range None view).
Proof.
  unfold ahead. rewrite list_filter_filter. apply list_filter_iff.
  intros x. unfold entry_lt. simpl. tauto.
Qed.

Lemma ahead_sorted range pos view :
  StronglySorted entry_lt view → StronglySorted entry_lt (ahead range pos view).
Proof. apply StronglySorted_filter. Qed.

Lemma run_snoc faults n w : run faults (S n) w = run faults 1 (run faults n w).
Proof. rewrite <-(Nat.add_1_r n). apply run_add. Qed.

Section walk_run.
Variables (w : world) (nm : string) (os : objectStore) (src : source).
Variables (range : option IDBKeyRange) (cb : visitor) (cells : list promise) (j : nat).
Variable cs0 : list cursor_object.
Hypothesis Hos : w_db w !! nm = Some os.
Hypothesis Hsorted : StronglySorted key_lt (os_records os).*1.

Local Abbreviation view := (view_of os src (os_records os)).
Local Abbreviation es := (visited os src range).
Local Abbreviation opened := (walk_opened w nm os src range cb cells j cs0).
Local Abbreviation on := (walk_on w nm os src range cb cells j cs0).
Local Abbreviation ended := (walk_ended w nm os src range cb cells j cs0).
Local Abbreviation visit' := (visit cb cs0 (length (w_txs w)) src range).
Local Abbreviation p := (length (w_promises w) + j)%nat.

Lemma seek_first : seek range None view = es !! 0%nat.
Proof. unfold seek, visited. by rewrite head_lookup. Qed.

Lemma seek_next i e :
  es !! i = Some e → seek range (Some (position e)) view = es !! S i.
Proof.
  intros Hi. unfold seek. rewrite ahead_after.
  fold es. rewrite (filter_above entry_lt es i e); [|by apply ahead_sorted, view_sorted|done].
  by rewrite head_lookup, lookup_drop, Nat.add_0_r.
Qed.

Lemma walk_run_on h clk m : ∀ e,
  es !! m = Some e →
  run no_faults (S m) (opened h clk)
  = on e (foldl visit' h (take (S m) es)) (clk + S m).
Proof.
  induction m as [|m IH]; intros e He.
  - erewrite run_S.
    2:{ apply walk_open_more; [done|]. by rewrite seek_first. }
    simpl run. rewrite (take_S_r _ _ _ He). simpl. by rewrite Nat.add_1_r.
  - destruct (lookup_lt_is_Some_2 es m) as [e0 He0].
    { apply lookup_lt_Some in He. lia. }
    rewrite run_snoc, (IH e0 He0).
    erewrite run_S.
    2:{ apply walk_continue_more; [done|]. by rewrite (seek_next m e0 He0). }
    simpl run. rewrite (take_S_r _ (S m) _ He), foldl_app. simpl.
    by replace (clk + S (S m))%nat with (S (clk + S m)) by lia.
Qed.

Lemma walk_run_end h clk :
  run no_faults (S (length es)) (opened h clk)
  = settle p (Fulfilled VUndefined)
      (ended (length es) (foldl visit' h es) (clk + S (length es))).
Proof.
  destruct (length es) as [|n] eqn:Hn.
  - apply nil_length_inv in Hn.
    erewrite run_S.
    2:{ apply walk_open_end; [done|]. by rewrite seek_first, Hn. }
    simpl run. rewrite Hn. simpl. by rewrite Nat.add_1_r.
  - destruct (lookup_lt_is_Some_2 es n) as [e He]; [lia|].
    rewrite run_snoc, (walk_run_on h clk n e He).
    erewrite run_S.
    2:{ apply walk_continue_end; [done|]. rewrite (seek_next n e He).
        apply lookup_ge_None_2. lia. }
    simpl run. rewrite take_ge by lia.
    by replace (clk + S (S n))%nat with (S (clk + S n)) by lia.
Qed.

(** While there are entries left the promise of the walk is as it was. *)
Lemma walk_run_before h clk m :
  (m ≤ length es)%nat →
  w_promises (run no_faults m (opened h clk)) = w_promises w ++ cells
  ∧ w_heap (run no_faults m (opened h clk)) = foldl visit' h (take m es)
  ∧ w_db (run no_faults m (opened h clk)) = w_db w.
Proof.
  intros Hm. destruct m as [|m]; [done|].
  destruct (lookup_lt_is_Some_2 es m) as [e He]; [lia|].
  by rewrite (walk_run_on h clk m e He).
Qed.
End walk_run.

(** ** The walks of the library *)

Lemma walk_call_sync this db w os src range cb :
  store_field this = registered db → storeIndex_field this = registered db →
  w_db w !! name this = Some os → w_live w = [] → has_source os src →
  perform this (walk_call src cb range) w
  = (Return (length (w_promises w)),
     walk_opened w (name this) os src range cb [new_cell []] 0
       (w_cursors w) (w_heap w) (w_clock w)).
Proof.
  intros Hreg Hreg' Hos Hq Hsrc. unfold walk_opened. rewrite Nat.add_0_r.
  destruct src as [|i]; simpl perform.
  - rewrite (cursor_sync this db _ _ _ os) by done. by rewrite after_call_shape, Hq.
  - rewrite (cursorIndex_sync this db _ _ _ _ os) by done.
    destruct Hsrc as [ix ->]. by rewrite after_call_shape, Hq.
Qed.

Lemma elem_of_visited os src range e :
  e ∈ visited os src range ↔ in_range range (e_key e) ∧ entry_of os src e.
Proof.
  unfold visited, ahead. rewrite list_elem_of_filter. simpl.
  assert (e ∈ view_of os src (os_records os) ↔ entry_of os src e) as ->; [|tauto].
  destruct src as [|i]; simpl.
  - apply elem_of_store_view.
  - destruct (os_indexes os !! i) as [ix|].
    + rewrite elem_of_index_view. split.
      * intros (k & v & ik & ? & ? & ->). by exists ix, k, v, ik.
      * intros (ix' & k & v & ik & Hix & ? & ? & ->). injection Hix as <-. eauto 6.
    + split; [by intros ?%elem_of_nil|]. by intros (? & ? & ? & ? & ? & _).
Qed.

(** C7 (as the code has it).  On a registered handle, in a world with
    nothing pending and with the records of the store in ascending order
    of their keys (as the engine keeps them), the walk of [cursor], and
    that of [cursorIndex] on an index of the store, without faults:
    the entries met are those of the source whose key is in the range,
    every record for [cursor], and for [cursorIndex] the records that
    have a valid key at the key path of the index; they are met in
    strictly ascending order of (key, primary key), so each once; the
    [m]-th step of the engine calls the visitor on the [m]-th entry and
    advances; the promise is pending as long as entries remain and is
    fulfilled by the step that finds none. *)
Theorem cursor_walk_in_order this db w os src range cb :
  store_field this = registered db → storeIndex_field this = registered db →
  w_db w !! name this = Some os → w_live w = [] →
  StronglySorted key_lt (os_records os).*1 → has_source os src →
  let es := visited os src range in
  let w1 := (perform this (walk_call src cb range) w).2 in
  let p := length (w_promises w) in
  let see := visit cb (w_cursors w) (length (w_txs w)) src range in
  (perform this (walk_call src cb range) w).1 = Return p
  ∧ (∀ m, (m ≤ length es)%nat →
       state_of p (run no_faults m w1) = Pending
       ∧ w_heap (run no_faults m w1) = foldl see (w_heap w) (take m es))
  ∧ state_of p (run no_faults (S (length es)) w1) = Fulfilled VUndefined
  ∧ w_heap (run no_faults (S (length es)) w1) = foldl see (w_heap w) es
  ∧ StronglySorted entry_lt es
  ∧ ∀ e, e ∈ es ↔ in_range range (e_key e) ∧ entry_of os src e.
Proof.
  intros Hreg Hreg' Hos Hq Hsorted Hsrc es w1 p see. subst w1 es p.
  rewrite (walk_call_sync this db w os src range cb) by done. cbn [fst snd].
  split; [done|]. split; [|split; [|split; [|split]]].
  - intros m Hm.
    destruct (walk_run_before w (name this) os src range cb [new_cell []] 0 (w_cursors w)
                Hos Hsorted (w_heap w) (w_clock w) m Hm) as (Hp & Hh & _).
    split; [|done]. unfold state_of. rewrite Hp. by rewrite lookup_snoc.
  - rewrite walk_run_end by done. unfold walk_ended. rewrite Nat.add_0_r.
    rewrite sh_settle_first by done. by rewrite sh_state_first.
  - rewrite walk_run_end by done. unfold walk_ended. rewrite Nat.add_0_r.
    by rewrite sh_settle_first by done.
  - by apply ahead_sorted, view_sorted.
  - intros e. apply elem_of_visited.
Qed.

(** C7, an instance: [cursorIndex] over the index on [email] of the
    sample store. *)
Lemma cursor_walk_in_order_witness :
  let w := collecting {["users" := contacts]} in
  let src := FromIndex "byEmail" in
  let cb := push_value 0 in
  let es := visited contacts src None in
  let w1 := (perform users (walk_call src cb None) w).2 in
  let p := length (w_promises w) in
  let see := visit cb (w_cursors w) (length (w_txs w)) src None in
  (perform users (walk_call src cb None) w).1 = Return p
  ∧ (∀ m, (m ≤ length es)%nat →
       state_of p (run no_faults m w1) = Pending
       ∧ w_heap (run no_faults m w1) = foldl see (w_heap w) (take m es))
  ∧ state_of p (run no_faults (S (length es)) w1) = Fulfilled VUndefined
  ∧ w_heap (run no_faults (S (length es)) w1) = foldl see (w_heap w) es
  ∧ StronglySorted entry_lt es
  ∧ ∀ e, e ∈ es ↔ in_range None (e_key e) ∧ entry_of contacts src e.
Proof.
  apply (cursor_walk_in_order users conn (collecting {["users" := contacts]}) contacts
           (FromIndex "byEmail") None (push_value 0));
    [reflexivity|reflexivity|reflexivity|reflexivity| |].
  - apply (bool_decide_unpack _). vm_compute. exact I.
  - vm_compute. eauto.
Defined.

(** C7 as stated fails for [cursorIndex]: the sample store has three
    records, the second of which has no [email]; the walk over the index
    on [email] ends after visiting the third and the first, in this
    order, and never visits the second. *)
Lemma cursorIndex_skips_records_outside_the_index :
  let w := collecting {["users" := contacts]} in
  let r := cursorIndex users "byEmail" (push_value 0) None w in
  length (os_records contacts) = 3%nat
  ∧ r.1 = Return 0%nat
  ∧ state_of 0 (run no_faults 3 r.2) = Fulfilled VUndefined
  ∧ w_live (run no_faults 4 r.2) = []
  ∧ w_heap (run no_faults 4 r.2) = [[contact 3 "al@x.org"; contact 1 "zoe@x.org"]].
Proof. vm_compute. repeat split. Qed.

(** ** [getAll] *)

Lemma sh_settle_awaited w tx db live cs h clk v r :
  settle (length (w_promises w) + 1) (Fulfilled v)
    (shape w tx [new_cell []; awaited_cell (length (w_promises w)) r] db live cs h clk)
  = shape w tx [set_settlement (Fulfilled r) (new_cell []);
                set_settlement (Fulfilled v) (awaited_cell (length (w_promises w)) r)]
      db live cs h clk.
Proof.
  unfold settle.
  assert (Hl : w_promises (shape w tx [new_cell []; awaited_cell (length (w_promises w)) r]
                             db live cs h clk) !! (length (w_promises w) + 1)%nat
               = Some (awaited_cell (length (w_promises w)) r)).
  { unfold shape. simpl. rewrite lookup_app_r by lia.
    by replace (length (w_promises w) + 1 - length (w_promises w))%nat with 1%nat by lia. }
  rewrite Hl. cbn [p_state awaited_cell p_reactions foldl react].
  unfold settle_only. rewrite sh_alter_promise.
  match goal with
  | |- set_promises (alter ?g _) (shape _ _ ?cells' _ _ _ _ _) = _ =>
      pose proof (sh_alter_promise w tx cells' db live cs h clk g 0) as Ha
  end.
  rewrite Nat.add_0_r in Ha. by rewrite Ha.
Qed.

Lemma collect_values cs0 t src range items (h0 : heap) es : ∀ acc,
  items = length h0 →
  foldl (visit (push_value items) cs0 t src range) (h0 ++ [acc]) es
  = h0 ++ [acc ++ (e_value <$> es)].
Proof.
  induction es as [|e es IH]; intros acc ->; simpl.
  - by rewrite app_nil_r.
  - unfold visit at 2, push_value, cursor_value, array_push.
    rewrite lookup_snoc. simpl. rewrite alter_snoc.
    rewrite IH by done. by rewrite <-app_assoc.
Qed.

Lemma getAll_opened this db range w os :
  store_field this = registered db → w_db w !! name this = Some os → w_live w = [] →
  getAll this range w
  = (Return (length (w_promises w)),
     walk_opened w (name this) os FromStore range (push_value (length (w_heap w)))
       [new_cell []; awaited_cell (length (w_promises w)) (VRef (length (w_heap w)))] 1
       (w_cursors w) (w_heap w ++ [[]]) (w_clock w)).
Proof.
  intros Hreg Hos Hq. rewrite (getAll_sync this db _ _ os) by done.
  unfold walk_opened. by rewrite Nat.add_1_r, Hq.
Qed.

(** [getAll] of the current version: the promise is pending during the
    walk and is then fulfilled with the array, which holds the values of
    the entries met, in the order of the walk. *)
Lemma getAll_run this db range w os :
  store_field this = registered db → w_db w !! name this = Some os → w_live w = [] →
  StronglySorted key_lt (os_records os).*1 →
  let es := visited os FromStore range in
  let w1 := (getAll this range w).2 in
  (getAll this range w).1 = Return (length (w_promises w))
  ∧ (∀ m, (m ≤ length es)%nat →
       state_of (length (w_promises w)) (run no_faults m w1) = Pending)
  ∧ state_of (length (w_promises w)) (run no_faults (S (length es)) w1)
    = Fulfilled (VRef (length (w_heap w)))
  ∧ w_heap (run no_faults (S (length es)) w1) !! length (w_heap w)
    = Some (e_value <$> es).
Proof.
  intros Hreg Hos Hq Hsorted es w1. subst es w1.
  rewrite (getAll_opened this db range w os) by done. cbn [fst snd].
  split; [done|]. split; [|split].
  - intros m Hm.
    edestruct walk_run_before as (Hp & _); [exact Hos|exact Hsorted|exact Hm|].
    unfold state_of. rewrite Hp.
    rewrite lookup_app_r by lia. by rewrite Nat.sub_diag.
  - rewrite walk_run_end by done. unfold walk_ended.
    rewrite sh_settle_awaited. by rewrite sh_state_first.
  - rewrite walk_run_end by done. unfold walk_ended.
    rewrite sh_settle_awaited. cbn [w_heap shape].
    rewrite collect_values by done. by rewrite lookup_snoc.
Qed.

(** After a [clear] that was fulfilled, [getAll] is fulfilled with an
    empty array by the first step of the engine. *)
Lemma getAll_after_clear this db w os faults n v :
  store_field this = registered db → w_db w !! name this = Some os → w_live w = [] →
  (clear this w).1 = Return (length (w_promises w))
  ∧ (state_of (length (w_promises w)) (run faults n (clear this w).2) = Fulfilled v →
     ∃ q items w2,
       getAll this None (run faults n (clear this w).2) = (Return q, w2)
       ∧ state_of q (run no_faults 1 w2) = Fulfilled (VRef items)
       ∧ w_heap (run no_faults 1 w2) !! items = Some []).
Proof.
  intros Hreg Hos Hq. rewrite (clear_sync this db w os) by done. cbn [fst snd].
  split; [done|]. intros Hful.
  destruct (fulfilled_write_committed w (name this) os [op_clear] faults n v
              Hos ltac:(by repeat constructor) Hq Hful) as (_ & Hdb & Hlive).
  set (w' := run faults n _) in *.
  assert (Hos' : w_db w' !! name this = Some (with_records [] os)).
  { rewrite Hdb. by apply lookup_alter_records. }
  destruct (getAll_run this db None w' (with_records [] os) Hreg Hos' Hlive)
    as (Hret & _ & Hst & Hheap); [constructor|].
  exists (length (w_promises w')), (length (w_heap w')), (getAll this None w').2.
  split; [|split].
  - rewrite <-Hret. by destruct (getAll this None w').
  - exact Hst.
  - exact Hheap.
Qed.

(** C8.  [getAll] of [src/index.ts], the earlier version, on a store
    with the two records [ann] and [bob]: the promise it returns is
    fulfilled at once, before the engine has taken a step, with an array
    that is still empty; the walk then pushes the cursor itself, so that
    the array ends up holding the same cursor handle twice, and no value.
    [getAll] of the current version, in the same world, is fulfilled when
    the walk has ended, with the array of the two values in key order. *)
Theorem legacy_getAll_returns_cursor_handles :
  let w := world_of {["users" := keyed_store [(KNum 1, ann); (KNum 2, bob)]]} in
  ((Legacy.getAll conn "users" None w).1 = Return 1%nat
   ∧ state_of 1 (Legacy.getAll conn "users" None w).2 = Fulfilled (VRef 0)
   ∧ w_heap (Legacy.getAll conn "users" None w).2 = [[]]
   ∧ w_live (run no_faults 4 (Legacy.getAll conn "users" None w).2) = []
   ∧ w_heap (run no_faults 4 (Legacy.getAll conn "users" None w).2)
     = [[VCursor 0; VCursor 0]])
  ∧ ((getAll users None w).1 = Return 0%nat
     ∧ state_of 0 (run no_faults 2 (getAll users None w).2) = Pending
     ∧ state_of 0 (run no_faults 3 (getAll users None w).2) = Fulfilled (VRef 0)
     ∧ w_heap (run no_faults 3 (getAll users None w).2) = [[ann; bob]]).
Proof. vm_compute. repeat split. Qed.

(** * What every step of the engine keeps *)

(** ** A settled promise stays as it is *)

Lemma settle_only_stays q s w p :
  state_of p w ≠ Pending → state_of p (settle_only q s w) = state_of p w.
Proof.
  unfold state_of, settle_only. simpl. intros Hp.
  rewrite list_lookup_alter. destruct (decide (q = p)) as [->|]; [|done].
  destruct (w_promises w !! p) as [c|]; [|done]. simpl in *.
  unfold settle_cell. by destruct (p_state c) eqn:E.
Qed.

Lemma set_element_state q i v w p :
  state_of p (set_promises (alter (set_element i v) q) w) = state_of p w.
Proof.
  unfold state_of. simpl. rewrite list_lookup_alter.
  destruct (decide (q = p)) as [->|]; [|done]. by destruct (w_promises w !! p).
Qed.

Lemma react_stays s w r p :
  state_of p w ≠ Pending → state_of p (react s w r) = state_of p w.
Proof.
  intros Hp. destruct s as [|v|e], r as [q i|q result]; simpl; try done.
  - destruct (w_promises w !! q) as [c|]; [|done]. case_decide.
    + rewrite settle_only_stays; rewrite set_element_state; done.
    + by rewrite set_element_state.
  - by apply settle_only_stays.
  - by apply settle_only_stays.
  - by apply settle_only_stays.
Qed.

Lemma reactions_stay s rs p : ∀ w,
  state_of p w ≠ Pending → state_of p (foldl (react s) w rs) = state_of p w.
Proof.
  induction rs as [|r rs IH]; intros w Hp; simpl; [done|].
  rewrite IH; rewrite react_stays; done.
Qed.

Lemma settle_stays q s w p :
  state_of p w ≠ Pending → state_of p (settle q s w) = state_of p w.
Proof.
  intros Hp. unfold settle. destruct (w_promises w !! q) as [c|]; [|done].
  destruct (p_state c); try done.
  rewrite reactions_stay; rewrite settle_only_stays; done.
Qed.

Lemma cursor_continue_promises cur w :
  w_promises (cursor_continue cur w).2 = w_promises w.
Proof.
  unfold cursor_continue. destruct cur; try done.
  destruct (w_cursors w !! c) as [cu|]; [|done].
  destruct (cu_position cu); [|done].
  by destruct (tx_status_of <$> w_txs w !! cu_tx cu) as [[]|].
Qed.

Lemma state_of_same_promises p w w' :
  w_promises w' = w_promises w → state_of p w' = state_of p w.
Proof. unfold state_of. by intros ->. Qed.

Lemma invoke_stays c h w p :
  state_of p w ≠ Pending → state_of p (invoke c h w).2 = state_of p w.
Proof.
  intros Hp. destruct c as [q|q|q cb|q|cb]; simpl; try (by apply settle_stays).
  - unfold mbind, js_bind, get_state. simpl.
    destruct (falsy (result_of h w)); simpl; [by apply settle_stays|].
    unfold modify. simpl. apply state_of_same_promises.
    by rewrite cursor_continue_promises.
  - unfold mbind, js_bind, get_state. simpl.
    destruct (falsy (result_of h w)); simpl; [done|].
    unfold modify. simpl. apply state_of_same_promises.
    by rewrite cursor_continue_promises.
Qed.

Lemma fire_stays t h which w p :
  state_of p w ≠ Pending → state_of p (fire t h which w) = state_of p w.
Proof.
  intros Hp. unfold fire. destruct (which (handlers_of h w)) as [c|]; [|done].
  pose proof (invoke_stays c h w p Hp) as Hi.
  by destruct (invoke c h w) as [[?|?] w'].
Qed.

Lemma fire_error_stays t r w p :
  state_of p w ≠ Pending → state_of p (fire_error t r w) = state_of p w.
Proof.
  intros Hp. unfold fire_error.
  rewrite fire_stays; rewrite fire_stays; done.
Qed.

Lemma fail_request_stays t r e w p :
  state_of p w ≠ Pending → state_of p (fail_request t r e w) = state_of p w.
Proof.
  intros Hp. unfold fail_request.
  set (w0 := alter_request t r _ w).
  change (state_of p (fire_error t r w0) = state_of p w0).
  by apply fire_error_stays.
Qed.

Lemma step_stays faults w w' p :
  step faults w = Some w' → state_of p w ≠ Pending → state_of p w' = state_of p w.
Proof.
  unfold step. intros H Hp.
  destruct (w_live w) as [|t l]; [done|].
  destruct (w_txs w !! t) as [tx|]; [|by injection H as <-].
  destruct (tx_queue tx) as [|r q]; injection H as <-.
  - destruct (tx_status_of tx); try done; by rewrite fire_stays.
  - destruct (tx_status_of tx); try (by rewrite fire_error_stays).
    destruct (faults (w_clock w)); [by rewrite fail_request_stays|].
    destruct (tx_requests tx !! r) as [rq|]; [|done].
    destruct (execute _ _ _ _ _ _) as [[[e|v] rs] cs].
    + by rewrite fail_request_stays.
    + by rewrite fire_stays.
Qed.

Lemma run_stays faults n p : ∀ w,
  state_of p w ≠ Pending → state_of p (run faults n w) = state_of p w.
Proof.
  induction n as [|n IH]; intros w Hp; simpl; [done|].
  destruct (step faults w) as [w'|] eqn:E; [|done].
  rewrite IH; rewrite (step_stays faults w w' p E Hp); done.
Qed.

(** ** The clock counts the requests executed *)

Lemma invoke_clock c h w : w_clock (invoke c h w).2 = w_clock w.
Proof.
  assert (Hc : ∀ cur w, w_clock (cursor_continue cur w).2 = w_clock w).
  { intros cur w0. unfold cursor_continue. destruct cur; try done.
    destruct (w_cursors w0 !! c0) as [cu|]; [|done].
    destruct (cu_position cu); [|done].
    by destruct (tx_status_of <$> w_txs w0 !! cu_tx cu) as [[]|]. }
  destruct c as [p|p|p cb|p|cb]; simpl; rewrite ?settle_clock; try done.
  - unfold mbind, js_bind, get_state. simpl.
    destruct (falsy (result_of h w)); simpl; [by rewrite settle_clock|].
    unfold modify. simpl. by rewrite Hc.
  - unfold mbind, js_bind, get_state. simpl.
    destruct (falsy (result_of h w)); simpl; [done|].
    unfold modify. simpl. by rewrite Hc.
Qed.

Lemma fire_clock t h which w : w_clock (fire t h which w) = w_clock w.
Proof.
  unfold fire. destruct (which (handlers_of h w)) as [c|]; [|done].
  pose proof (invoke_clock c h w) as Hi.
  by destruct (invoke c h w) as [[?|?] w'].
Qed.

Lemma step_clock faults w w' :
  step faults w = Some w' → (w_clock w ≤ w_clock w' ≤ S (w_clock w))%nat.
Proof.
  unfold step. intros H.
  destruct (w_live w) as [|t l]; [done|].
  destruct (w_txs w !! t) as [tx|]; [|injection H as <-; simpl; lia].
  destruct (tx_queue tx) as [|r q]; injection H as <-.
  - destruct (tx_status_of tx); rewrite ?fire_clock; simpl; lia.
  - destruct (tx_status_of tx);
      try (unfold fire_error; rewrite !fire_clock; simpl; lia).
    destruct (faults (w_clock w)).
    { unfold fail_request, fire_error, abort. simpl. rewrite !fire_clock. simpl. lia. }
    destruct (tx_requests tx !! r) as [rq|]; [|simpl; lia].
    destruct (execute _ _ _ _ _ _) as [[[e|v] rs] cs].
    + unfold fail_request, fire_error, abort. simpl. rewrite !fire_clock. simpl. lia.
    + rewrite fire_clock. simpl. lia.
Qed.

(** The engine consults [faults] at the clock only: two fault schedules
    that agree on the clock values a run can reach give the same run. *)
Lemma step_faults_agree faults faults' w :
  faults (w_clock w) = faults' (w_clock w) → step faults w = step faults' w.
Proof. intros H. unfold step. by rewrite H. Qed.

Lemma run_faults_agree faults faults' n : ∀ w,
  (∀ c, (w_clock w ≤ c < w_clock w + n)%nat → faults c = faults' c) →
  run faults n w = run faults' n w.
Proof.
  induction n as [|n IH]; intros w H; simpl; [done|].
  rewrite (step_faults_agree faults faults' w) by (apply H; lia).
  destruct (step faults' w) as [w'|] eqn:E; [|done].
  apply IH. intros c Hc. apply H.
  pose proof (step_clock faults' w w' E). lia.
Qed.

Lemma run_0 faults w : run faults 0 w = w.
Proof. done. Qed.

(** * More on the write operations *)

Lemma write_call_requests this db c w os p w1 :
  store_field this = registered db → w_db w !! name this = Some os →
  is_write c = true →
  perform this c w = (Return p, w1) →
  p = length (w_promises w)
  ∧ w1 = after_call w (write_transaction (name this) os (requests_of os c) p) [new_cell []].
Proof.
  intros Hreg Hos Hw Hp.
  destruct c as [?|? ?|value k0|?|values|value|k0| |? ?|? ? ?|?|? ?]; try done;
    simpl in Hp; simpl requests_of.
  - rewrite (set_sync_general this db _ _ _ os) in Hp by done.
    destruct (resolve_key os value k0) as [k|]; [|done]. by injection Hp as <- <-.
  - rewrite (setMany_sync this db _ _ os) in Hp by done.
    destruct (decide (all_keyed os values)); [|done]. by injection Hp as <- <-.
  - rewrite update_is_set, (set_sync_general this db _ _ _ os) in Hp by done.
    destruct (resolve_key os value None) as [k|]; [|done]. by injection Hp as <- <-.
  - rewrite (del_sync this db _ _ os) in Hp by done. by injection Hp as <- <-.
  - rewrite (clear_sync this db _ os) in Hp by done. by injection Hp as <- <-.
Qed.

Lemma requests_of_writes os c : Forall write_op (requests_of os c).
Proof.
  destruct c as [?|? ?|value k0|?|values|value|k0| |? ?|? ? ?|?|? ?]; simpl;
    try constructor; try done.
  - destruct (resolve_key os value k0); by repeat constructor.
  - induction values as [|v vs IH]; simpl; [constructor|].
    destruct (resolve_key os v None); by constructor.
  - destruct (resolve_key os value None); by repeat constructor.
Qed.

(** X1.  A write operation ([set], [setMany], [update], [del], [clear])
    that returned its promise, on a registered handle in a world with
    nothing pending: whatever the engine does, faults included, the
    database is at every moment either what it was, or what it was with
    the records of the one store replaced by those all requests of the
    call produce, the latter exactly when the promise is fulfilled; a
    rejected promise means an unchanged database; the other stores are
    never touched. *)
Theorem write_is_all_or_nothing this db c w os p w1 :
  store_field this = registered db → w_db w !! name this = Some os → w_live w = [] →
  is_write c = true → perform this c w = (Return p, w1) →
  ∀ faults n,
    (w_db (run faults n w1) = w_db w
     ∨ w_db (run faults n w1)
       = alter (with_records (written os c)) (name this) (w_db w))
    ∧ (∀ v, state_of p (run faults n w1) = Fulfilled v →
         v = VUndefined
         ∧ w_live (run faults n w1) = []
         ∧ w_db (run faults n w1)
           = alter (with_records (written os c)) (name this) (w_db w))
    ∧ (∀ r, state_of p (run faults n w1) = Rejected r →
         w_db (run faults n w1) = w_db w)
    ∧ (state_of p (run faults n w1) = Pending → w_db (run faults n w1) = w_db w)
    ∧ (∀ other, other ≠ name this →
         w_db (run faults n w1) !! other = w_db w !! other).
Proof.
  intros Hreg Hos Hq Hw Hperf faults n.
  destruct (write_call_requests this db c w os p w1 Hreg Hos Hw Hperf) as [-> ->].
  pose proof (requests_of_writes os c) as Hops.
  pose proof (write_phase_start w (name this) os (requests_of os c) Hq) as Hstart.
  pose proof (write_phase_run faults w (name this) os _ Hos Hops n _ Hstart) as Hrun.
  fold (written os c) in *.
  assert (Hdb : w_db (run faults n
                        (after_call w
                           (write_transaction (name this) os (requests_of os c)
                              (length (w_promises w))) [new_cell []])) = w_db w
                ∨ w_db (run faults n
                          (after_call w
                             (write_transaction (name this) os (requests_of os c)
                                (length (w_promises w))) [new_cell []]))
                  = alter (with_records (written os c)) (name this) (w_db w)
                  ∧ state_of (length (w_promises w))
                      (run faults n
                         (after_call w
                            (write_transaction (name this) os (requests_of os c)
                               (length (w_promises w))) [new_cell []]))
                    = Fulfilled VUndefined).
  { by apply write_phase_db. }
  split; [|split; [|split; [|split]]].
  - destruct Hdb as [?|[? _]]; eauto.
  - intros v Hful.
    by destruct (write_phase_fulfilled _ _ _ _ _ _ Hrun Hful) as (? & _ & ? & ? & _).
  - intros r Hr. by destruct (write_phase_rejected _ _ _ _ _ _ Hrun Hr).
  - intros Hpend. destruct Hdb as [?|[_ Hf]]; [done|]. by rewrite Hf in Hpend.
  - intros other Hne. destruct Hdb as [->|[-> _]]; [done|]. by rewrite lookup_alter_ne.
Qed.

(** X1, an instance: [update] of the record of [ann]. *)
Lemma write_is_all_or_nothing_witness :
  let w := world_of {["users" := keyed_store [(KNum 1, ann)]]} in
  let os := keyed_store [(KNum 1, ann)] in
  let c := call_update (user 1 "amy") in
  let w1 := (perform users c w).2 in
  (perform users c w).1 = Return 0%nat
  ∧ ∀ faults n,
    (w_db (run faults n w1) = w_db w
     ∨ w_db (run faults n w1)
       = alter (with_records (written os c)) (name users) (w_db w))
    ∧ (∀ v, state_of 0 (run faults n w1) = Fulfilled v →
         v = VUndefined
         ∧ w_live (run faults n w1) = []
         ∧ w_db (run faults n w1)
           = alter (with_records (written os c)) (name users) (w_db w))
    ∧ (∀ r, state_of 0 (run faults n w1) = Rejected r →
         w_db (run faults n w1) = w_db w)
    ∧ (state_of 0 (run faults n w1) = Pending → w_db (run faults n w1) = w_db w)
    ∧ (∀ other, other ≠ name users →
         w_db (run faults n w1) !! other = w_db w !! other).
Proof.
  split; [reflexivity|].
  apply (write_is_all_or_nothing users conn (call_update (user 1 "amy"))
           (world_of {["users" := keyed_store [(KNum 1, ann)]]})
           (keyed_store [(KNum 1, ann)]) 0);
    reflexivity.
Defined.


(** A write that was fulfilled has replaced the records of its store. *)
Lemma fulfilled_write_db this db c w os p w1 faults n v :
  store_field this = registered db → w_db w !! name this = Some os → w_live w = [] →
  is_write c = true → perform this c w = (Return p, w1) →
  state_of p (run faults n w1) = Fulfilled v →
  w_db (run faults n w1) = alter (with_records (written os c)) (name this) (w_db w)
  ∧ w_live (run faults n w1) = [].
Proof.
  intros Hreg Hos Hq Hw Hperf Hful.
  destruct (write_call_requests this db c w os p w1 Hreg Hos Hw Hperf) as [-> ->].
  by destruct (fulfilled_write_committed w (name this) os (requests_of os c) faults n v
                 Hos (requests_of_writes os c) Hq Hful) as (_ & ? & ?).
Qed.

(** After a write that was fulfilled, [get] reads the records the write
    produced. *)
Lemma write_then_get this db c w os p w1 faults n v k :
  store_field this = registered db → w_db w !! name this = Some os → w_live w = [] →
  is_write c = true → perform this c w = (Return p, w1) →
  state_of p (run faults n w1) = Fulfilled v →
  ∃ q w2, get this k (run faults n w1) = (Return q, w2)
          ∧ ∀ m, (1 ≤ m)%nat →
              state_of q (run no_faults m w2) = Fulfilled (stored (written os c) k).
Proof.
  intros Hreg Hos Hq Hw Hperf Hful.
  destruct (write_call_requests this db c w os p w1 Hreg Hos Hw Hperf) as [-> ->].
  destruct (fulfilled_write_committed w (name this) os (requests_of os c) faults n v
              Hos (requests_of_writes os c) Hq Hful) as (_ & Hdb & Hlive).
  set (w' := run faults n _) in *.
  destruct (get_run this db k w' (with_records (written os c) os) Hreg)
    as (w2 & Hget & Hm & _); [|done|].
  { rewrite Hdb. by apply lookup_alter_records. }
  eexists _, w2. split; [exact Hget|]. intros m Hle. by destruct (Hm m Hle) as [-> _].
Qed.

(** Without faults a write whose requests break no unique index is
    fulfilled once the engine has run the requests and committed. *)
Lemma write_resolves this db c w os p w1 :
  store_field this = registered db → w_db w !! name this = Some os → w_live w = [] →
  is_write c = true → perform this c w = (Return p, w1) →
  admissible os (os_records os) (requests_of os c) →
  state_of p (run no_faults (S (length (requests_of os c))) w1) = Fulfilled VUndefined.
Proof.
  intros Hreg Hos Hq Hw Hperf Hadm.
  destruct (write_call_requests this db c w os p w1 Hreg Hos Hw Hperf) as [-> ->].
  destruct (write_run_committed w (name this) os (requests_of os c) Hos
              (requests_of_writes os c) Hq Hadm) as [rqs ->].
  unfold write_world. by rewrite sh_state_first.
Qed.

Lemma records_get_delete k k' rs :
  records_get k' (records_delete k rs)
  = if decide (k' = k) then None else records_get k' rs.
Proof.
  unfold records_delete. induction rs as [|[k0 v0] rs IH]; simpl.
  - by destruct (decide (k' = k)).
  - destruct (decide (k0 ≠ k)) as [Hne|Heq].
    + rewrite filter_cons_True by done. simpl.
      destruct (decide (k' = k0)) as [->|]; [by rewrite decide_False|done].
    + rewrite filter_cons_False by done. apply dec_stable in Heq. subst k0.
      rewrite IH. by destruct (decide (k' = k)).
Qed.

(** X2.  [del(key)] on a registered handle, in a world with nothing
    pending: without faults its promise is fulfilled after two steps of
    the engine (the request, the commit), whether or not the key had a
    record; and whenever it has been fulfilled, [get] of that key is
    fulfilled with [undefined] and [get] of any other key with what the
    store held for it before. *)
Theorem del_then_get this db w os k :
  store_field this = registered db → w_db w !! name this = Some os → w_live w = [] →
  ∃ p w1, del this k w = (Return p, w1)
    ∧ state_of p (run no_faults 2 w1) = Fulfilled VUndefined
    ∧ ∀ faults n v k',
        state_of p (run faults n w1) = Fulfilled v →
        ∃ q w2, get this k' (run faults n w1) = (Return q, w2)
                ∧ ∀ m, (1 ≤ m)%nat →
                    state_of q (run no_faults m w2)
                    = Fulfilled (if decide (k' = k) then VUndefined
                                 else stored (os_records os) k').
Proof.
  intros Hreg Hos Hq.
  destruct (del this k w) as [r w1] eqn:Hdel.
  assert (Hperf : perform this (call_del k) w = (r, w1)) by done.
  pose proof Hdel as Hsync. rewrite (del_sync this db k w os Hreg Hos) in Hsync.
  injection Hsync as <- _.
  eexists _, w1. split; [done|]. split.
  - by apply (write_resolves this db (call_del k) w os _ w1).
  - intros faults n v k' Hful.
    destruct (write_then_get this db (call_del k) w os _ w1 faults n v k'
                Hreg Hos Hq eq_refl Hperf Hful) as (q & w2 & Hget & Hm).
    exists q, w2. split; [done|]. intros m Hle. rewrite (Hm m Hle). f_equal.
    unfold written, stored. simpl. rewrite records_get_delete.
    by destruct (decide (k' = k)).
Qed.

(** X2, an instance: deleting the record of [ann]. *)
Lemma del_then_get_witness :
  let w := world_of {["users" := keyed_store [(KNum 1, ann); (KNum 2, bob)]]} in
  let os := keyed_store [(KNum 1, ann); (KNum 2, bob)] in
  let k := KNum 1 in
  ∃ p w1, del users k w = (Return p, w1)
    ∧ state_of p (run no_faults 2 w1) = Fulfilled VUndefined
    ∧ ∀ faults n v k',
        state_of p (run faults n w1) = Fulfilled v →
        ∃ q w2, get users k' (run faults n w1) = (Return q, w2)
                ∧ ∀ m, (1 ≤ m)%nat →
                    state_of q (run no_faults m w2)
                    = Fulfilled (if decide (k' = k) then VUndefined
                                 else stored (os_records os) k').
Proof.
  apply (del_then_get users conn
           (world_of {["users" := keyed_store [(KNum 1, ann); (KNum 2, bob)]]})
           (keyed_store [(KNum 1, ann); (KNum 2, bob)]) (KNum 1)); reflexivity.
Defined.

(** X3.  [clear()] on a registered handle, in a world with nothing
    pending: without faults its promise is fulfilled after two steps of
    the engine; and whenever it has been fulfilled the store has no
    record left, [get] of any key is fulfilled with [undefined], and the
    other stores of the database are as they were. *)
Theorem clear_empties_the_store this db w os :
  store_field this = registered db → w_db w !! name this = Some os → w_live w = [] →
  ∃ p w1, clear this w = (Return p, w1)
    ∧ state_of p (run no_faults 2 w1) = Fulfilled VUndefined
    ∧ ∀ faults n v,
        state_of p (run faults n w1) = Fulfilled v →
        os_records <$> w_db (run faults n w1) !! name this = Some []
        ∧ (∀ other, other ≠ name this →
             w_db (run faults n w1) !! other = w_db w !! other)
        ∧ ∀ k, ∃ q w2, get this k (run faults n w1) = (Return q, w2)
                ∧ ∀ m, (1 ≤ m)%nat →
                    state_of q (run no_faults m w2) = Fulfilled VUndefined.
Proof.
  intros Hreg Hos Hq.
  destruct (clear this w) as [r w1] eqn:Hclear.
  assert (Hperf : perform this call_clear w = (r, w1)) by done.
  pose proof Hclear as Hsync. rewrite (clear_sync this db w os Hreg Hos) in Hsync.
  injection Hsync as <- _.
  eexists _, w1. split; [done|]. split.
  - by apply (write_resolves this db call_clear w os _ w1).
  - intros faults n v Hful.
    destruct (fulfilled_write_db this db call_clear w os _ w1 faults n v
                Hreg Hos Hq eq_refl Hperf Hful) as [Hdb _].
    split; [|split].
    + rewrite Hdb, lookup_alter_eq, Hos. done.
    + intros other Hne. rewrite Hdb. by rewrite lookup_alter_ne.
    + intros k.
      destruct (write_then_get this db call_clear w os _ w1 faults n v k
                  Hreg Hos Hq eq_refl Hperf Hful) as (q & w2 & Hget & Hm).
      by exists q, w2.
Qed.

(** X3, an instance: clearing a store with two records. *)
Lemma clear_empties_the_store_witness :
  let w := world_of {["users" := keyed_store [(KNum 1, ann); (KNum 2, bob)]]} in
  ∃ p w1, clear users w = (Return p, w1)
    ∧ state_of p (run no_faults 2 w1) = Fulfilled VUndefined
    ∧ ∀ faults n v,
        state_of p (run faults n w1) = Fulfilled v →
        os_records <$> w_db (run faults n w1) !! name users = Some []
        ∧ (∀ other, other ≠ name users →
             w_db (run faults n w1) !! other = w_db w !! other)
        ∧ ∀ k, ∃ q w2, get users k (run faults n w1) = (Return q, w2)
                ∧ ∀ m, (1 ≤ m)%nat →
                    state_of q (run no_faults m w2) = Fulfilled VUndefined.
Proof.
  apply (clear_empties_the_store users conn
           (world_of {["users" := keyed_store [(KNum 1, ann); (KNum 2, bob)]]})
           (keyed_store [(KNum 1, ann); (KNum 2, bob)])); reflexivity.
Defined.



(** X5.  When [put] refuses the call of [set] for a plain value (a key
    passed to a store with a key path, no key passed to a store without
    one, or a value whose key path does not lead to a valid key: a
    number, a string or an array of valid keys), [set] throws the
    [DataError] at once, and so does [update] for such a value.  A
    transaction has been opened by then; it holds no request and no
    promise was made, and whatever the engine does the database stays as
    it was. *)
Theorem refused_put_changes_nothing this db w os value (ko : option key) :
  store_field this = registered db → w_db w !! name this = Some os → w_live w = [] →
  plain value = true → resolve_key os value ko = None →
  ∃ w1, set this value ko w = (Throw (DOMException "DataError"), w1)
    ∧ (ko = None → update this value w = (Throw (DOMException "DataError"), w1))
    ∧ w_txs w1 = w_txs w ++ [open_tx (name this) os []]
    ∧ w_promises w1 = w_promises w
    ∧ ∀ faults n, w_db (run faults n w1) = w_db w.
Proof.
  intros Hreg Hos Hq _ Hkey.
  pose proof (set_sync_general this db value ko w os Hreg Hos) as Hset.
  rewrite Hkey in Hset. eexists. split; [exact Hset|].
  split; [by intros ->|]. split; [done|]. split; [apply app_nil_r|].
  intros faults n.
  assert (H1 : only_reading (w_db w) (after_call w (open_tx (name this) os []) [])).
  { rewrite after_call_shape. apply only_reading_shape; [by apply quiescent_only_reading|].
    exists os. repeat split; [done|constructor]. }
  by destruct (only_reading_run (w_db w) faults n _ H1).
Qed.

(** X5, an instance: [update] of a value without [id] on a store with
    the key path [id]. *)
Lemma refused_put_changes_nothing_witness :
  let w := world_of {["users" := keyed_store [(KNum 1, ann)]]} in
  let value := VObj [("name", VStr "eve")] in
  ∃ w1, set users value None w = (Throw (DOMException "DataError"), w1)
    ∧ (@None key = None → update users value w = (Throw (DOMException "DataError"), w1))
    ∧ w_txs w1 = w_txs w ++ [open_tx (name users) (keyed_store [(KNum 1, ann)]) []]
    ∧ w_promises w1 = w_promises w
    ∧ ∀ faults n, w_db (run faults n w1) = w_db w.
Proof.
  apply (refused_put_changes_nothing users conn
           (world_of {["users" := keyed_store [(KNum 1, ann)]]})
           (keyed_store [(KNum 1, ann)]) (VObj [("name", VStr "eve")]) None);
    reflexivity.
Defined.



(** ** A batch that stops half-way *)

Section unheard.
Variables (w : world) (nm : string) (os : objectStore) (ops : list operation).
Hypothesis Hos : w_db w !! nm = Some os.
Hypothesis Hops : Forall write_op ops.

Lemma unheard_progress m : ∀ i rqs clk,
  (i + m = length ops)%nat → rq_op <$> rqs = ops → quiet rqs →
  admissible os (foldl effect (os_records os) (take i ops)) (drop i ops) →
  ∃ rqs',
    run no_faults (S m)
      (shape w
         (unheard_tx nm rqs (seq i (length ops - i)) Active
            (foldl effect (os_records os) (take i ops)))
         [] (w_db w) [length (w_txs w)] (w_cursors w) (w_heap w) clk)
    = shape w
        (unheard_tx nm rqs' [] Committed (foldl effect (os_records os) ops))
        [] (alter (with_records (foldl effect (os_records os) ops)) nm (w_db w))
        [] (w_cursors w) (w_heap w) (clk + m).
Proof.
  induction m as [|m IH]; intros i rqs clk Hi Hrq Hquiet Hadm.
  - assert (i = length ops) as -> by lia.
    exists rqs. rewrite Nat.sub_diag.
    erewrite run_S; [reflexivity|].
    erewrite step_commit; [|reflexivity|apply sh_tx|reflexivity|reflexivity].
    ww. rewrite fire_none by (by rewrite sh_handlers_tx).
    rewrite take_ge by done. by rewrite Nat.add_0_r.
  - assert (Hlt : (i < length ops)%nat) by lia.
    destruct (lookup_lt_is_Some_2 ops i Hlt) as [op Hop].
    assert (∃ rq, rqs !! i = Some rq ∧ rq_op rq = op) as (rq & Hrqi & Hrqop).
    { rewrite <-Hrq, list_lookup_fmap in Hop.
      destruct (rqs !! i) as [rq|]; [|done]. exists rq. split; [done|].
      by injection Hop. }
    destruct (execute_admissible os ops Hops i op (length (w_txs w)) i (w_cursors w) Hadm Hop)
      as (v & Hex & Hadm').
    destruct (IH (S i) (alter (set_outcome v RNull) i rqs) (S clk)) as [rqs' Hrun];
      [lia|by rewrite ops_outcome|by apply quiet_outcome|done|].
    exists rqs'. replace (clk + S m)%nat with (S clk + m)%nat by lia.
    rewrite <-Hrun. apply run_S.
    replace (length ops - i)%nat with (S (length ops - S i)) by lia.
    cbn [seq].
    erewrite step_success; [|reflexivity|apply sh_tx|reflexivity|reflexivity|reflexivity|exact Hrqi|].
    2:{ simpl. rewrite Hos. simpl. rewrite Hrqop. exact Hex. }
    ww.
    rewrite (fire_none _ (h_request _ _))
      by (rewrite sh_handlers_request; cbn; by rewrite quiet_lookup by (by apply quiet_outcome)).
    done.
Qed.
End unheard.

Lemma accepted_prefix os v rest : ∀ done keys,
  Forall2 (λ v k, resolve_key os v None = Some k) done keys →
  resolve_key os v None = None →
  accepted os (done ++ v :: rest) = zip_with op_put keys done
  ∧ ¬ all_keyed os (done ++ v :: rest).
Proof.
  induction done as [|x done IH]; intros keys H Hv.
  - apply Forall2_nil_inv_l in H as ->. simpl. rewrite Hv. split; [done|].
    intros Hall. apply Forall_cons in Hall as [[k Hk] _]. by rewrite Hv in Hk.
  - apply Forall2_cons_inv_l in H as (k & keys' & Hk & H & ->).
    destruct (IH keys' H Hv) as [IH1 IH2]. simpl. rewrite Hk, IH1.
    split; [done|]. intros Hall. apply Forall_cons in Hall as [_ Hall]. by apply IH2.
Qed.

(** A batch that [put] refuses half-way: what was placed is carried out
    and committed. *)
Lemma setMany_refused_run this db w os done keys v rest :
  store_field this = registered db → w_db w !! name this = Some os → w_live w = [] →
  Forall (λ v, plain v = true) done → plain v = true →
  Forall2 (λ v k, resolve_key os v None = Some k) done keys →
  resolve_key os v None = None →
  admissible os (os_records os) (zip_with op_put keys done) →
  ∃ w1, setMany this (done ++ v :: rest) w = (Throw (DOMException "DataError"), w1)
    ∧ w_promises w1 = w_promises w
    ∧ ∀ m, (S (length done) ≤ m)%nat →
        w_live (run no_faults m w1) = []
        ∧ w_db (run no_faults m w1)
          = alter (with_records
                     (foldl effect (os_records os) (zip_with op_put keys done)))
              (name this) (w_db w).
Proof.
  intros Hreg Hos Hq _ _ Hdone Hv Hadm.
  destruct (accepted_prefix os v rest done keys Hdone Hv) as [Hacc Hnot].
  pose proof (setMany_sync this db (done ++ v :: rest) w os Hreg Hos) as Hset.
  rewrite decide_False, Hacc in Hset by done.
  eexists. split; [exact Hset|]. split; [apply app_nil_r|].
  intros m Hm.
  assert (Hlen : length (zip_with op_put keys done) = length done).
  { rewrite length_zip_with. apply Forall2_length in Hdone. lia. }
  destruct (unheard_progress w (name this) os (zip_with op_put keys done) Hos
              (puts_are_writes keys done) (length (zip_with op_put keys done)) 0
              (new_request <$> zip_with op_put keys done) (w_clock w))
    as [rqs Hrun]; [lia| | |done|].
  { rewrite <-list_fmap_compose. by rewrite list_fmap_id. }
  { apply Forall_fmap, Forall_forall. done. }
  rewrite Nat.sub_0_r in Hrun.
  replace m with (S (length (zip_with op_put keys done)) + (m - S (length done)))%nat by lia.
  rewrite run_add, after_call_shape, Hq.
  change (open_tx (name this) os (zip_with op_put keys done))
    with (unheard_tx (name this) (new_request <$> zip_with op_put keys done)
            (seq 0 (length (zip_with op_put keys done))) Active
            (foldl effect (os_records os) (take 0 (zip_with op_put keys done)))).
  simpl app. rewrite Hrun. by rewrite run_quiescent.
Qed.


(** X7.  [setMany] of a batch of plain values whose values [done] have
    valid keys at the key path and whose next value has none (its key
    path does not lead to a number, a string or an array of valid
    keys): the call throws the
    [DataError] of that value's [put], makes no promise, and the [put]s
    of [done] have been placed by then.  Nothing aborts them: without
    faults (and when they break no unique index) the engine carries them
    out and commits, so that the store ends up with [done] written and
    the rest of the batch not. *)
Theorem setMany_commits_what_it_placed this db w os done keys v rest :
  store_field this = registered db → w_db w !! name this = Some os → w_live w = [] →
  Forall (λ v, plain v = true) done → plain v = true →
  Forall2 (λ v k, resolve_key os v None = Some k) done keys →
  resolve_key os v None = None →
  admissible os (os_records os) (zip_with op_put keys done) →
  ∃ w1, setMany this (done ++ v :: rest) w = (Throw (DOMException "DataError"), w1)
    ∧ w_promises w1 = w_promises w
    ∧ ∀ m, (S (length done) ≤ m)%nat →
        w_live (run no_faults m w1) = []
        ∧ w_db (run no_faults m w1)
          = alter (with_records
                     (foldl effect (os_records os) (zip_with op_put keys done)))
              (name this) (w_db w).
Proof. apply setMany_refused_run. Qed.

(** X7, an instance: a batch of three whose second value has no [id]. *)
Lemma setMany_commits_what_it_placed_witness :
  let w := world_of {["users" := keyed_store []]} in
  let os := keyed_store [] in
  let done := [ann] in
  let keys := [KNum 1] in
  let v := VObj [("name", VStr "eve")] in
  let rest := [bob] in
  ∃ w1, setMany users (done ++ v :: rest) w = (Throw (DOMException "DataError"), w1)
    ∧ w_promises w1 = w_promises w
    ∧ ∀ m, (S (length done) ≤ m)%nat →
        w_live (run no_faults m w1) = []
        ∧ w_db (run no_faults m w1)
          = alter (with_records
                     (foldl effect (os_records os) (zip_with op_put keys done)))
              (name users) (w_db w).
Proof.
  apply (setMany_commits_what_it_placed users conn (world_of {["users" := keyed_store []]})
           (keyed_store []) [ann] [KNum 1] (VObj [("name", VStr "eve")]) [bob]);
    [reflexivity|reflexivity|reflexivity|by repeat constructor|reflexivity
    |by repeat constructor|reflexivity|].
  split; [reflexivity|exact I].
Defined.

(** ** Writes that fail *)

Section write_failure.
Variables (w : world) (nm : string) (os : objectStore) (ops : list operation).
Hypothesis Hos : w_db w !! nm = Some os.
Hypothesis Hops : Forall write_op ops.

Local Abbreviation running := (λ i rqs clk,
  write_world w
    (write_tx nm rqs (seq i (length ops - i)) RNull Active
       (foldl effect (os_records os) (take i ops)) (length (w_promises w)))
    (settled_cell Pending) (w_db w) [length (w_txs w)] clk).

(** The first requests of the call, carried out one by one. *)
Lemma write_steps_upto m : ∀ i rqs clk,
  (i + m ≤ length ops)%nat → rq_op <$> rqs = ops → quiet rqs →
  admissible os (foldl effect (os_records os) (take i ops)) (take m (drop i ops)) →
  ∃ rqs', rq_op <$> rqs' = ops ∧ quiet rqs'
          ∧ run no_faults m (running i rqs clk) = running (i + m)%nat rqs' (clk + m)%nat.
Proof.
  induction m as [|m IH]; intros i rqs clk Hi Hrq Hquiet Hadm.
  - exists rqs. by rewrite !Nat.add_0_r.
  - assert (Hlt : (i < length ops)%nat) by lia.
    destruct (lookup_lt_is_Some_2 ops i Hlt) as [op Hop].
    assert (∃ rq, rqs !! i = Some rq ∧ rq_op rq = op) as (rq & Hrqi & Hrqop).
    { rewrite <-Hrq, list_lookup_fmap in Hop.
      destruct (rqs !! i) as [rq|]; [|done]. exists rq. split; [done|].
      by injection Hop. }
    rewrite (drop_S _ _ _ Hop) in Hadm. cbn [take admissible] in Hadm.
    destruct Hadm as [Hhead Hrest].
    assert (Hw : write_op op) by (by eapply Forall_lookup_1 in Hops).
    assert (∃ v, execute os (length (w_txs w)) i op
                   (foldl effect (os_records os) (take i ops)) (w_cursors w)
                 = (inr v, foldl effect (os_records os) (take (S i) ops), w_cursors w))
      as [v Hex].
    { rewrite (take_S_r _ _ _ Hop), foldl_app. simpl.
      destruct op; simpl in *; try done; eauto. rewrite Hhead. eauto. }
    destruct (IH (S i) (alter (set_outcome v RNull) i rqs) (S clk)) as (rqs' & ? & ? & Hrun);
      [lia|by rewrite ops_outcome|by apply quiet_outcome| |].
    { by rewrite (take_S_r _ _ _ Hop), foldl_app. }
    exists rqs'. split; [done|]. split; [done|].
    replace (i + S m)%nat with (S i + m)%nat by lia.
    replace (clk + S m)%nat with (S clk + m)%nat by lia.
    rewrite <-Hrun. apply run_S.
    replace (length ops - i)%nat with (S (length ops - S i)) by lia.
    cbn [seq]. unfold write_world.
    erewrite step_success; [|reflexivity|apply sh_tx|reflexivity|reflexivity|reflexivity|exact Hrqi|].
    2:{ simpl. rewrite Hos. simpl. rewrite Hrqop. exact Hex. }
    ww.
    rewrite (fire_none _ (h_request _ _))
      by (rewrite sh_handlers_request; cbn; by rewrite quiet_lookup by (by apply quiet_outcome)).
    done.
Qed.

(** The step in which a request fails, by a fault of the engine or by a
    unique index: the error event reaches the transaction, whose own
    [error] is still [null], and that is what the promise is rejected
    with. *)
Lemma write_failing_step faults i rqs clk :
  (i < length ops)%nat → rq_op <$> rqs = ops → quiet rqs →
  (is_Some (faults clk)
   ∨ ∃ k v, ops !! i = Some (op_put k v)
            ∧ violates_unique os k v (foldl effect (os_records os) (take i ops)) = true) →
  ∃ w', step faults (running i rqs clk) = Some w'
        ∧ state_of (length (w_promises w)) w' = Rejected RNull.
Proof.
  intros Hlt Hrq Hquiet Hfail.
  destruct (lookup_lt_is_Some_2 ops i Hlt) as [op Hop].
  assert (∃ rq, rqs !! i = Some rq ∧ rq_op rq = op) as (rq & Hrqi & Hrqop).
  { rewrite <-Hrq, list_lookup_fmap in Hop.
    destruct (rqs !! i) as [rq|]; [|done]. exists rq. split; [done|].
    by injection Hop. }
  replace (length ops - i)%nat with (S (length ops - S i)) by lia.
  cbn [seq]. unfold write_world.
  destruct (faults clk) as [e|] eqn:Hf.
  - eexists. split.
    + erewrite step_fault; [reflexivity|reflexivity|apply sh_tx|reflexivity|reflexivity|exact Hf].
    + ww.
      rewrite (fire_none _ (h_request _ _))
        by (rewrite sh_handlers_request; cbn; by rewrite quiet_lookup by (by apply quiet_outcome)).
      erewrite fire_reject; [|by rewrite sh_handlers_tx].
      rewrite sh_settle_first by done. rewrite sh_error_tx. ww.
      by rewrite sh_state_first.
  - destruct Hfail as [[? ?]|(k & v & Hput & Hviol)]; [done|].
    rewrite Hop in Hput. injection Hput as ->.
    eexists. split.
    + erewrite step_failure; [reflexivity|reflexivity|apply sh_tx|reflexivity|reflexivity|exact Hf|exact Hrqi|].
      simpl. rewrite Hos. simpl. rewrite Hrqop. simpl. rewrite Hviol. reflexivity.
    + ww.
      rewrite (fire_none _ (h_request _ _))
        by (rewrite sh_handlers_request; cbn; by rewrite quiet_lookup by (by apply quiet_outcome)).
      erewrite fire_reject; [|by rewrite sh_handlers_tx].
      rewrite sh_settle_first by done. rewrite sh_error_tx. ww.
      by rewrite sh_state_first.
Qed.
End write_failure.

(** A write whose [i]-th request fails: rejected with [null], and the
    database as it was. *)
Lemma write_failure_run this db c w os p w1 faults i :
  store_field this = registered db → w_db w !! name this = Some os → w_live w = [] →
  is_write c = true → perform this c w = (Return p, w1) →
  (i < length (requests_of os c))%nat →
  admissible os (os_records os) (take i (requests_of os c)) →
  (∀ c', (w_clock w ≤ c' < w_clock w + i)%nat → faults c' = None) →
  (is_Some (faults (w_clock w + i)%nat)
   ∨ ∃ k v, requests_of os c !! i = Some (op_put k v)
            ∧ violates_unique os k v
                (foldl effect (os_records os) (take i (requests_of os c))) = true) →
  ∀ m, (i < m)%nat →
    state_of p (run faults m w1) = Rejected RNull
    ∧ w_db (run faults m w1) = w_db w.
Proof.
  intros Hreg Hos Hq Hw Hperf Hi Hadm Hnone Hfail m Hm.
  destruct (write_call_requests this db c w os p w1 Hreg Hos Hw Hperf) as [-> ->].
  pose proof (requests_of_writes os c) as Hops.
  set (ops := requests_of os c) in *.
  assert (Hst : state_of (length (w_promises w))
                  (run faults m
                     (after_call w (write_transaction (name this) os ops (length (w_promises w)))
                        [new_cell []])) = Rejected RNull).
  { rewrite after_call_shape, Hq. simpl app.
    replace m with (i + S (m - S i))%nat by lia. rewrite run_add.
    rewrite (run_faults_agree faults no_faults i) by (intros c' Hc'; by apply Hnone).
    destruct (write_steps_upto w (name this) os ops Hos Hops i 0 (new_request <$> ops)
                (w_clock w)) as (rqs & Hrq & Hquiet & Hrun).
    { lia. }
    { rewrite <-list_fmap_compose. by rewrite list_fmap_id. }
    { apply Forall_fmap, Forall_forall. done. }
    { by rewrite drop_0. }
    unfold write_world in Hrun. rewrite Nat.sub_0_r in Hrun.
    change (write_transaction (name this) os ops (length (w_promises w)))
      with (write_tx (name this) (new_request <$> ops) (seq 0 (length ops)) RNull Active
              (foldl effect (os_records os) (take 0 ops)) (length (w_promises w))).
    change [new_cell []] with [settled_cell Pending].
    rewrite Hrun. simpl (0 + i)%nat.
    destruct (write_failing_step w (name this) os ops Hos faults i rqs (w_clock w + i)
                Hi Hrq Hquiet Hfail) as (w' & Hstep & Hrej).
    unfold write_world in Hstep.
    rewrite (run_S _ _ _ _ Hstep). rewrite run_stays; by rewrite Hrej. }
  split; [done|].
  pose proof (write_phase_start w (name this) os ops Hq) as Hstart.
  pose proof (write_phase_run faults w (name this) os _ Hos Hops m _ Hstart) as Hrun.
  by destruct (write_phase_rejected _ _ _ _ _ _ Hrun Hst).
Qed.


(** X19.  A write operation one of whose requests fails, the [i]-th,
    after the earlier ones were carried out: because the engine fails it
    (a fault at that point of the schedule) or because the [put] would
    give two records the same key in a unique index.  From that step on
    the promise is rejected, and with [null]: the handler of the
    transaction rejects with the [error] of the transaction, which the
    engine sets only when it aborts, after the event.  The database is
    as it was before the call, the earlier requests of the call
    included. *)
Theorem failed_write_is_rejected_with_null this db c w os p w1 faults i :
  store_field this = registered db → w_db w !! name this = Some os → w_live w = [] →
  is_write c = true → perform this c w = (Return p, w1) →
  (i < length (requests_of os c))%nat →
  admissible os (os_records os) (take i (requests_of os c)) →
  (∀ c', (w_clock w ≤ c' < w_clock w + i)%nat → faults c' = None) →
  (is_Some (faults (w_clock w + i)%nat)
   ∨ ∃ k v, requests_of os c !! i = Some (op_put k v)
            ∧ violates_unique os k v
                (foldl effect (os_records os) (take i (requests_of os c))) = true) →
  ∀ m, (i < m)%nat →
    state_of p (run faults m w1) = Rejected RNull
    ∧ w_db (run faults m w1) = w_db w.
Proof. apply write_failure_run. Qed.

(** X19, an instance: a batch of two whose second value has the [email]
    of a record of the store, in a store where [email] is unique. *)
Lemma failed_write_is_rejected_with_null_witness :
  let w := world_of {["users" := members]} in
  let c := call_setMany [contact 2 "al@x.org"; contact 3 "zoe@x.org"] in
  (perform users c w).1 = Return 0%nat
  ∧ ∀ m, (1 < m)%nat →
    state_of 0 (run no_faults m (perform users c w).2) = Rejected RNull
    ∧ w_db (run no_faults m (perform users c w).2) = w_db w.
Proof.
  split; [reflexivity|].
  apply (failed_write_is_rejected_with_null users conn
           (call_setMany [contact 2 "al@x.org"; contact 3 "zoe@x.org"])
           (world_of {["users" := members]}) members 0
           (perform users (call_setMany [contact 2 "al@x.org"; contact 3 "zoe@x.org"])
              (world_of {["users" := members]})).2 no_faults 1);
    [reflexivity|reflexivity|reflexivity|reflexivity|reflexivity| | | |].
  - vm_compute. lia.
  - vm_compute. tauto.
  - reflexivity.
  - right. exists (KNum 3), (contact 3 "zoe@x.org"). split; reflexivity.
Defined.

(** * More on the read operations *)

Lemma read_steps_upto w nm os keys m : ∀ i cs h clk,
  w_db w !! nm = Some os →
  (i + m ≤ length keys)%nat →
  run no_faults m
    (shape w (read_tx_at nm os keys (length (w_promises w)) i)
       (read_cells_at os keys (length (w_promises w)) i)
       (w_db w) [length (w_txs w)] cs h clk)
  = shape w (read_tx_at nm os keys (length (w_promises w)) (i + m))
      (read_cells_at os keys (length (w_promises w)) (i + m))
      (w_db w) [length (w_txs w)] cs h (clk + m).
Proof.
  induction m as [|m IH]; intros i cs h clk Hos Him.
  - cbn [run]. by rewrite !Nat.add_0_r.
  - cbn [run]. rewrite (read_step no_faults w nm os keys Hos) by (done || lia).
    replace (i + S m)%nat with (S i + m)%nat by lia.
    replace (clk + S m)%nat with (S clk + m)%nat by lia.
    apply IH; [done|lia].
Qed.

(** X8.  [getMany(keys)] on a registered handle, in a world with nothing
    pending and without faults: the promise stays pending while requests
    of the call are outstanding and is fulfilled by the step that answers
    the last one, with the array that holds, for each key of [keys] in
    their order (repetitions included), the value stored under it, or
    [undefined] where the store has no record; for no keys at all it is
    fulfilled when the call returns.  The database is left as it was. *)
Theorem getMany_resolves_in_key_order this db keys w os :
  store_field this = registered db → w_db w !! name this = Some os → w_live w = [] →
  ∃ q w1, getMany this keys w = (Return q, w1)
    ∧ (∀ m, (m < length keys)%nat → state_of q (run no_faults m w1) = Pending)
    ∧ (∀ m, (length keys ≤ m)%nat →
         state_of q (run no_faults m w1)
         = Fulfilled (VArr ((λ k, default VUndefined (records_get k (os_records os)))
                              <$> keys))
         ∧ w_db (run no_faults m w1) = w_db w).
Proof.
  intros Hreg Hos Hq.
  eexists _, _. split; [by eapply getMany_sync|]. split.
  - intros m Hm.
    rewrite after_call_shape, Hq, read_tx_at_0, (read_cells_at_0 os). simpl app.
    rewrite (read_steps_upto w (name this) os keys m 0) by (done || lia).
    rewrite sh_state, read_cells_at_last. simpl.
    by rewrite decide_False by lia.
  - intros m Hm.
    destruct (getMany_run this db keys w os m Hreg Hos Hq Hm) as (w1 & Hget & Hst & Hdb).
    rewrite (getMany_sync this db keys w os Hreg Hos) in Hget. injection Hget as <-.
    by split.
Qed.

(** X8, an instance: three keys, one of them without a record, one
    repeated. *)
Lemma getMany_resolves_in_key_order_witness :
  let w := world_of {["users" := keyed_store [(KNum 1, ann); (KNum 2, bob)]]} in
  let os := keyed_store [(KNum 1, ann); (KNum 2, bob)] in
  let keys := [KNum 2; KNum 7; KNum 2] in
  ∃ q w1, getMany users keys w = (Return q, w1)
    ∧ (∀ m, (m < length keys)%nat → state_of q (run no_faults m w1) = Pending)
    ∧ (∀ m, (length keys ≤ m)%nat →
         state_of q (run no_faults m w1)
         = Fulfilled (VArr ((λ k, default VUndefined (records_get k (os_records os)))
                              <$> keys))
         ∧ w_db (run no_faults m w1) = w_db w).
Proof.
  apply (getMany_resolves_in_key_order users conn [KNum 2; KNum 7; KNum 2]
           (world_of {["users" := keyed_store [(KNum 1, ann); (KNum 2, bob)]]})
           (keyed_store [(KNum 1, ann); (KNum 2, bob)])); reflexivity.
Defined.

(** ** Reads that the engine fails *)

Lemma get_fault_step faults w nm os k cs h clk err :
  faults clk = Some err →
  step faults
    (shape w (read_transaction nm os [k] (length (w_promises w))) [new_cell []] (w_db w)
       [length (w_txs w)] cs h clk)
  = Some (shape w
            (set_status Aborting
               (set_tx_error (RExn (DOMException err))
                  (set_requests (alter (set_outcome VUndefined (RExn (DOMException err))) 0%nat)
                     (set_queue (λ _, [])
                        (read_transaction nm os [k] (length (w_promises w)))))))
            [set_settlement (Rejected (RExn (DOMException err))) (new_cell [])]
            (w_db w) [length (w_txs w)] cs h (S clk)).
Proof.
  intros Hf.
  erewrite step_fault; [|reflexivity|apply sh_tx|reflexivity|reflexivity|exact Hf].
  f_equal. unfold fail_request, fire_error.
  repeat (rewrite ?sh_alter_tx, ?sh_alter_request, ?sh_set_db, ?sh_set_live,
            ?sh_set_cursors, ?sh_set_heap, ?sh_tick).
  erewrite (fire_reject _ (h_request _ _)) by (rewrite sh_handlers_request; reflexivity).
  rewrite sh_error_request. cbn [tx_requests set_requests set_queue read_transaction imap
    alter list_alter lookup list_lookup from_option rq_error set_outcome promisified_request].
  rewrite (Nat.add_0_r (length (w_promises w))).
  rewrite sh_settle_first by done.
  rewrite fire_none by (by rewrite sh_handlers_tx).
  by rewrite sh_abort.
Qed.

(** X9.  [get] when the engine fails its request (the fault schedule
    has an error at the clock of the call): the promise is rejected at
    the first step with the [DOMException] of the engine, which is the
    [error] of the request, stays so, and the database is as it was. *)
Theorem get_rejects_with_the_engine_error this db k w os faults err :
  store_field this = registered db → w_db w !! name this = Some os → w_live w = [] →
  faults (w_clock w) = Some err →
  ∃ p w1, get this k w = (Return p, w1)
    ∧ state_of p w1 = Pending
    ∧ ∀ m, (1 ≤ m)%nat →
        state_of p (run faults m w1) = Rejected (RExn (DOMException err))
        ∧ w_db (run faults m w1) = w_db w.
Proof.
  intros Hreg Hos Hq Hf.
  eexists _, _. split; [by eapply get_sync|].
  assert (H1 : only_reading (w_db w)
                 (after_call w (read_transaction (name this) os [k] (length (w_promises w)))
                    [new_cell []])).
  { rewrite after_call_shape. apply only_reading_shape; [by apply quiescent_only_reading|].
    by apply reading_read_transaction. }
  split; [|intros m Hm; split].
  - rewrite after_call_shape. by rewrite sh_state_first.
  - rewrite after_call_shape, Hq. simpl app.
    replace m with (1 + (m - 1))%nat by lia. rewrite run_add.
    erewrite (run_S _ 0) by (by apply get_fault_step). cbn [run].
    rewrite run_stays; by rewrite sh_state_first.
  - by destruct (only_reading_run (w_db w) faults m _ H1).
Qed.

(** X9, an instance: a quota error at the first request. *)
Lemma get_rejects_with_the_engine_error_witness :
  let w := world_of {["users" := keyed_store [(KNum 1, ann)]]} in
  let faults := λ n : nat, if decide (n = 0%nat) then Some "QuotaExceededError" else None in
  ∃ p w1, get users (KNum 1) w = (Return p, w1)
    ∧ state_of p w1 = Pending
    ∧ ∀ m, (1 ≤ m)%nat →
        state_of p (run faults m w1) = Rejected (RExn (DOMException "QuotaExceededError"))
        ∧ w_db (run faults m w1) = w_db w.
Proof.
  apply (get_rejects_with_the_engine_error users conn (KNum 1)
           (world_of {["users" := keyed_store [(KNum 1, ann)]]})
           (keyed_store [(KNum 1, ann)])
           (λ n : nat, if decide (n = 0%nat) then Some "QuotaExceededError" else None)
           "QuotaExceededError"); reflexivity.
Defined.

(** ** [getByIndex] *)

Lemma head_filter_sorted {A} (R : relation A) (P : A → Prop)
    `{!∀ x, Decision (P x)} (l : list A) e :
  StronglySorted R l → head (filter P l) = Some e →
  P e ∧ e ∈ l ∧ ∀ x, x ∈ l → P x → x = e ∨ R e x.
Proof.
  induction 1 as [|y l Hs IH Hall]; [done|].
  destruct (decide (P y)) as [Hy|Hy].
  - rewrite filter_cons_True by done. simpl. intros [= ->].
    split; [done|]. split; [by left|].
    intros x Hx _. apply elem_of_cons in Hx as [->|Hx]; [by left|].
    right. by eapply Forall_forall in Hall.
  - rewrite filter_cons_False by done. intros Hh.
    destruct (IH Hh) as (Hp & Hin & Hleast). split; [done|]. split; [by right|].
    intros x Hx Hpx. apply elem_of_cons in Hx as [->|Hx]; [done|]. by apply Hleast.
Qed.

Lemma head_filter_none {A} (P : A → Prop) `{!∀ x, Decision (P x)} (l : list A) :
  (∀ x, x ∈ l → ¬ P x) → head (filter P l) = None.
Proof.
  induction l as [|y l IH]; intros Hno; [done|].
  rewrite filter_cons_False by (apply Hno; by left).
  apply IH. intros x Hx. apply Hno. by right.
Qed.

Lemma entry_lt_same_key a b :
  e_key a = e_key b → entry_lt a b → key_lt (e_primaryKey a) (e_primaryKey b).
Proof.
  unfold entry_lt, pos_lt, position. simpl. intros -> [Hlt|[_ Hlt]]; [|done].
  by apply key_lt_irrefl in Hlt.
Qed.

Lemma index_get_step w nm os i k cs h clk :
  w_db w !! nm = Some os →
  step no_faults
    (shape w
       (single_request_tx nm os
          (promisified_request (op_get (FromIndex i) k) (length (w_promises w))))
       [new_cell []] (w_db w) [length (w_txs w)] cs h clk)
  = Some
      (shape w
         (set_records (os_records os)
            (set_requests
               (alter (set_outcome
                         (from_option e_value VUndefined
                            (head (filter (λ e, e_key e = k)
                                     (view_of os (FromIndex i) (os_records os)))))
                         RNull) 0%nat)
               (set_queue (λ _, [])
                  (single_request_tx nm os
                     (promisified_request (op_get (FromIndex i) k)
                        (length (w_promises w)))))))
         [set_settlement
            (Fulfilled (from_option e_value VUndefined
                          (head (filter (λ e, e_key e = k)
                                   (view_of os (FromIndex i) (os_records os))))))
            (new_cell [])]
         (w_db w) [length (w_txs w)] cs h (S clk)).
Proof.
  intros Hos.
  erewrite step_success; [|reflexivity|apply sh_tx|reflexivity|reflexivity|reflexivity|reflexivity|].
  2:{ cbn [w_db shape tx_store single_request_tx rq_op tx_records w_cursors
           promisified_request].
      rewrite Hos. reflexivity. }
  f_equal.
  repeat (rewrite ?sh_alter_tx, ?sh_alter_request, ?sh_set_db, ?sh_set_live,
            ?sh_set_cursors, ?sh_set_heap, ?sh_tick).
  erewrite fire_resolve by (rewrite sh_handlers_request; reflexivity).
  rewrite sh_result_request.
  cbn [tx_requests set_records set_requests set_queue single_request_tx
       alter list_alter lookup list_lookup from_option rq_result set_outcome
       promisified_request].
  by rewrite sh_settle_first.
Qed.

(** X13.  [getByIndex(indexName, indexValue)] on an index of the store
    and with a value that is a valid key, nothing pending, no faults, the
    records in key order: the promise is fulfilled by the first step of
    the engine and the database is left as it was.  The result is
    [undefined] when no record has the key at the key path of the index;
    otherwise it is the value of a record that has it there, and of those
    records the one with the lowest primary key. *)
Theorem getByIndex_finds_the_first_match this db w os i ix v k :
  storeIndex_field this = registered db → w_db w !! name this = Some os →
  w_live w = [] → StronglySorted key_lt (os_records os).*1 →
  os_indexes os !! i = Some ix → to_key v = Some k →
  ∃ p w1 result, getByIndex this i v w = (Return p, w1)
    ∧ state_of p w1 = Pending
    ∧ (∀ m, (1 ≤ m)%nat →
         state_of p (run no_faults m w1) = Fulfilled result
         ∧ w_db (run no_faults m w1) = w_db w)
    ∧ ((∀ pk val, (pk, val) ∈ os_records os → key_at (ix_keyPath ix) val ≠ Some k) →
         result = VUndefined)
    ∧ (∀ pk val, (pk, val) ∈ os_records os → key_at (ix_keyPath ix) val = Some k →
         ∃ pk0, (pk0, result) ∈ os_records os
                ∧ key_at (ix_keyPath ix) result = Some k
                ∧ (pk0 = pk ∨ key_lt pk0 pk)).
Proof.
  intros Hreg Hos Hq Hsorted Hix Hk.
  pose proof (getByIndex_sync this db i v w os Hreg Hos) as Hsync.
  rewrite Hix, Hk in Hsync.
  eexists _, _, _. split; [exact Hsync|].
  assert (H1 : only_reading (w_db w)
                 (after_call w
                    (single_request_tx (name this) os
                       (promisified_request (op_get (FromIndex i) k)
                          (length (w_promises w)))) [new_cell []])).
  { rewrite after_call_shape. apply only_reading_shape; [by apply quiescent_only_reading|].
    apply reading_single; [done|]. simpl. tauto. }
  split; [|split; [|split]].
  - rewrite after_call_shape. by rewrite sh_state_first.
  - intros m Hm. split; [|by destruct (only_reading_run (w_db w) no_faults m _ H1)].
    rewrite after_call_shape, Hq. simpl app.
    replace m with (1 + (m - 1))%nat by lia. rewrite run_add.
    erewrite (run_S _ 0) by (by apply index_get_step). rewrite run_0.
    rewrite run_stays; by rewrite sh_state_first.
  - intros Hnone. simpl view_of. rewrite Hix.
    rewrite head_filter_none; [done|].
    intros e He Hek. apply elem_of_index_view in He as (pk & val & ik & Hin & Hik & ->).
    simpl in Hek. subst ik. by apply (Hnone pk val).
  - intros pk val Hin Hval. simpl view_of. rewrite Hix.
    destruct (head (filter (λ e, e_key e = k) (index_view (ix_keyPath ix) (os_records os))))
      as [e|] eqn:Hhead.
    + destruct (head_filter_sorted entry_lt _ _ e (index_view_sorted _ _ Hsorted) Hhead)
        as (Hek & He & Hleast).
      apply elem_of_index_view in He as (pk0 & val0 & ik0 & Hin0 & Hik0 & ->).
      simpl in Hek. subst ik0. exists pk0. simpl. split; [done|]. split; [done|].
      destruct (Hleast {| e_key := k; e_primaryKey := pk; e_value := val |}) as [Heq|Hlt].
      * apply elem_of_index_view. by exists pk, val, k.
      * done.
      * left. by injection Heq.
      * right. by apply entry_lt_same_key in Hlt.
    + exfalso.
      assert (Hmem : {| e_key := k; e_primaryKey := pk; e_value := val |}
                     ∈ filter (λ e, e_key e = k) (index_view (ix_keyPath ix) (os_records os))).
      { apply list_elem_of_filter. split; [done|].
        apply elem_of_index_view. by exists pk, val, k. }
      destruct (filter _ _); [by apply elem_of_nil in Hmem|done].
Qed.

(** X13, an instance: the index on the nested path [address.city],
    asked for [rome]. *)
Lemma getByIndex_finds_the_first_match_witness :
  let w := world_of {["users" := places]} in
  let ix := {| ix_keyPath := "address.city"; ix_unique := false |} in
  let k := KStr "rome" in
  ∃ p w1 result, getByIndex users "byCity" (VStr "rome") w = (Return p, w1)
    ∧ state_of p w1 = Pending
    ∧ (∀ m, (1 ≤ m)%nat →
         state_of p (run no_faults m w1) = Fulfilled result
         ∧ w_db (run no_faults m w1) = w_db w)
    ∧ ((∀ pk val, (pk, val) ∈ os_records places → key_at (ix_keyPath ix) val ≠ Some k) →
         result = VUndefined)
    ∧ (∀ pk val, (pk, val) ∈ os_records places → key_at (ix_keyPath ix) val = Some k →
         ∃ pk0, (pk0, result) ∈ os_records places
                ∧ key_at (ix_keyPath ix) result = Some k
                ∧ (pk0 = pk ∨ key_lt pk0 pk)).
Proof.
  apply (getByIndex_finds_the_first_match users conn (world_of {["users" := places]})
           places "byCity" {| ix_keyPath := "address.city"; ix_unique := false |}
           (VStr "rome") (KStr "rome"));
    [reflexivity|reflexivity|reflexivity| |reflexivity|reflexivity].
  apply (bool_decide_unpack _). vm_compute. exact I.
Defined.

(** ** Calls the engine refuses *)

Lemma opened_and_left d w nm m os :
  w_live w = [] → w_db w = d → d !! nm = Some os →
  ∀ faults n, w_db (run faults n (after_call w (new_transaction nm m os) [])) = d.
Proof.
  intros Hq Hd Hos faults n.
  assert (H1 : only_reading d (after_call w (new_transaction nm m os) [])).
  { rewrite after_call_shape. subst d.
    apply only_reading_shape; [by apply quiescent_only_reading|]. by apply reading_new. }
  by destruct (only_reading_run d faults n _ H1).
Qed.

(** X14.  The operations on an index, when the engine refuses the call:
    on a name that is no index of the store [getByIndex] and
    [cursorIndex] throw a [NotFoundError], and on an index [getByIndex]
    throws a [DataError] for a plain value that is no valid key (neither
    a number, nor a string, nor an array of valid keys).  In each case
    the transaction has been opened by then; it holds no request, no
    promise was made, and the database stays as it was. *)
Theorem index_calls_refused this db w os i :
  storeIndex_field this = registered db → w_db w !! name this = Some os →
  w_live w = [] →
  (os_indexes os !! i = None →
     ∀ v cb range,
       getByIndex this i v w
       = (Throw (DOMException "NotFoundError"),
          after_call w (new_transaction (name this) readonly os) [])
       ∧ cursorIndex this i cb range w
         = (Throw (DOMException "NotFoundError"),
            after_call w (new_transaction (name this) readonly os) []))
  ∧ (is_Some (os_indexes os !! i) →
       ∀ v, plain v = true → to_key v = None →
         getByIndex this i v w
         = (Throw (DOMException "DataError"),
            after_call w (new_transaction (name this) readonly os) []))
  ∧ ∀ faults n,
      w_db (run faults n (after_call w (new_transaction (name this) readonly os) []))
      = w_db w.
Proof.
  intros Hreg Hos Hq. split; [|split].
  - intros Hix v cb range. split.
    + rewrite (getByIndex_sync this db i v w os Hreg Hos). by rewrite Hix.
    + rewrite (cursorIndex_sync this db i cb range w os Hreg Hos). by rewrite Hix.
  - intros [ix Hix] v _ Hv.
    rewrite (getByIndex_sync this db i v w os Hreg Hos). by rewrite Hix, Hv.
  - by apply opened_and_left.
Qed.

(** X14, an instance: the sample store, which has the one index
    [byEmail], asked for [byName], and asked for [byEmail] with a value
    that is no valid key. *)
Lemma index_calls_refused_witness :
  let w := world_of {["users" := contacts]} in
  let left_open := after_call w (new_transaction (name users) readonly contacts) [] in
  (∀ v cb range,
     getByIndex users "byName" v w = (Throw (DOMException "NotFoundError"), left_open)
     ∧ cursorIndex users "byName" cb range w
       = (Throw (DOMException "NotFoundError"), left_open))
  ∧ (∀ v, plain v = true → to_key v = None →
       getByIndex users "byEmail" v w = (Throw (DOMException "DataError"), left_open))
  ∧ ∀ faults n, w_db (run faults n left_open) = w_db w.
Proof.
  destruct (index_calls_refused users conn (world_of {["users" := contacts]}) contacts
              "byName") as (Hname & _ & Hrun); [reflexivity|reflexivity|reflexivity|].
  destruct (index_calls_refused users conn (world_of {["users" := contacts]}) contacts
              "byEmail") as (_ & Hemail & _); [reflexivity|reflexivity|reflexivity|].
  split; [apply Hname; reflexivity|].
  split; [apply Hemail; vm_compute; eauto|exact Hrun].
Defined.

(** X15.  A handle that was registered on a connection whose database
    has no store of its name: every operation fails at once with the
    [NotFoundError] of [db.transaction], thrown by all but [getAll] and
    [getAllByIndex], which return a promise rejected with it; no
    transaction is opened and the database is not touched. *)
Theorem missing_store_is_refused this db c w :
  store_field this = registered db → storeIndex_field this = registered db →
  w_db w !! name this = None →
  failure (perform this c w) = Some (RExn (DOMException "NotFoundError"))
  ∧ w_txs (perform this c w).2 = w_txs w
  ∧ w_live (perform this c w).2 = w_live w
  ∧ w_db (perform this c w).2 = w_db w.
Proof.
  intros Hreg Hreg' Hos.
  destruct c as [k|i v|value k0|keys|values|value|k0| |cb range|i cb range|range|i range];
    simpl perform;
    try (unfold get, set, getMany, setMany, update, del, clear, cursor;
         by rewrite (store_missing this db) by done);
    try (unfold getByIndex, cursorIndex;
         by rewrite (storeIndex_missing this db) by done).
  - unfold getAll, new_array. rewrite js_bind_run.
    rewrite (async_await_threw _ _ _ (DOMException "NotFoundError")
               (set_promises (λ ps, ps ++ [new_cell []]) (set_heap (λ h, h ++ [[]]) w))).
    2:{ unfold cursor. by rewrite (store_missing this db) by done. }
    unfold failure. cbn [fst snd].
    rewrite (state_of_settle_fresh _ _ _ (new_cell [])) by (done || apply lookup_snoc).
    by rewrite settle_txs, settle_live, settle_db.
  - unfold getAllByIndex, new_array. rewrite js_bind_run.
    rewrite (async_await_threw _ _ _ (DOMException "NotFoundError")
               (set_promises (λ ps, ps ++ [new_cell []]) (set_heap (λ h, h ++ [[]]) w))).
    2:{ unfold cursorIndex. by rewrite (storeIndex_missing this db) by done. }
    unfold failure. cbn [fst snd].
    rewrite (state_of_settle_fresh _ _ _ (new_cell [])) by (done || apply lookup_snoc).
    by rewrite settle_txs, settle_live, settle_db.
Qed.

(** X15, an instance: [getAll] on a database without the store. *)
Lemma missing_store_is_refused_witness :
  let w := world_of ∅ in
  let c := call_getAll None in
  failure (perform users c w) = Some (RExn (DOMException "NotFoundError"))
  ∧ w_txs (perform users c w).2 = w_txs w
  ∧ w_live (perform users c w).2 = w_live w
  ∧ w_db (perform users c w).2 = w_db w.
Proof.
  apply (missing_store_is_refused users conn (call_getAll None) (world_of ∅)); reflexivity.
Defined.

(** ** [getMany] when a request fails *)

(** Rejecting a pending promise whose one reaction feeds the
    [Promise.all] promise at [q]: that promise is rejected as well. *)
Lemma sh_reject_element w tx cells db live cs h clk j q i e c qc :
  cells !! j = Some c → p_state c = Pending →
  p_reactions c = [all_element (length (w_promises w) + q) i] →
  j ≠ q → cells !! q = Some qc → p_state qc = Pending →
  settle (length (w_promises w) + j) (Rejected e) (shape w tx cells db live cs h clk)
  = shape w tx
      (alter (set_settlement (Rejected e)) q (alter (set_settlement (Rejected e)) j cells))
      db live cs h clk.
Proof.
  intros Hc Hs Hr Hne Hqc Hqs. unfold settle.
  assert (Hl : w_promises (shape w tx cells db live cs h clk) !! (length (w_promises w) + j)%nat
               = Some c).
  { unfold shape. simpl. rewrite lookup_app_r by lia.
    by replace (length (w_promises w) + j - length (w_promises w))%nat with j by lia. }
  rewrite Hl, Hs, Hr. cbn [foldl react].
  unfold settle_only. rewrite !sh_alter_promise. f_equal.
  assert (Ha : alter (settle_cell (Rejected e)) j cells
               = alter (set_settlement (Rejected e)) j cells).
  { apply list_alter_ext; [|done]. intros x Hx. rewrite Hc in Hx. injection Hx as <-.
    unfold settle_cell. by rewrite Hs. }
  rewrite Ha. apply list_alter_ext; [|done].
  intros x Hx. rewrite list_lookup_alter_ne in Hx by done. rewrite Hqc in Hx.
  injection Hx as <-. unfold settle_cell. by rewrite Hqs.
Qed.

Lemma read_fault_step faults w nm os keys i cs h clk err :
  (i < length keys)%nat → faults clk = Some err →
  ∃ w', step faults
          (shape w (read_tx_at nm os keys (length (w_promises w)) i)
             (read_cells_at os keys (length (w_promises w)) i)
             (w_db w) [length (w_txs w)] cs h clk) = Some w'
        ∧ state_of (length (w_promises w) + length keys) w'
          = Rejected (RExn (DOMException err)).
Proof.
  intros Hi Hf.
  destruct (lookup_lt_is_Some_2 keys i Hi) as [k Hk].
  eexists. split.
  - erewrite step_fault; [reflexivity|reflexivity|apply sh_tx| |reflexivity|exact Hf].
    cbn [tx_queue read_tx_at].
    replace (length keys - i)%nat with (S (length keys - S i)) by lia. reflexivity.
  - unfold fail_request, fire_error.
    repeat (rewrite ?sh_alter_tx, ?sh_alter_request, ?sh_set_db, ?sh_set_live,
              ?sh_set_cursors, ?sh_set_heap, ?sh_tick).
    erewrite (fire_reject _ (h_request _ _)).
    2:{ rewrite sh_handlers_request.
        cbn [tx_requests set_records set_requests set_queue read_tx_at].
        rewrite list_lookup_alter_eq, list_lookup_imap, Hk. reflexivity. }
    rewrite sh_error_request.
    cbn [tx_requests set_records set_requests set_queue read_tx_at].
    rewrite list_lookup_alter_eq, list_lookup_imap, Hk.
    cbn [fmap option_fmap option_map from_option set_outcome rq_error].
    unfold read_cells_at at 1.
    erewrite (sh_reject_element _ _ _ _ _ _ _ _ i (length keys) i).
    2:{ rewrite lookup_app_l by (by rewrite length_imap).
        rewrite list_lookup_imap, Hk. reflexivity. }
    2:{ cbn. by rewrite decide_False by lia. }
    2:{ reflexivity. }
    2:{ lia. }
    2:{ apply list_lookup_middle. by rewrite length_imap. }
    2:{ cbn. by rewrite decide_False by lia. }
    rewrite fire_none by (by rewrite sh_handlers_tx).
    rewrite sh_abort, sh_state.
    rewrite list_lookup_alter_eq, list_lookup_alter_ne by lia.
    rewrite list_lookup_middle by (by rewrite length_imap). done.
Qed.

(** X20.  [getMany] when the engine fails the request of the [i]-th
    key, after the earlier ones were answered: from that step on the
    promise of [getMany] is rejected with the [DOMException] of that
    request, whatever becomes of the requests after it, and the database
    is as it was. *)
Theorem getMany_rejects_with_the_first_error this db keys w os faults i err :
  store_field this = registered db → w_db w !! name this = Some os → w_live w = [] →
  (i < length keys)%nat →
  (∀ c, (w_clock w ≤ c < w_clock w + i)%nat → faults c = None) →
  faults (w_clock w + i)%nat = Some err →
  ∃ q w1, getMany this keys w = (Return q, w1)
    ∧ ∀ m, (i < m)%nat →
        state_of q (run faults m w1) = Rejected (RExn (DOMException err))
        ∧ w_db (run faults m w1) = w_db w.
Proof.
  intros Hreg Hos Hq Hi Hnone Hf.
  eexists _, _. split; [by eapply getMany_sync|].
  assert (H1 : only_reading (w_db w)
                 (after_call w (read_transaction (name this) os keys (length (w_promises w)))
                    (getMany_cells (length (w_promises w)) (length keys)))).
  { rewrite after_call_shape. apply only_reading_shape; [by apply quiescent_only_reading|].
    by apply reading_read_transaction. }
  intros m Hm. split; [|by destruct (only_reading_run (w_db w) faults m _ H1)].
  rewrite after_call_shape, Hq, read_tx_at_0, (read_cells_at_0 os). simpl app.
  replace m with (i + S (m - S i))%nat by lia. rewrite run_add.
  rewrite (run_faults_agree faults no_faults i) by (intros c Hc; by apply Hnone).
  rewrite (read_steps_upto w (name this) os keys i 0) by (done || lia).
  simpl (0 + i)%nat.
  destruct (read_fault_step faults w (name this) os keys i (w_cursors w) (w_heap w)
              (w_clock w + i) err Hi Hf) as (w' & Hstep & Hrej).
  rewrite (run_S _ _ _ _ Hstep). rewrite run_stays; by rewrite Hrej.
Qed.

(** X20, an instance: three keys, the request of the second failed. *)
Lemma getMany_rejects_with_the_first_error_witness :
  let w := world_of {["users" := keyed_store [(KNum 1, ann); (KNum 2, bob)]]} in
  let faults := λ n : nat, if decide (n = 1%nat) then Some "UnknownError" else None in
  ∃ q w1, getMany users [KNum 1; KNum 2; KNum 3] w = (Return q, w1)
    ∧ ∀ m, (1 < m)%nat →
        state_of q (run faults m w1) = Rejected (RExn (DOMException "UnknownError"))
        ∧ w_db (run faults m w1) = w_db w.
Proof.
  apply (getMany_rejects_with_the_first_error users conn [KNum 1; KNum 2; KNum 3]
           (world_of {["users" := keyed_store [(KNum 1, ann); (KNum 2, bob)]]})
           (keyed_store [(KNum 1, ann); (KNum 2, bob)])
           (λ n : nat, if decide (n = 1%nat) then Some "UnknownError" else None)
           1 "UnknownError");
    [reflexivity|reflexivity|reflexivity| | |reflexivity].
  - vm_compute. lia.
  - intros c Hc. simpl in Hc. assert (c = 0%nat) as -> by lia. reflexivity.
Defined.

(** * More on the walks *)

Section walk_fault.
Variables (w : world) (nm : string) (os : objectStore) (src : source).
Variables (range : option IDBKeyRange) (cb : visitor).
Variable cs0 : list cursor_object.
Variable faults : nat → option string.

Local Abbreviation opened := (walk_opened w nm os src range cb [new_cell []] 0 cs0).
Local Abbreviation on := (walk_on w nm os src range cb [new_cell []] 0 cs0).

Lemma walk_fault_opened h clk err :
  faults clk = Some err →
  step faults (opened h clk)
  = Some (walk_failed w nm os (op_openCursor src range) cb err cs0 h (S clk)).
Proof.
  intros Hf. unfold walk_opened, walk_failed.
  erewrite step_fault; [|reflexivity|apply sh_tx|reflexivity|reflexivity|exact Hf].
  f_equal. unfold fail_request, fire_error.
  repeat (rewrite ?sh_alter_tx, ?sh_alter_request, ?sh_set_db, ?sh_set_live,
            ?sh_set_cursors, ?sh_set_heap, ?sh_tick).
  erewrite (fire_reject_fn _ (h_request _ _)) by (rewrite sh_handlers_request; reflexivity).
  rewrite (Nat.add_0_r (length (w_promises w))).
  rewrite sh_settle_first by done.
  rewrite fire_none by (by rewrite sh_handlers_tx).
  by rewrite sh_abort.
Qed.

Lemma walk_fault_on e h clk err :
  faults clk = Some err →
  step faults (on e h clk)
  = Some (walk_failed w nm os (op_continue (length cs0)) cb err
            (cs0 ++ [cursor_at (length (w_txs w)) src range (Some e)]) h (S clk)).
Proof.
  intros Hf. unfold walk_on, walk_failed.
  erewrite step_fault; [|reflexivity|apply sh_tx|reflexivity|reflexivity|exact Hf].
  f_equal. unfold fail_request, fire_error.
  repeat (rewrite ?sh_alter_tx, ?sh_alter_request, ?sh_set_db, ?sh_set_live,
            ?sh_set_cursors, ?sh_set_heap, ?sh_tick).
  erewrite (fire_reject_fn _ (h_request _ _)) by (rewrite sh_handlers_request; reflexivity).
  rewrite (Nat.add_0_r (length (w_promises w))).
  rewrite sh_settle_first by done.
  rewrite fire_none by (by rewrite sh_handlers_tx).
  by rewrite sh_abort.
Qed.

(** The aborted transaction finishes with the next step, and that is
    all. *)
Lemma walk_failed_run op err cs h clk m :
  w_heap (run faults m (walk_failed w nm os op cb err cs h clk)) = h
  ∧ state_of (length (w_promises w))
      (run faults m (walk_failed w nm os op cb err cs h clk)) = Rejected REvent.
Proof.
  split; [|rewrite run_stays; unfold walk_failed; by rewrite sh_state_first].
  destruct m as [|m]; [done|].
  unfold walk_failed.
  erewrite run_S.
  2:{ erewrite step_aborted; [|reflexivity|apply sh_tx|reflexivity|reflexivity].
      rewrite sh_set_live, sh_alter_tx.
      rewrite fire_none by (by rewrite sh_handlers_tx). reflexivity. }
  by rewrite run_quiescent.
Qed.
End walk_fault.

Lemma walk_call_reads src cb range : is_write (walk_call src cb range) = false.
Proof. by destruct src. Qed.

(** X10.  A walk of [cursor] or [cursorIndex] that the engine fails at
    its [i]-th step, after [i] entries have been visited: the promise of
    the walk is rejected by that step, and with the error event itself,
    not with the [DOMException] (the handler is [reject]); the visitor
    has been called on the first [i] entries and is not called again;
    the database is as it was. *)
Theorem walk_rejects_with_the_event this db w os src range cb faults i err :
  store_field this = registered db → storeIndex_field this = registered db →
  w_db w !! name this = Some os → w_live w = [] →
  StronglySorted key_lt (os_records os).*1 → has_source os src →
  (i ≤ length (visited os src range))%nat →
  (∀ c, (w_clock w ≤ c < w_clock w + i)%nat → faults c = None) →
  faults (w_clock w + i)%nat = Some err →
  (perform this (walk_call src cb range) w).1 = Return (length (w_promises w))
  ∧ ∀ m, (i < m)%nat →
      state_of (length (w_promises w))
        (run faults m (perform this (walk_call src cb range) w).2) = Rejected REvent
      ∧ w_heap (run faults m (perform this (walk_call src cb range) w).2)
        = foldl (visit cb (w_cursors w) (length (w_txs w)) src range) (w_heap w)
            (take i (visited os src range))
      ∧ w_db (run faults m (perform this (walk_call src cb range) w).2) = w_db w.
Proof.
  intros Hreg Hreg' Hos Hq Hsorted Hsrc Hi Hnone Hf.
  pose proof (read_call_only_reading this db (walk_call src cb range) w os Hreg Hreg' Hos
                (walk_call_reads src cb range) (quiescent_only_reading w Hq)) as Hro.
  rewrite (walk_call_sync this db w os src range cb) in * by done. cbn [fst snd] in *.
  split; [done|]. intros m Hm.
  split; [|split]; [| |by destruct (only_reading_run (w_db w) faults m _ Hro)].
  - replace m with (i + S (m - S i))%nat by lia. rewrite run_add.
    rewrite (run_faults_agree faults no_faults i) by (intros c Hc; by apply Hnone).
    destruct i as [|i].
    + rewrite run_0. erewrite run_S by (apply walk_fault_opened; by rewrite <-Hf, Nat.add_0_r).
      apply walk_failed_run.
    + destruct (lookup_lt_is_Some_2 (visited os src range) i) as [e He]; [lia|].
      rewrite (walk_run_on w (name this) os src range cb [new_cell []] 0 (w_cursors w)
                 Hos Hsorted (w_heap w) (w_clock w) i e He).
      erewrite run_S by (by apply walk_fault_on).
      apply walk_failed_run.
  - replace m with (i + S (m - S i))%nat by lia. rewrite run_add.
    rewrite (run_faults_agree faults no_faults i) by (intros c Hc; by apply Hnone).
    destruct i as [|i].
    + rewrite run_0. erewrite run_S by (apply walk_fault_opened; by rewrite <-Hf, Nat.add_0_r).
      apply walk_failed_run.
    + destruct (lookup_lt_is_Some_2 (visited os src range) i) as [e He]; [lia|].
      rewrite (walk_run_on w (name this) os src range cb [new_cell []] 0 (w_cursors w)
                 Hos Hsorted (w_heap w) (w_clock w) i e He).
      erewrite run_S by (by apply walk_fault_on).
      apply walk_failed_run.
Qed.

(** X10, an instance: the walk over the index on [email], failed at its
    second step. *)
Lemma walk_rejects_with_the_event_witness :
  let w := collecting {["users" := contacts]} in
  let src := FromIndex "byEmail" in
  let cb := push_value 0 in
  let faults := λ n : nat, if decide (n = 1%nat) then Some "UnknownError" else None in
  (perform users (walk_call src cb None) w).1 = Return (length (w_promises w))
  ∧ ∀ m, (1 < m)%nat →
      state_of (length (w_promises w))
        (run faults m (perform users (walk_call src cb None) w).2) = Rejected REvent
      ∧ w_heap (run faults m (perform users (walk_call src cb None) w).2)
        = foldl (visit cb (w_cursors w) (length (w_txs w)) src None) (w_heap w)
            (take 1 (visited contacts src None))
      ∧ w_db (run faults m (perform users (walk_call src cb None) w).2) = w_db w.
Proof.
  apply (walk_rejects_with_the_event users conn (collecting {["users" := contacts]}) contacts
           (FromIndex "byEmail") None (push_value 0)
           (λ n : nat, if decide (n = 1%nat) then Some "UnknownError" else None)
           1 "UnknownError");
    [reflexivity|reflexivity|reflexivity|reflexivity| | | | |reflexivity].
  - apply (bool_decide_unpack _). vm_compute. exact I.
  - vm_compute. eauto.
  - vm_compute. lia.
  - intros c Hc. simpl in Hc. assert (c = 0%nat) as -> by lia. reflexivity.
Defined.

(** ** [getAll] and [getAllByIndex] *)

Lemma collect_run w nm os src range clk :
  w_db w !! nm = Some os → StronglySorted key_lt (os_records os).*1 →
  (∀ m, (m ≤ length (visited os src range))%nat →
     state_of (length (w_promises w))
       (run no_faults m
          (walk_opened w nm os src range (push_value (length (w_heap w)))
             [new_cell []; awaited_cell (length (w_promises w)) (VRef (length (w_heap w)))]
             1 (w_cursors w) (w_heap w ++ [[]]) clk)) = Pending)
  ∧ state_of (length (w_promises w))
      (run no_faults (S (length (visited os src range)))
         (walk_opened w nm os src range (push_value (length (w_heap w)))
            [new_cell []; awaited_cell (length (w_promises w)) (VRef (length (w_heap w)))]
            1 (w_cursors w) (w_heap w ++ [[]]) clk))
    = Fulfilled (VRef (length (w_heap w)))
  ∧ w_heap
      (run no_faults (S (length (visited os src range)))
         (walk_opened w nm os src range (push_value (length (w_heap w)))
            [new_cell []; awaited_cell (length (w_promises w)) (VRef (length (w_heap w)))]
            1 (w_cursors w) (w_heap w ++ [[]]) clk)) !! length (w_heap w)
    = Some (e_value <$> visited os src range).
Proof.
  intros Hos Hsorted. split; [|split].
  - intros m Hm.
    edestruct walk_run_before as (Hp & _); [exact Hos|exact Hsorted|exact Hm|].
    unfold state_of. rewrite Hp.
    rewrite lookup_app_r by lia. by rewrite Nat.sub_diag.
  - rewrite walk_run_end by done. unfold walk_ended.
    rewrite sh_settle_awaited. by rewrite sh_state_first.
  - rewrite walk_run_end by done. unfold walk_ended.
    rewrite sh_settle_awaited. cbn [w_heap shape].
    rewrite collect_values by done. by rewrite lookup_snoc.
Qed.

Lemma values_in_range range rs :
  e_value <$> ahead range None (store_view rs)
  = (filter (λ r, in_range range r.1) rs).*2.
Proof.
  unfold ahead, store_view. induction rs as [|[k v] rs IH]; [done|].
  cbn [map]. destruct (decide (in_range range k)) as [Hin|Hout].
  - rewrite filter_cons_True by done.
    rewrite (filter_cons_True (λ r : key * jsval, in_range range r.1)) by done.
    cbn. by rewrite <-IH.
  - rewrite filter_cons_False by (simpl; tauto).
    by rewrite (filter_cons_False (λ r : key * jsval, in_range range r.1)) by done.
Qed.

(** X11.  [getAll(keyRangeValue)] of the current version, on a
    registered handle, nothing pending, no faults, the records in key
    order: the promise is pending while the walk goes on and is fulfilled
    by the step after the last record with the array [items], which then
    holds the values of exactly the records whose key is in the range
    (all records without a range), in the order of the store, that is, in
    ascending order of their keys. *)
Theorem getAll_returns_the_values_in_range this db range w os :
  store_field this = registered db → w_db w !! name this = Some os → w_live w = [] →
  StronglySorted key_lt (os_records os).*1 →
  ∃ p w1, getAll this range w = (Return p, w1)
    ∧ (∀ m, (m ≤ length (filter (λ r, in_range range r.1) (os_records os)))%nat →
         state_of p (run no_faults m w1) = Pending)
    ∧ state_of p
        (run no_faults (S (length (filter (λ r, in_range range r.1) (os_records os)))) w1)
      = Fulfilled (VRef (length (w_heap w)))
    ∧ w_heap
        (run no_faults (S (length (filter (λ r, in_range range r.1) (os_records os)))) w1)
        !! length (w_heap w)
      = Some (filter (λ r, in_range range r.1) (os_records os)).*2.
Proof.
  intros Hreg Hos Hq Hsorted.
  eexists _, _. split; [by eapply getAll_opened|].
  destruct (collect_run w (name this) os FromStore range (w_clock w) Hos Hsorted)
    as (Hpend & Hful & Hheap).
  assert (Hlen : length (visited os FromStore range)
                 = length (filter (λ r, in_range range r.1) (os_records os))).
  { rewrite <-(length_fmap e_value). unfold visited. simpl view_of.
    by rewrite values_in_range, length_fmap. }
  rewrite <-Hlen. split; [done|]. split; [done|].
  rewrite Hheap. f_equal. apply values_in_range.
Qed.

(** X11, an instance: the records with a key from 2 on, of three. *)
Lemma getAll_returns_the_values_in_range_witness :
  let w := world_of {["users" := contacts]} in
  let range := Some {| lower := Some (KNum 2); upper := None;
                       lowerOpen := false; upperOpen := false |} in
  ∃ p w1, getAll users range w = (Return p, w1)
    ∧ (∀ m, (m ≤ length (filter (λ r, in_range range r.1) (os_records contacts)))%nat →
         state_of p (run no_faults m w1) = Pending)
    ∧ state_of p
        (run no_faults
           (S (length (filter (λ r, in_range range r.1) (os_records contacts)))) w1)
      = Fulfilled (VRef (length (w_heap w)))
    ∧ w_heap
        (run no_faults
           (S (length (filter (λ r, in_range range r.1) (os_records contacts)))) w1)
        !! length (w_heap w)
      = Some (filter (λ r, in_range range r.1) (os_records contacts)).*2.
Proof.
  apply (getAll_returns_the_values_in_range users conn
           (Some {| lower := Some (KNum 2); upper := None;
                    lowerOpen := false; upperOpen := false |})
           (world_of {["users" := contacts]}) contacts);
    [reflexivity|reflexivity|reflexivity|].
  apply (bool_decide_unpack _). vm_compute. exact I.
Defined.

(** X12.  [getAllByIndex(indexName, keyRangeValue)].  On an index of the
    store: the promise is fulfilled by the step after the last entry with
    the array [items], which then holds the values of the entries of the
    index whose index key is in the range: the records with a valid key
    at the key path of the index, each once, in ascending order of index
    key and then primary key.  On a name that is no index of the store
    nothing is thrown: the method is [async], and the promise it returns
    is rejected with the [NotFoundError] when the call returns. *)
Theorem getAllByIndex_returns_the_index_order this db i range w os :
  storeIndex_field this = registered db → w_db w !! name this = Some os →
  w_live w = [] → StronglySorted key_lt (os_records os).*1 →
  (getAllByIndex this i range w).1 = Return (length (w_promises w))
  ∧ (os_indexes os !! i = None →
       state_of (length (w_promises w)) (getAllByIndex this i range w).2
       = Rejected (RExn (DOMException "NotFoundError")))
  ∧ (is_Some (os_indexes os !! i) →
       (∀ m, (m ≤ length (visited os (FromIndex i) range))%nat →
          state_of (length (w_promises w))
            (run no_faults m (getAllByIndex this i range w).2) = Pending)
       ∧ state_of (length (w_promises w))
           (run no_faults (S (length (visited os (FromIndex i) range)))
              (getAllByIndex this i range w).2)
         = Fulfilled (VRef (length (w_heap w)))
       ∧ w_heap
           (run no_faults (S (length (visited os (FromIndex i) range)))
              (getAllByIndex this i range w).2) !! length (w_heap w)
         = Some (e_value <$> visited os (FromIndex i) range)
       ∧ StronglySorted entry_lt (visited os (FromIndex i) range)
       ∧ ∀ e, e ∈ visited os (FromIndex i) range
              ↔ in_range range (e_key e) ∧ entry_of os (FromIndex i) e).
Proof.
  intros Hreg Hos Hq Hsorted.
  rewrite (getAllByIndex_sync this db i range w os Hreg Hos). cbn [fst snd].
  split; [done|]. split.
  - intros ->. by rewrite sh_state_first.
  - intros [ix Hix]. rewrite Hix, Hq. simpl app.
    rewrite <-(Nat.add_1_r (length (w_promises w))).
    destruct (collect_run w (name this) os (FromIndex i) range (w_clock w) Hos Hsorted)
      as (Hpend & Hful & Hheap).
    split; [exact Hpend|]. split; [exact Hful|]. split; [exact Hheap|].
    split; [by apply ahead_sorted, view_sorted|].
    intros e. apply elem_of_visited.
Qed.

(** X12, an instance: the index on the nested path [address.city]. *)
Lemma getAllByIndex_returns_the_index_order_witness :
  let w := world_of {["users" := places]} in
  let i := "byCity" in
  (getAllByIndex users i None w).1 = Return (length (w_promises w))
  ∧ (os_indexes places !! i = None →
       state_of (length (w_promises w)) (getAllByIndex users i None w).2
       = Rejected (RExn (DOMException "NotFoundError")))
  ∧ (is_Some (os_indexes places !! i) →
       (∀ m, (m ≤ length (visited places (FromIndex i) None))%nat →
          state_of (length (w_promises w))
            (run no_faults m (getAllByIndex users i None w).2) = Pending)
       ∧ state_of (length (w_promises w))
           (run no_faults (S (length (visited places (FromIndex i) None)))
              (getAllByIndex users i None w).2)
         = Fulfilled (VRef (length (w_heap w)))
       ∧ w_heap
           (run no_faults (S (length (visited places (FromIndex i) None)))
              (getAllByIndex users i None w).2) !! length (w_heap w)
         = Some (e_value <$> visited places (FromIndex i) None)
       ∧ StronglySorted entry_lt (visited places (FromIndex i) None)
       ∧ ∀ e, e ∈ visited places (FromIndex i) None
              ↔ in_range None (e_key e) ∧ entry_of places (FromIndex i) e).
Proof.
  apply (getAllByIndex_returns_the_index_order users conn "byCity" None
           (world_of {["users" := places]}) places);
    [reflexivity|reflexivity|reflexivity|].
  apply (bool_decide_unpack _). vm_compute. exact I.
Defined.

(** * More on migration and [init] *)

Lemma keeps_refl db : keeps db db.
Proof. intros n os H. by exists os. Qed.

Lemma keeps_trans db1 db2 db3 : keeps db1 db2 → keeps db2 db3 → keeps db1 db3.
Proof.
  intros H12 H23 n os H.
  destruct (H12 n os H) as (os2 & H2 & Hk2 & Hr2 & Hi2).
  destruct (H23 n os2 H2) as (os3 & H3 & Hk3 & Hr3 & Hi3).
  exists os3. split; [done|]. split; [congruence|]. split; [congruence|]. eauto.
Qed.

Lemma add_index_keeps os a i ix :
  os_indexes os !! i = Some ix → os_indexes (add_index os a) !! i = Some ix.
Proof.
  intros H. unfold add_index. destruct (os_indexes os !! ia_name a) eqn:E; [done|].
  simpl. rewrite lookup_insert_ne; [done|]. intros <-. by rewrite H in E.
Qed.

Lemma add_indexes_keep ixs : ∀ os i ix,
  os_indexes os !! i = Some ix → os_indexes (foldl add_index os ixs) !! i = Some ix.
Proof.
  induction ixs as [|a ixs IH]; intros os i ix H; simpl; [done|].
  by apply IH, add_index_keeps.
Qed.

Lemma upgraded_keeps this db : keeps db (upgraded this db).
Proof.
  intros n os H. unfold upgraded.
  destruct (decide (n = name this)) as [->|Hne].
  - rewrite lookup_insert_eq, H. simpl. eexists. split; [done|].
    rewrite add_indexes_keyPath, add_indexes_records.
    split; [done|]. split; [done|]. intros i ix. apply add_indexes_keep.
  - rewrite lookup_insert_ne by done. by exists os.
Qed.

Lemma migrate_keys_keep (obj : list (string * IDBStore)) ks : ∀ db : database,
  keeps db (for_each (λ key, match property obj key with
                             | Some v => upgrade v
                             | None => mret tt
                             end) ks db).2.
Proof.
  induction ks as [|k ks IH]; intros db; [apply keeps_refl|].
  cbn [for_each]. rewrite js_bind_run.
  destruct (property obj k) as [s|].
  - rewrite upgrade_spec. eapply keeps_trans; [apply upgraded_keeps|apply IH].
  - apply IH.
Qed.

(** X16.  Migration never changes what is there: after the Schema
    Migrator has run, every store that existed still exists with its key
    path and its records, and every index it had is defined as before.
    So a descriptor that declares another key path for a store, or
    another key path or uniqueness for an index that exists, changes
    nothing. *)
Theorem migration_keeps_what_exists (stores : list (string * IDBStore))
    (db : database) n os :
  db !! n = Some os →
  ∃ os', (migrate stores db).2 !! n = Some os'
         ∧ os_keyPath os' = os_keyPath os
         ∧ os_records os' = os_records os
         ∧ ∀ i ix, os_indexes os !! i = Some ix → os_indexes os' !! i = Some ix.
Proof. intros H. by apply (migrate_keys_keep stores (Object_keys stores) db). Qed.

(** X16, an instance: a descriptor that declares the key path [uid] and
    a unique index [byEmail] on [mail], against the sample store, which
    has the key path [id] and the index [byEmail] on [email]. *)
Lemma migration_keeps_what_exists_witness :
  let declared :=
    new_IDBStore "users"
      {| keyPath := Some "uid";
         indexes := Some [{| ia_name := "byEmail"; ia_keyPath := "mail";
                             ia_unique := true |}] |} in
  ∃ os', (migrate [("users", declared)] {["users" := contacts]}).2 !! "users" = Some os'
         ∧ os_keyPath os' = os_keyPath contacts
         ∧ os_records os' = os_records contacts
         ∧ ∀ i ix, os_indexes contacts !! i = Some ix → os_indexes os' !! i = Some ix.
Proof.
  apply (migration_keeps_what_exists
           [("users",
             new_IDBStore "users"
               {| keyPath := Some "uid";
                  indexes := Some [{| ia_name := "byEmail"; ia_keyPath := "mail";
                                      ia_unique := true |}] |})]
           {["users" := contacts]} "users" contacts).
  reflexivity.
Defined.




(** ** The earlier version's migration *)






(** * The walk of the earlier version *)

Lemma legacy_getAll_sync db nm range w os :
  w_db w !! nm = Some os → w_live w = [] →
  Legacy.getAll db nm range w
  = (Return (S (length (w_promises w))),
     walk_state w nm os (legacy_handlers (Legacy.push_cursor (length (w_heap w))))
       (legacy_cells (length (w_heap w))) (op_openCursor FromStore range) VUndefined
       [0%nat] (w_cursors w) (w_heap w ++ [[]]) (w_clock w)).
Proof.
  intros Hos Hq. destruct w as [v d txs live cs ps h c]. simpl in Hos, Hq. subst live.
  unfold Legacy.getAll, Legacy.cursor, Legacy.store, Legacy.then_return, new_array,
    new_Promise, resolve.
  unfold db_transaction, tx_objectStore, IDBObjectStore_openCursor, place, set_handlers.
  repeat (progress (wnorm; rewrite ?Hos; rewrite ?decide_True by done)).
  unfold settle. wnorm. cbn [foldl]. unfold settle_only, settle_cell. wnorm.
  unfold subscribe, state_of. wnorm.
  rewrite lookup_app_l by (rewrite length_app; simpl; lia).
  rewrite lookup_snoc. wnorm. unfold react, settle_only, settle_cell. wnorm.
  rewrite length_app, <-app_assoc. simpl. by rewrite Nat.add_1_r.
Qed.

Lemma fire_walk_end t h w cb :
  onsuccess (handlers_of h w) = Some (walk_onsuccess cb) →
  falsy (result_of h w) = true →
  fire t h onsuccess w = w.
Proof.
  intros Hh Hr. unfold fire. rewrite Hh. simpl.
  unfold mbind, js_bind, get_state. simpl. by rewrite Hr.
Qed.

Lemma fire_walk_more t h w cb w' :
  onsuccess (handlers_of h w) = Some (walk_onsuccess cb) →
  falsy (result_of h w) = false →
  cursor_continue (result_of h w) (set_heap (cb (result_of h w) (w_cursors w)) w)
  = (Return tt, w') →
  fire t h onsuccess w = w'.
Proof.
  intros Hh Hr Hc. unfold fire. rewrite Hh. simpl.
  unfold mbind, js_bind, get_state. simpl. rewrite Hr. simpl.
  unfold modify. simpl. by rewrite Hc.
Qed.

Section legacy_walk.
Variables (w : world) (nm : string) (os : objectStore).
Variables (range : option IDBKeyRange) (cb : visitor) (cells : list promise).
Variable cs0 : list cursor_object.
Hypothesis Hos : w_db w !! nm = Some os.
Hypothesis Hsorted : StronglySorted key_lt (os_records os).*1.

Local Abbreviation view := (view_of os FromStore (os_records os)).
Local Abbreviation es := (visited os FromStore range).
Local Abbreviation state := (walk_state w nm os (legacy_handlers cb) cells).
Local Abbreviation visit' := (visit cb cs0 (length (w_txs w)) FromStore range).
Local Abbreviation at_entry := (λ e,
  cs0 ++ [cursor_at (length (w_txs w)) FromStore range e]).

Lemma legacy_open_more e h clk :
  seek range None view = Some e →
  step no_faults (state (op_openCursor FromStore range) VUndefined [0%nat] cs0 h clk)
  = Some (state (op_continue (length cs0)) (VCursor (length cs0)) [0%nat]
            (at_entry (Some e)) (visit' h e) (S clk)).
Proof.
  intros Hseek. unfold walk_state.
  erewrite step_success; [|reflexivity|apply sh_tx|reflexivity|reflexivity|reflexivity|reflexivity|].
  2:{ cbn [w_db shape tx_store walk_tx rq_op walk_request tx_records w_cursors].
      rewrite Hos. cbn [default from_option id execute]. rewrite Hseek. reflexivity. }
  f_equal.
  repeat (rewrite ?sh_alter_tx, ?sh_alter_request, ?sh_set_db, ?sh_set_live,
            ?sh_set_cursors, ?sh_set_heap, ?sh_tick).
  erewrite fire_walk_more; [reflexivity|by rewrite sh_handlers_request|
                            by rewrite sh_result_request|].
  rewrite sh_result_request. cbn [tx_requests set_records set_requests set_queue walk_tx
    alter list_alter lookup list_lookup from_option rq_result set_outcome walk_request].
  rewrite sh_set_heap. unfold cursor_continue.
  cbn [w_cursors shape]. rewrite lookup_snoc.
  cbn [cu_position cu_tx cu_request position fmap option_fmap option_map].
  rewrite sh_tx. cbn.
  rewrite sh_alter_request, sh_alter_tx. reflexivity.
Qed.

Lemma legacy_open_end h clk :
  seek range None view = None →
  step no_faults (state (op_openCursor FromStore range) VUndefined [0%nat] cs0 h clk)
  = Some (state (op_openCursor FromStore range) VNull [] cs0 h (S clk)).
Proof.
  intros Hseek. unfold walk_state.
  erewrite step_success; [|reflexivity|apply sh_tx|reflexivity|reflexivity|reflexivity|reflexivity|].
  2:{ cbn [w_db shape tx_store walk_tx rq_op walk_request tx_records w_cursors].
      rewrite Hos. cbn [default from_option id execute]. rewrite Hseek. reflexivity. }
  f_equal.
  repeat (rewrite ?sh_alter_tx, ?sh_alter_request, ?sh_set_db, ?sh_set_live,
            ?sh_set_cursors, ?sh_set_heap, ?sh_tick).
  by erewrite fire_walk_end; [|by rewrite sh_handlers_request|by rewrite sh_result_request].
Qed.

Lemma legacy_continue_more e e' h clk :
  seek range (Some (position e)) view = Some e' →
  step no_faults (state (op_continue (length cs0)) (VCursor (length cs0)) [0%nat]
                    (at_entry (Some e)) h clk)
  = Some (state (op_continue (length cs0)) (VCursor (length cs0)) [0%nat]
            (at_entry (Some e')) (visit' h e') (S clk)).
Proof.
  intros Hseek. unfold walk_state.
  erewrite step_success; [|reflexivity|apply sh_tx|reflexivity|reflexivity|reflexivity|reflexivity|].
  2:{ cbn [w_db shape tx_store walk_tx rq_op walk_request tx_records w_cursors].
      rewrite Hos. cbn [default from_option id execute]. rewrite lookup_snoc.
      cbn [cursor_at cu_range cu_position cu_source fmap option_fmap option_map].
      rewrite Hseek. reflexivity. }
  f_equal.
  repeat (rewrite ?sh_alter_tx, ?sh_alter_request, ?sh_set_db, ?sh_set_live,
            ?sh_set_cursors, ?sh_set_heap, ?sh_tick).
  assert (Hcs : <[length cs0 := move_cursor (Some e')
                                  (cursor_at (length (w_txs w)) FromStore range (Some e))]>
                  (cs0 ++ [cursor_at (length (w_txs w)) FromStore range (Some e)])
                = cs0 ++ [cursor_at (length (w_txs w)) FromStore range (Some e')]).
  { rewrite <-(Nat.add_0_r (length cs0)) at 1. by rewrite insert_app_r. }
  rewrite Hcs.
  erewrite fire_walk_more; [reflexivity|by rewrite sh_handlers_request|
                            by rewrite sh_result_request|].
  rewrite sh_result_request. cbn [tx_requests set_records set_requests set_queue walk_tx
    alter list_alter lookup list_lookup from_option rq_result set_outcome walk_request].
  rewrite sh_set_heap. unfold cursor_continue.
  cbn [w_cursors shape]. rewrite lookup_snoc.
  cbn [cu_position cu_tx cu_request position fmap option_fmap option_map cursor_at].
  rewrite sh_tx. cbn.
  rewrite sh_alter_request, sh_alter_tx. reflexivity.
Qed.

Lemma legacy_continue_end e h clk :
  seek range (Some (position e)) view = None →
  step no_faults (state (op_continue (length cs0)) (VCursor (length cs0)) [0%nat]
                    (at_entry (Some e)) h clk)
  = Some (state (op_continue (length cs0)) VNull [] (at_entry None) h (S clk)).
Proof.
  intros Hseek. unfold walk_state.
  erewrite step_success; [|reflexivity|apply sh_tx|reflexivity|reflexivity|reflexivity|reflexivity|].
  2:{ cbn [w_db shape tx_store walk_tx rq_op walk_request tx_records w_cursors].
      rewrite Hos. cbn [default from_option id execute]. rewrite lookup_snoc.
      cbn [cursor_at cu_range cu_position cu_source fmap option_fmap option_map].
      rewrite Hseek. reflexivity. }
  f_equal.
  repeat (rewrite ?sh_alter_tx, ?sh_alter_request, ?sh_set_db, ?sh_set_live,
            ?sh_set_cursors, ?sh_set_heap, ?sh_tick).
  assert (Hcs : <[length cs0 := move_cursor None
                                  (cursor_at (length (w_txs w)) FromStore range (Some e))]>
                  (cs0 ++ [cursor_at (length (w_txs w)) FromStore range (Some e)])
                = cs0 ++ [cursor_at (length (w_txs w)) FromStore range None]).
  { rewrite <-(Nat.add_0_r (length cs0)) at 1. by rewrite insert_app_r. }
  rewrite Hcs.
  by erewrite fire_walk_end; [|by rewrite sh_handlers_request|by rewrite sh_result_request].
Qed.

Lemma legacy_run_on h clk m : ∀ e,
  es !! m = Some e →
  run no_faults (S m) (state (op_openCursor FromStore range) VUndefined [0%nat] cs0 h clk)
  = state (op_continue (length cs0)) (VCursor (length cs0)) [0%nat]
      (at_entry (Some e)) (foldl visit' h (take (S m) es)) (clk + S m).
Proof.
  induction m as [|m IH]; intros e He.
  - erewrite run_S.
    2:{ apply legacy_open_more. by rewrite (seek_first os FromStore range). }
    simpl run. rewrite (take_S_r _ _ _ He). simpl. by rewrite Nat.add_1_r.
  - destruct (lookup_lt_is_Some_2 es m) as [e0 He0].
    { apply lookup_lt_Some in He. lia. }
    rewrite run_snoc, (IH e0 He0).
    erewrite run_S.
    2:{ apply legacy_continue_more.
        by rewrite (seek_next os FromStore range Hsorted m e0 He0). }
    simpl run. rewrite (take_S_r _ (S m) _ He), foldl_app. simpl.
    by replace (clk + S (S m))%nat with (S (clk + S m)) by lia.
Qed.

Lemma legacy_run_heap h clk m :
  (m ≤ length es)%nat →
  w_heap (run no_faults m
            (state (op_openCursor FromStore range) VUndefined [0%nat] cs0 h clk))
  = foldl visit' h (take m es).
Proof.
  intros Hm. destruct m as [|m]; [done|].
  destruct (lookup_lt_is_Some_2 es m) as [e He]; [lia|].
  by rewrite (legacy_run_on h clk m e He).
Qed.

Lemma legacy_run_end h clk :
  ∃ op cs,
    run no_faults (S (length es))
      (state (op_openCursor FromStore range) VUndefined [0%nat] cs0 h clk)
    = state op VNull [] cs (foldl visit' h es) (clk + S (length es)).
Proof.
  destruct (length es) as [|n] eqn:Hn.
  - apply nil_length_inv in Hn. eexists _, _.
    erewrite run_S.
    2:{ apply legacy_open_end. by rewrite (seek_first os FromStore range), Hn. }
    simpl run. rewrite Hn. simpl. by rewrite Nat.add_1_r.
  - destruct (lookup_lt_is_Some_2 es n) as [e He]; [lia|]. eexists _, _.
    rewrite run_snoc, (legacy_run_on h clk n e He).
    erewrite run_S.
    2:{ apply legacy_continue_end. rewrite (seek_next os FromStore range Hsorted n e He).
        apply lookup_ge_None_2. lia. }
    simpl run. rewrite take_ge by lia.
    by replace (clk + S (S n))%nat with (S (clk + S n)) by lia.
Qed.
End legacy_walk.

Lemma collect_cursors cs0 t range (h0 : heap) es : ∀ acc,
  foldl (visit (Legacy.push_cursor (length h0)) cs0 t FromStore range) (h0 ++ [acc]) es
  = h0 ++ [acc ++ replicate (length es) (VCursor (length cs0))].
Proof.
  induction es as [|e es IH]; intros acc; simpl.
  - by rewrite app_nil_r.
  - unfold visit at 2, Legacy.push_cursor, array_push.
    rewrite alter_snoc. rewrite IH. by rewrite <-app_assoc.
Qed.

(** X21.  [getAll] of [src/index.ts], the earlier version, on any store
    of a quiescent world and with any range: the promise it returns is
    the second one of the call and is fulfilled with the array at once,
    before the engine has taken a step.  The walk then pushes
    the cursor handle, the same one at every entry: after [m] steps of the
    engine the array holds it [m] times, and once the walk has ended it
    holds it as many times as there are records in the range, and no
    value of the store. *)
Theorem legacy_getAll_collects_cursor_handles db nm range w os :
  w_db w !! nm = Some os → w_live w = [] →
  StronglySorted key_lt (os_records os).*1 →
  let es := visited os FromStore range in
  let p := S (length (w_promises w)) in
  let w1 := (Legacy.getAll db nm range w).2 in
  let handle := VCursor (length (w_cursors w)) in
  (Legacy.getAll db nm range w).1 = Return p
  ∧ state_of p w1 = Fulfilled (VRef (length (w_heap w)))
  ∧ (∀ m, (m ≤ length es)%nat →
       w_heap (run no_faults m w1) !! length (w_heap w) = Some (replicate m handle))
  ∧ w_heap (run no_faults (S (length es)) w1) !! length (w_heap w)
    = Some (replicate (length es) handle).
Proof.
  intros Hos Hq Hsorted es p w1 handle. subst es p w1 handle.
  rewrite (legacy_getAll_sync db nm range w os) by done. cbn [fst snd].
  split; [done|]. split; [|split].
  - unfold walk_state, legacy_cells.
    replace (S (length (w_promises w))) with (length (w_promises w) + 1)%nat by lia.
    by rewrite sh_state.
  - intros m Hm. rewrite legacy_run_heap by done.
    rewrite (collect_cursors (w_cursors w) _ range (w_heap w)).
    rewrite lookup_snoc. simpl. f_equal. f_equal.
    rewrite length_take. lia.
  - destruct (legacy_run_end w nm os range (Legacy.push_cursor (length (w_heap w)))
                (legacy_cells (length (w_heap w))) (w_cursors w) Hos Hsorted
                (w_heap w ++ [[]]) (w_clock w)) as (op & cs & ->).
    unfold walk_state. cbn [w_heap shape].
    rewrite (collect_cursors (w_cursors w) _ range (w_heap w)).
    by rewrite lookup_snoc.
Qed.

(** X21, an instance: the store of the two records [ann] and [bob]. *)
Lemma legacy_getAll_collects_cursor_handles_witness :
  let os := keyed_store [(KNum 1, ann); (KNum 2, bob)] in
  let w := world_of {["users" := os]} in
  let es := visited os FromStore None in
  let p := S (length (w_promises w)) in
  let w1 := (Legacy.getAll conn "users" None w).2 in
  let handle := VCursor (length (w_cursors w)) in
  (Legacy.getAll conn "users" None w).1 = Return p
  ∧ state_of p w1 = Fulfilled (VRef (length (w_heap w)))
  ∧ (∀ m, (m ≤ length es)%nat →
       w_heap (run no_faults m w1) !! length (w_heap w) = Some (replicate m handle))
  ∧ w_heap (run no_faults (S (length es)) w1) !! length (w_heap w)
    = Some (replicate (length es) handle).
Proof.
  apply (legacy_getAll_collects_cursor_handles conn "users" None
           (world_of {["users" := keyed_store [(KNum 1, ann); (KNum 2, bob)]]})
           (keyed_store [(KNum 1, ann); (KNum 2, bob)]));
    [reflexivity|reflexivity|].
  apply (bool_decide_unpack _). vm_compute. exact I.
Defined.

(** * Batches *)

Lemma last_written_cons k0 v0 keys values k :
  last_written (k0 :: keys) (v0 :: values) k
  = match last_written keys values k with
    | Some v => Some v
    | None => if decide (k0 = k) then Some v0 else None
    end.
Proof.
  unfold last_written. simpl.
  destruct (decide (k0 = k)) as [->|Hne].
  - rewrite filter_cons_True by done.
    destruct (filter _ (zip keys values)) as [|x l] eqn:E; [done|].
    rewrite last_cons_cons. destruct (last (x :: l)) eqn:E2; [done|].
    by apply last_None in E2.
  - rewrite filter_cons_False by done.
    by destruct (last (filter _ (zip keys values))).
Qed.

Lemma puts_get_last k keys : ∀ values rs,
  length keys = length values →
  records_get k (foldl effect rs (zip_with op_put keys values))
  = match last_written keys values k with
    | Some v => Some v
    | None => records_get k rs
    end.
Proof.
  induction keys as [|k0 keys IH]; intros [|v0 values] rs Hlen; try done.
  simpl in Hlen. cbn [zip_with foldl effect].
  rewrite IH by lia. rewrite last_written_cons.
  destruct (last_written keys values k); [done|].
  destruct (decide (k0 = k)) as [->|Hne].
  - apply records_get_put_eq.
  - by apply records_get_put_ne.
Qed.

Lemma last_written_elem k keys : ∀ values,
  length keys = length values → k ∈ keys → is_Some (last_written keys values k).
Proof.
  induction keys as [|k0 keys IH]; intros [|v0 values] Hlen Hk; try done.
  - by apply elem_of_nil in Hk.
  - rewrite last_written_cons. simpl in Hlen.
    apply elem_of_cons in Hk as [->|Hk].
    + destruct (last_written keys values k0); [by eexists|].
      rewrite decide_True by done. by eexists.
    + destruct (IH values) as [v ->]; [lia|done|]. by eexists.
Qed.

Lemma read_back_stored keys values rs :
  length keys = length values →
  stored (foldl effect rs (zip_with op_put keys values)) <$> keys
  = read_back keys values.
Proof.
  intros Hlen. unfold read_back. apply list_fmap_ext. intros i k Hk.
  unfold stored. rewrite puts_get_last by done.
  destruct (last_written_elem k keys values Hlen) as [v ->]; [|done].
  by eapply list_elem_of_lookup_2.
Qed.

Lemma read_back_distinct keys values :
  NoDup keys → length keys = length values → read_back keys values = values.
Proof.
  intros Hnd Hlen. rewrite <-(read_back_stored keys values []) by done.
  by apply puts_get_all.
Qed.

(** C2 (as the code has it).  The values are plain data.  When every
    value of the batch has a valid key at the key path of the store (the
    key path leads to a number, a string or an array of valid keys),
    [setMany] places one [put] per
    value in a single transaction and returns its promise.  Whatever the
    engine does then, the database is at every moment either what it was
    or what it was with every [put] of the batch applied, the latter only
    with the promise fulfilled; a rejected promise means an unchanged
    database.  When a request of the batch fails, the [i]-th, by a fault
    of the engine or because its [put] would break a unique index, the
    promise is rejected from that step on and the database is as it was.
    Once the promise is fulfilled, [getMany] over the keys of the batch
    is fulfilled with, at each position, the value the batch wrote last
    under that key; these are the values of the batch, in the order of
    the keys, when the keys are pairwise distinct.  And when the batch is
    followed by a value [put] refuses, [setMany] throws its [DataError]
    after it has placed the [put]s of the batch, which the engine then
    carries out and commits (no fault, no unique index broken): the
    store ends up with the batch written and the rest not. *)
Theorem setMany_all_or_nothing this db w os values keys :
  store_field this = registered db → w_db w !! name this = Some os → w_live w = [] →
  Forall (λ v, plain v = true) values →
  Forall2 (λ v k, resolve_key os v None = Some k) values keys →
  let batch := zip_with op_put keys values in
  let after := alter (with_records (foldl effect (os_records os) batch))
                 (name this) (w_db w) in
  (∃ p w1, setMany this values w = (Return p, w1)
    ∧ (∃ tx, w_txs w1 = w_txs w ++ [tx] ∧ rq_op <$> tx_requests tx = batch)
    ∧ (∀ faults n,
         (w_db (run faults n w1) = w_db w
          ∨ w_db (run faults n w1) = after
            ∧ state_of p (run faults n w1) = Fulfilled VUndefined)
         ∧ (∀ r, state_of p (run faults n w1) = Rejected r →
              w_db (run faults n w1) = w_db w)
         ∧ (∀ v, state_of p (run faults n w1) = Fulfilled v →
              ∃ q w2, getMany this keys (run faults n w1) = (Return q, w2)
                      ∧ ∀ m, (length keys ≤ m)%nat →
                          state_of q (run no_faults m w2)
                          = Fulfilled (VArr (read_back keys values))))
    ∧ (∀ faults i,
         (i < length values)%nat →
         admissible os (os_records os) (take i batch) →
         (∀ c, (w_clock w ≤ c < w_clock w + i)%nat → faults c = None) →
         (is_Some (faults (w_clock w + i)%nat)
          ∨ ∃ k v, batch !! i = Some (op_put k v)
                   ∧ violates_unique os k v
                       (foldl effect (os_records os) (take i batch)) = true) →
         ∀ m, (i < m)%nat →
           state_of p (run faults m w1) = Rejected RNull
           ∧ w_db (run faults m w1) = w_db w))
  ∧ (NoDup keys → read_back keys values = values)
  ∧ (∀ v rest,
       plain v = true → resolve_key os v None = None →
       admissible os (os_records os) batch →
       ∃ w1, setMany this (values ++ v :: rest) w = (Throw (DOMException "DataError"), w1)
         ∧ w_promises w1 = w_promises w
         ∧ ∀ m, (S (length values) ≤ m)%nat →
             w_live (run no_faults m w1) = [] ∧ w_db (run no_faults m w1) = after).
Proof.
  intros Hreg Hos Hq Hplain Hkeys batch after. subst batch after.
  assert (Hlen : length keys = length values).
  { symmetry. by eapply Forall2_length. }
  destruct (accepted_keyed os values keys Hkeys) as [Hacc Hall].
  pose proof (setMany_sync this db values w os Hreg Hos) as Hset.
  rewrite decide_True, Hacc in Hset by done.
  pose proof (puts_are_writes keys values) as Hops.
  split; [|split].
  - eexists _, _. split; [exact Hset|]. split; [|split].
    + eexists. split; [reflexivity|]. simpl.
      rewrite <-list_fmap_compose. by rewrite list_fmap_id.
    + intros faults n.
      pose proof (write_phase_start w (name this) os (zip_with op_put keys values) Hq)
        as Hstart.
      pose proof (write_phase_run faults w (name this) os _ Hos Hops n _ Hstart) as Hrun.
      split; [by apply write_phase_db|]. split.
      * intros r Hr. by destruct (write_phase_rejected _ _ _ _ _ _ Hrun Hr).
      * intros v Hful.
        destruct (fulfilled_write_committed w (name this) os _ faults n v Hos Hops Hq Hful)
          as (_ & Hdb & Hlive).
        set (w' := run faults n _) in *.
        destruct (getMany_run this db keys w'
                    (with_records (foldl effect (os_records os) (zip_with op_put keys values))
                       os)
                    (length keys) Hreg) as (w2 & Hget & _); [|done|done|].
        { rewrite Hdb. by apply lookup_alter_records. }
        eexists _, w2. split; [exact Hget|]. intros m Hm.
        destruct (getMany_run this db keys w'
                    (with_records (foldl effect (os_records os) (zip_with op_put keys values))
                       os)
                    m Hreg) as (w2' & Hget' & Hst & _); [|done|done|].
        { rewrite Hdb. by apply lookup_alter_records. }
        rewrite Hget in Hget'. injection Hget' as <-.
        rewrite Hst. simpl. by rewrite read_back_stored.
    + intros faults i Hi Hadm Hnone Hfail m Hm.
      apply (write_failure_run this db (call_setMany values) w os _ _ faults i);
        try done; simpl requests_of; rewrite Hacc; try done.
      rewrite length_zip_with. lia.
  - intros Hnd. by apply read_back_distinct.
  - intros v rest Hpl Hv Hadm. by apply (setMany_refused_run this db).
Qed.

(** C2, an instance: two members with the keys 2 and 3, written to the
    store with a unique index on [email]. *)
Lemma setMany_all_or_nothing_witness :
  let this := users in
  let os := members in
  let w := world_of {["users" := os]} in
  let values := [contact 2 "al@x.org"; contact 3 "bo@x.org"] in
  let keys := [KNum 2; KNum 3] in
  let batch := zip_with op_put keys values in
  let after := alter (with_records (foldl effect (os_records os) batch))
                 (name this) (w_db w) in
  (∃ p w1, setMany this values w = (Return p, w1)
    ∧ (∃ tx, w_txs w1 = w_txs w ++ [tx] ∧ rq_op <$> tx_requests tx = batch)
    ∧ (∀ faults n,
         (w_db (run faults n w1) = w_db w
          ∨ w_db (run faults n w1) = after
            ∧ state_of p (run faults n w1) = Fulfilled VUndefined)
         ∧ (∀ r, state_of p (run faults n w1) = Rejected r →
              w_db (run faults n w1) = w_db w)
         ∧ (∀ v, state_of p (run faults n w1) = Fulfilled v →
              ∃ q w2, getMany this keys (run faults n w1) = (Return q, w2)
                      ∧ ∀ m, (length keys ≤ m)%nat →
                          state_of q (run no_faults m w2)
                          = Fulfilled (VArr (read_back keys values))))
    ∧ (∀ faults i,
         (i < length values)%nat →
         admissible os (os_records os) (take i batch) →
         (∀ c, (w_clock w ≤ c < w_clock w + i)%nat → faults c = None) →
         (is_Some (faults (w_clock w + i)%nat)
          ∨ ∃ k v, batch !! i = Some (op_put k v)
                   ∧ violates_unique os k v
                       (foldl effect (os_records os) (take i batch)) = true) →
         ∀ m, (i < m)%nat →
           state_of p (run faults m w1) = Rejected RNull
           ∧ w_db (run faults m w1) = w_db w))
  ∧ (NoDup keys → read_back keys values = values)
  ∧ (∀ v rest,
       plain v = true → resolve_key os v None = None →
       admissible os (os_records os) batch →
       ∃ w1, setMany this (values ++ v :: rest) w = (Throw (DOMException "DataError"), w1)
         ∧ w_promises w1 = w_promises w
         ∧ ∀ m, (S (length values) ≤ m)%nat →
             w_live (run no_faults m w1) = [] ∧ w_db (run no_faults m w1) = after).
Proof.
  apply (setMany_all_or_nothing users conn (world_of {["users" := members]}) members
           [contact 2 "al@x.org"; contact 3 "bo@x.org"] [KNum 2; KNum 3]);
    [reflexivity|reflexivity|reflexivity|by repeat constructor|by repeat constructor].
Defined.

(** * Keys by path and array keys, on the samples *)

(** The index on [address.city] holds the records that have a city in
    their [address], by city; the record with a property of the name
    [address.city] is not in it.  [getAllByIndex] returns the former in
    the order of their cities, and [getByIndex] finds one by its city. *)
Lemma index_on_a_nested_path :
  let w := world_of {["users" := places]} in
  (getAllByIndex users "byCity" None w).1 = Return 0%nat
  ∧ state_of 0 (run no_faults 3 (getAllByIndex users "byCity" None w).2)
    = Fulfilled (VRef 0)
  ∧ w_heap (run no_faults 3 (getAllByIndex users "byCity" None w).2)
    = [[venue 3 "bern"; venue 1 "rome"]]
  ∧ (getByIndex users "byCity" (VStr "rome") w).1 = Return 0%nat
  ∧ state_of 0 (run no_faults 1 (getByIndex users "byCity" (VStr "rome") w).2)
    = Fulfilled (venue 1 "rome")
  ∧ state_of 0 (run no_faults 1 (getByIndex users "byCity" (VStr "oslo") w).2)
    = Fulfilled VUndefined.
Proof. vm_compute. repeat split. Qed.

(** An array of keys is a key: a value whose [id] is the array [[1]] is
    stored under that key and found again, after the records with a
    number or a string for key; and an index can be asked for an array. *)
Lemma array_keys :
  let w := world_of {["users" := contacts]} in
  let v := VObj [("id", VArr [VNum 1]); ("email", VStr "li@x.org")] in
  let w1 := run no_faults 2 (set users v None w).2 in
  (set users v None w).1 = Return 0%nat
  ∧ state_of 0 w1 = Fulfilled VUndefined
  ∧ (os_records <$> w_db w1 !! "users")
    = Some [(KNum 1, contact 1 "zoe@x.org"); (KNum 2, bob);
            (KNum 3, contact 3 "al@x.org"); (KArr [KNum 1], v)]
  ∧ state_of 1 (run no_faults 1 (get users (KArr [KNum 1]) w1).2) = Fulfilled v
  ∧ (getByIndex users "byEmail" (VArr [VNum 1]) w).1 = Return 0%nat
  ∧ state_of 0 (run no_faults 1 (getByIndex users "byEmail" (VArr [VNum 1]) w).2)
    = Fulfilled VUndefined.
Proof. vm_compute. repeat split. Qed.
